(** * Human-interaction emulation engine (human.ts)

    A shallow embedding of the pointer / keyboard / wheel emulation layer of
    n8n-nodes-playwright-cdp, and the properties its specification states;
    then the runner of the user's code (execute.ts): error formatting, the
    timeout race and the normalisation of results.

    Numbers.  A JavaScript [number] is modelled as a real ([R]): [Math.sqrt],
    [Math.cos], [Math.sin], [Math.PI], [Math.min], [Math.max] are the
    functions of the Standard Library, [Math.round] and [Math.ceil] are
    written with [Zfloor].  NaN, the infinities and the rounding of IEEE
    doubles are outside this model of numbers (see Rounding below).

    Effects.  The module reads [Math.random()], keeps one module-level
    variable ([lastMousePosition]), waits on timers and awaits calls on a
    Playwright page, each of which may reject.  All of it is threaded through
    a state-and-error monad [Async] over a [World].

    Rounding.  Where a property turns on how the code's arithmetic rounds,
    the function is embedded a second time over IEEE 754 doubles (module
    [Double]), and what holds in exact arithmetic only is marked as such. *)

From Stdlib Require Import Reals Lra Lia ZArith List String Ascii Bool.
From Stdlib Require Import DecimalString.
From Stdlib Require PrimFloat SpecFloat FloatOps FloatAxioms Uint63.
Import ListNotations.
Open Scope R_scope.

(** ** Data model *)

Module Point.
Record t : Type := mk { x : R; y : R }.
End Point.

Module Range.
Record t : Type := mk { min : R; max : R }.
End Range.

Module BoundingBox.
Record t : Type := mk { x : R; y : R; width : R; height : R }.
End BoundingBox.

Module Button.
Inductive t : Type := left | right | middle.
End Button.

Module Direction.
Inductive t : Type := up | down.
End Direction.

(** [HumanEmulationConfig] of types.ts: the three ranges are optional. *)
Record HumanEmulationConfig : Type := mkConfig {
  enabled : bool;
  mouseSpeed : option Range.t;
  typingDelay : option Range.t;
  scrollDelay : option Range.t
}.

Module DEFAULTS.
Definition mouseSpeed : Range.t := Range.mk 100 300.
Definition typingDelay : Range.t := Range.mk 50 150.
Definition scrollDelay : Range.t := Range.mk 50 100.
Definition moveSteps : Z := 25%Z.
End DEFAULTS.

(** [value || fallback] on an optional object: an object is always truthy. *)
Definition or_default {A : Type} (value : option A) (fallback : A) : A :=
  match value with
  | Some v => v
  | None => fallback
  end.

(** Options of [humanClick] and of [humanType]. *)
Record ClickOptions : Type := mkClickOptions {
  button : option Button.t;
  clickCount : option Z
}.

Record TypeOptions : Type := mkTypeOptions {
  delay : option R
}.

(** ** The page, the trace and the world *)

(** A thrown value: an [Error] made in human.ts, or whatever a call on the
    page rejected with (the specification's ActorPrimitiveFailure). *)
Inductive JsError : Type :=
| Error (message : string)
| ActorPrimitiveFailure (reason : string).

Definition ElementHandle : Type := nat.

(** A character as [for (const char of text)] yields it: a Unicode code
    point (a lone surrogate, which the iterator yields alone, counts as
    one), by its number.  The text to type is the sequence of its
    characters; [keyboard.type] receives a text. *)
Definition Char : Type := N.
Definition Text : Type := list Char.

(** The text of a literal of ASCII characters. *)
Definition text_of (s : string) : Text :=
  map N_of_ascii (list_ascii_of_string s).

(** What the module asks of its environment, in the order it asks. *)
Inductive Event : Type :=
| page_dollar (selector : string)
| element_boundingBox (element : ElementHandle)
| mouse_move (x y : R)
| mouse_click (x y : R) (button : Button.t) (clickCount : Z)
| mouse_wheel (deltaX deltaY : R)
| keyboard_type (text : Text)
| keyboard_press (key : string)
| setTimeout (ms : R).

Inductive Outcome (A : Type) : Type :=
| Resolved (value : A)
| Rejected (reason : JsError).
Arguments Resolved {A} value.
Arguments Rejected {A} reason.

(** What an awaited call on the page comes back with. *)
Inductive Answer (A : Type) : Type :=
| answers (value : A)
| fails (reason : string).
Arguments answers {A} value.
Arguments fails {A} reason.

Definition await {A : Type} (a : Answer A) : Outcome A :=
  match a with
  | answers v => Resolved v
  | fails reason => Rejected (ActorPrimitiveFailure reason)
  end.

(** The remote browser page.  Its answers may depend on everything that was
    asked before ([list Event], oldest first). *)
Record Actor : Type := mkActor {
  dollar : list Event -> string -> Answer (option ElementHandle);
  boundingBox : list Event -> ElementHandle -> Answer (option BoundingBox.t);
  void_call : list Event -> Event -> Answer unit
}.

(** A [Page] object is the remote page or a [Proxy] around a [Page]. *)
Inductive Page : Type :=
| RemotePage (actor : Actor)
| ProxyPage (target : Page) (config : HumanEmulationConfig).

(** The proxy handler forwards [$], [mouse] and [keyboard] to its target, so
    these members of any [Page] are those of the remote page underneath. *)
Fixpoint actor_of (page : Page) : Actor :=
  match page with
  | RemotePage a => a
  | ProxyPage target _ => actor_of target
  end.

Record World : Type := mkWorld {
  random_source : nat -> R;      (* the successive results of Math.random() *)
  draws : nat;                   (* how many of them were consumed *)
  lastMousePosition : Point.t;   (* the module-level variable *)
  events : list Event            (* the trace, oldest first *)
}.

(** The module starts with [lastMousePosition = { x: 100, y: 100 }]. *)
Definition initial_world (source : nat -> R) : World :=
  mkWorld source 0 (Point.mk 100 100) [].

Definition Async (A : Type) : Type := World -> Outcome A * World.

Definition ret {A : Type} (a : A) : Async A := fun w => (Resolved a, w).

Definition throw {A : Type} (e : JsError) : Async A := fun w => (Rejected e, w).

Definition bind {A B : Type} (m : Async A) (k : A -> Async B) : Async B :=
  fun w =>
    match m w with
    | (Resolved a, w') => k a w'
    | (Rejected e, w') => (Rejected e, w')
    end.

Notation "x <- m ;; k" := (bind m (fun x => k))
  (at level 61, m at next level, right associativity).
Notation "m ;;; k" := (bind m (fun _ => k))
  (at level 61, right associativity).

Definition log (e : Event) (w : World) : World :=
  mkWorld (random_source w) (draws w) (lastMousePosition w) (events w ++ [e]).

Definition tick (w : World) : World :=
  mkWorld (random_source w) (S (draws w)) (lastMousePosition w) (events w).

(** [Math.random()] *)
Definition Math_random : Async R :=
  fun w => (Resolved (random_source w (draws w)), tick w).

(** [await new Promise((resolve) => setTimeout(resolve, ms))] *)
Definition sleep (ms : R) : Async unit :=
  fun w => (Resolved tt, log (setTimeout ms) w).

(** A void call awaited on the page ([page.mouse.move] and the like). *)
Definition perform (page : Page) (e : Event) : Async unit :=
  fun w => (await (void_call (actor_of page) (events w) e), log e w).

(** [await page.$(selector)] *)
Definition page_query (page : Page) (selector : string)
  : Async (option ElementHandle) :=
  fun w => (await (dollar (actor_of page) (events w) selector),
            log (page_dollar selector) w).

(** [await element.boundingBox()] *)
Definition element_box (page : Page) (element : ElementHandle)
  : Async (option BoundingBox.t) :=
  fun w => (await (boundingBox (actor_of page) (events w) element),
            log (element_boundingBox element) w).

Definition get_lastMousePosition : Async Point.t :=
  fun w => (Resolved (lastMousePosition w), w).

Definition set_lastMousePosition (p : Point.t) : Async unit :=
  fun w => (Resolved tt, mkWorld (random_source w) (draws w) p (events w)).

(** ** Numeric helpers of the language *)

(** [Math.round]: nearest integer, a tie goes up. *)
Definition Math_round (v : R) : R := IZR (Zfloor (v + 0.5)).

(** [Math.ceil] *)
Definition Math_ceil (v : R) : Z := Zceil v.

(** ** human.ts *)

Definition randomBetween (min max : R) : Async R :=
  u <- Math_random ;;
  ret (u * (max - min) + min).

Definition randomSleep (min max : R) : Async unit :=
  ms <- randomBetween min max ;;
  sleep ms.

Definition bezierPoint (t : R) (p0 p1 p2 p3 : Point.t) : Point.t :=
  let t2 := t * t in
  let t3 := t2 * t in
  let mt := 1 - t in
  let mt2 := mt * mt in
  let mt3 := mt2 * mt in
  Point.mk
    (mt3 * Point.x p0 + 3 * mt2 * t * Point.x p1 + 3 * mt * t2 * Point.x p2
     + t3 * Point.x p3)
    (mt3 * Point.y p0 + 3 * mt2 * t * Point.y p1 + 3 * mt * t2 * Point.y p2
     + t3 * Point.y p3).

(** [const t = i / steps; const point = bezierPoint(t, start, cp1, cp2, end)]:
    the point of the curve that iteration [i] of [generateMousePath] jitters. *)
Definition sampled (steps : Z) (start cp1 cp2 end_ : Point.t) (i : Z)
  : Point.t :=
  bezierPoint (IZR i / IZR steps) start cp1 cp2 end_.

(** The body of [for (let i = 0; i <= steps; i++)] in [generateMousePath],
    run [remaining] more times from index [i]; [path] is the array so far. *)
Fixpoint sample_points (remaining : nat) (i : Z) (steps : Z)
    (start cp1 cp2 end_ : Point.t) (path : list Point.t)
  : Async (list Point.t) :=
  match remaining with
  | O => ret path
  | S remaining' =>
      let point := sampled steps start cp1 cp2 end_ i in
      jx <- randomBetween (-1) 1 ;;
      jy <- randomBetween (-1) 1 ;;
      sample_points remaining' (i + 1) steps start cp1 cp2 end_
        (path ++ [Point.mk (Math_round (Point.x point + jx))
                           (Math_round (Point.y point + jy))])
  end.

(** Lines 63-83 of [generateMousePath]: the distance and the two control
    points, from four draws. *)
Definition control_points (start end_ : Point.t) : Async (Point.t * Point.t) :=
  let dx := Point.x end_ - Point.x start in
  let dy := Point.y end_ - Point.y start in
  let distance := sqrt (dx * dx + dy * dy) in
  f1 <- randomBetween 0.2 0.4 ;;
  let offset1 := f1 * distance in
  f2 <- randomBetween 0.2 0.4 ;;
  let offset2 := f2 * distance in
  angle1 <- randomBetween (- PI / 4) (PI / 4) ;;
  angle2 <- randomBetween (- PI / 4) (PI / 4) ;;
  let cp1 := Point.mk (Point.x start + dx * 0.25 + cos angle1 * offset1)
                      (Point.y start + dy * 0.25 + sin angle1 * offset1) in
  let cp2 := Point.mk (Point.x start + dx * 0.75 + cos angle2 * offset2)
                      (Point.y start + dy * 0.75 + sin angle2 * offset2) in
  ret (cp1, cp2).

Definition generateMousePath (start end_ : Point.t) (steps : Z)
  : Async (list Point.t) :=
  cps <- control_points start end_ ;;
  sample_points (Z.to_nat (steps + 1)) 0 steps start (fst cps) (snd cps) end_ [].

(** [getRandomPointInElement]; the handle is one of [page]. *)
Definition getRandomPointInElement (page : Page) (element : ElementHandle)
  : Async Point.t :=
  box <- element_box page element ;;
  match box with
  | None => throw (Error "Element has no bounding box")
  | Some box =>
      let marginX := BoundingBox.width box * 0.1 in
      let marginY := BoundingBox.height box * 0.1 in
      rx <- randomBetween 0 (BoundingBox.width box - 2 * marginX) ;;
      ry <- randomBetween 0 (BoundingBox.height box - 2 * marginY) ;;
      ret (Point.mk (BoundingBox.x box + marginX + rx)
                    (BoundingBox.y box + marginY + ry))
  end.

(** The loop of [moveMouseAlongPath]: [prev] is [path[i - 1]], absent at
    [i = 0]; [rest] is [path[i..]]. *)
Fixpoint move_points (page : Page) (speed : Range.t) (prev : option Point.t)
    (rest : list Point.t) : Async unit :=
  match rest with
  | [] => ret tt
  | point :: rest' =>
      match prev with
      | Some prev =>
          let dist := sqrt ((Point.x point - Point.x prev) ^ 2
                            + (Point.y point - Point.y prev) ^ 2) in
          s <- randomBetween (Range.min speed) (Range.max speed) ;;
          let delay := dist / s * 100 in
          sleep (Rmax 1 delay)
      | None => ret tt
      end ;;;
      perform page (mouse_move (Point.x point) (Point.y point)) ;;;
      move_points page speed (Some point) rest'
  end.

Definition moveMouseAlongPath (page : Page) (path : list Point.t)
    (config : HumanEmulationConfig) : Async unit :=
  let speed := or_default (mouseSpeed config) DEFAULTS.mouseSpeed in
  move_points page speed None path ;;;
  match path with
  | [] => ret tt
  | first :: _ => set_lastMousePosition (last path first)
  end.

(** [options?.clickCount || 1]: absent and [0] both give [1]. *)
Definition clickCount_or_1 (options : option ClickOptions) : Z :=
  match options with
  | Some o =>
      match clickCount o with
      | Some c => if (c =? 0)%Z then 1%Z else c
      | None => 1%Z
      end
  | None => 1%Z
  end.

(** [options?.button || 'left'] *)
Definition button_or_left (options : option ClickOptions) : Button.t :=
  match options with
  | Some o => or_default (button o) Button.left
  | None => Button.left
  end.

Definition humanClick (page : Page) (selector : string)
    (config : HumanEmulationConfig) (options : option ClickOptions)
  : Async unit :=
  element <- page_query page selector ;;
  match element with
  | None => throw (Error ("Element not found: " ++ selector))
  | Some element =>
      targetPoint <- getRandomPointInElement page element ;;
      start <- get_lastMousePosition ;;
      path <- generateMousePath start targetPoint DEFAULTS.moveSteps ;;
      moveMouseAlongPath page path config ;;;
      randomSleep 50 150 ;;;
      perform page (mouse_click (Point.x targetPoint) (Point.y targetPoint)
                      (button_or_left options) (clickCount_or_1 options)) ;;;
      randomSleep 50 100
  end.

(** [['.', ',', '!', '?', ' ', '\n'].includes(char)] *)
Definition is_pause_char (char : Char) : bool :=
  existsb (N.eqb char) (map N_of_ascii ["."; ","; "!"; "?"; " "; "010"]%char).

(** The loop [for (const char of text)], which [humanType] and [humanFill]
    both contain, character for character the same. *)
Fixpoint type_chars (page : Page) (typingDelay : Range.t) (text : Text)
  : Async unit :=
  match text with
  | [] => ret tt
  | char :: text' =>
      perform page (keyboard_type [char]) ;;;
      base <- randomBetween (Range.min typingDelay) (Range.max typingDelay) ;;
      delay <- (if is_pause_char char
                then factor <- randomBetween 1.5 2.5 ;; ret (base * factor)
                else ret base) ;;
      sleep delay ;;;
      type_chars page typingDelay text'
  end.

Definition humanType (page : Page) (selector : string) (text : Text)
    (config : HumanEmulationConfig) (options : option TypeOptions)
  : Async unit :=
  let typingDelay := or_default (typingDelay config) DEFAULTS.typingDelay in
  humanClick page selector config None ;;;
  randomSleep 100 200 ;;;
  type_chars page typingDelay text.

Definition humanFill (page : Page) (selector : string) (text : Text)
    (config : HumanEmulationConfig) : Async unit :=
  humanClick page selector config None ;;;
  perform page (keyboard_press "Control+a") ;;;
  randomSleep 50 100 ;;;
  perform page (keyboard_press "Backspace") ;;;
  randomSleep 100 200 ;;;
  let typingDelay := or_default (typingDelay config) DEFAULTS.typingDelay in
  type_chars page typingDelay text.

(** The loop [for (let i = 0; i < chunks; i++)] of [humanScroll], run
    [remaining] more times from index [i]. *)
Fixpoint scroll_chunks (page : Page) (scrollDelay : Range.t)
    (scrollDirection amount chunkSize : R) (remaining : nat) (i : Z)
  : Async unit :=
  match remaining with
  | O => ret tt
  | S remaining' =>
      let scrollAmount := Rmin chunkSize (amount - IZR i * chunkSize) in
      perform page (mouse_wheel 0 (scrollAmount * scrollDirection)) ;;;
      randomSleep (Range.min scrollDelay) (Range.max scrollDelay) ;;;
      scroll_chunks page scrollDelay scrollDirection amount chunkSize
        remaining' (i + 1)
  end.

Definition humanScroll (page : Page) (direction : Direction.t) (amount : R)
    (config : HumanEmulationConfig) : Async unit :=
  let scrollDelay := or_default (scrollDelay config) DEFAULTS.scrollDelay in
  let scrollDirection :=
    match direction with Direction.down => 1 | Direction.up => -1 end in
  chunkSize <- randomBetween 50 150 ;;
  let chunks := Math_ceil (amount / chunkSize) in
  scroll_chunks page scrollDelay scrollDirection amount chunkSize
    (Z.to_nat chunks) 0.

(** [createHumanizedPage]: the page itself, or a [Proxy] around it. *)
Definition createHumanizedPage (page : Page) (config : HumanEmulationConfig)
  : Page :=
  if negb (enabled config) then page else ProxyPage page config.

(** What [get(target, prop)] of the proxy handler returns: one of the three
    closures, or the member [prop] of the target (bound to it when it is a
    function). *)
Inductive Member : Type :=
| emulated_click (call : string -> option ClickOptions -> Async unit)
| emulated_type (call : string -> Text -> option TypeOptions -> Async unit)
| emulated_fill (call : string -> Text -> Async unit)
| passed_through (target : Page) (prop : string).

Definition handler_get (target : Page) (config : HumanEmulationConfig)
    (prop : string) : Member :=
  if String.eqb prop "click" then
    emulated_click (fun selector options =>
                      humanClick target selector config options)
  else if String.eqb prop "type" then
    emulated_type (fun selector text options =>
                     humanType target selector text config options)
  else if String.eqb prop "fill" then
    emulated_fill (fun selector value =>
                     humanFill target selector value config)
  else passed_through target prop.

(** * The arithmetic as executed: IEEE 754 doubles

    The embedding above computes with exact reals.  Where a property turns
    on how the code's arithmetic rounds, the function is embedded again over
    the binary64 floats of the kernel ([PrimFloat]), operation for operation
    as the source has them. *)
Module Double.
Import PrimFloat.
Local Open Scope float_scope.

Record Range : Type := mkRange { min : float; max : float }.

Record HumanEmulationConfig : Type := mkConfig {
  enabled : bool;
  mouseSpeed : option Range;
  typingDelay : option Range;
  scrollDelay : option Range
}.

Definition DEFAULTS_scrollDelay : Range := mkRange 50 100.

(** What [humanScroll] asks of its environment. *)
Inductive Event : Type :=
| mouse_wheel (deltaX deltaY : float)
| setTimeout (ms : float).

(** The page: what [await page.mouse.wheel(...)] comes back with, which may
    depend on everything that was asked before. *)
Definition Page : Type := list Event -> Event -> Answer unit.

Record World : Type := mkWorld {
  random_source : nat -> float;  (* the successive results of Math.random() *)
  draws : nat;                   (* how many of them were consumed *)
  events : list Event            (* the trace, oldest first *)
}.

Definition initial_world (source : nat -> float) : World :=
  mkWorld source 0 [].

Definition log (e : Event) (w : World) : World :=
  mkWorld (random_source w) (draws w) (events w ++ [e]).

Definition tick (w : World) : World :=
  mkWorld (random_source w) (S (draws w)) (events w).

Definition Math_random (w : World) : float * World :=
  (random_source w (draws w), tick w).

Definition randomBetween (min max : float) (w : World) : float * World :=
  let (u, w1) := Math_random w in (u * (max - min) + min, w1).

Definition randomSleep (min max : float) (w : World) : World :=
  let (ms, w1) := randomBetween min max w in log (setTimeout ms) w1.

(** [Math.min]: NaN when an argument is NaN, and [-0] is below [+0]. *)
Definition Math_min (a b : float) : float :=
  if (is_nan a || is_nan b)%bool then nan
  else if a <? b then a
  else if b <? a then b
  else if (is_zero a && get_sign a)%bool then a
  else b.

(** [Math.ceil(x)]: an integer when [x] is finite, [x] itself otherwise. *)
Inductive Ceiling : Type :=
| integer (z : Z)
| minus_infinity
| plus_infinity
| not_a_number.

Definition Math_ceil (x : float) : Ceiling :=
  match FloatOps.Prim2SF x with
  | SpecFloat.S754_zero _ => integer 0
  | SpecFloat.S754_infinity s => if s then minus_infinity else plus_infinity
  | SpecFloat.S754_nan => not_a_number
  | SpecFloat.S754_finite s m e =>
      (* |x| = m * 2^e *)
      if (0 <=? e)%Z then
        integer ((if s then -1 else 1) * (Z.pos m * 2 ^ e))
      else if s then integer (- (Z.pos m / 2 ^ (- e)))
      else integer (- ((- Z.pos m) / 2 ^ (- e)))
  end.

(** How often the body of [for (let i = 0; i < chunks; i++)] is entered
    when nothing in it throws.  [None]: the loop has no end, for [Infinity]
    and above 2^53, where [i++] no longer changes [i]. *)
Definition turns (chunks : Ceiling) : option nat :=
  match chunks with
  | integer z => if (z <=? 2 ^ 53)%Z then Some (Z.to_nat z) else None
  | plus_infinity => None
  | minus_infinity | not_a_number => Some 0%nat
  end.

(** The loop counter [i] as a number: exact, since [i < 2^53]. *)
Definition of_int (i : Z) : float := of_uint63 (Uint63.of_Z i).

(** The loop of [humanScroll], run [remaining] more times from index [i]. *)
Fixpoint scroll_chunks (page : Page) (scrollDelay : Range)
    (scrollDirection amount chunkSize : float) (remaining : nat) (i : Z)
    (w : World) : Outcome unit * World :=
  match remaining with
  | O => (Resolved tt, w)
  | S remaining' =>
      let scrollAmount := Math_min chunkSize (amount - of_int i * chunkSize) in
      let e := mouse_wheel 0 (scrollAmount * scrollDirection) in
      match page (events w) e with
      | fails reason => (Rejected (ActorPrimitiveFailure reason), log e w)
      | answers _ =>
          let w2 :=
            randomSleep (min scrollDelay) (max scrollDelay) (log e w) in
          scroll_chunks page scrollDelay scrollDirection amount chunkSize
            remaining' (i + 1) w2
      end
  end.

(** [humanScroll(page, direction, amount, config)]; [None]: it does not
    return. *)
Definition humanScroll (page : Page) (direction : Direction.t)
    (amount : float) (config : HumanEmulationConfig) (w : World)
  : option (Outcome unit * World) :=
  let scrollDelay := or_default (scrollDelay config) DEFAULTS_scrollDelay in
  let scrollDirection :=
    match direction with Direction.down => 1 | Direction.up => -1 end in
  let (chunkSize, w1) := randomBetween 50 150 w in
  let chunks := Math_ceil (amount / chunkSize) in
  match turns chunks with
  | Some n =>
      Some (scroll_chunks page scrollDelay scrollDirection amount chunkSize
              n 0 w1)
  | None => None
  end.

(** The vertical deltas of the wheel events of a trace, in order. *)
Fixpoint wheel_deltas (evs : list Event) : list float :=
  match evs with
  | [] => []
  | mouse_wheel _ deltaY :: evs' => deltaY :: wheel_deltas evs'
  | setTimeout _ :: evs' => wheel_deltas evs'
  end.

(** A page that answers every call. *)
Definition steady_page : Page := fun _ _ => answers tt.

(** A finite double as a whole number of units of 2^-1074, the spacing of
    the smallest doubles: [x = units x * 2^-1074], exactly. *)
Definition units (x : float) : Z :=
  match FloatOps.Prim2SF x with
  | SpecFloat.S754_finite s m e =>
      (if s then -1 else 1) * (Z.pos m * 2 ^ (e + 1074))
  | _ => 0
  end.

End Double.

(** The sum of a list of integers. *)
Definition Zsum (l : list Z) : Z := fold_right Z.add 0%Z l.

(** * User-code execution (execute.ts)

    Strings are the strings of the Standard Library; line numbers are
    natural numbers and the timeout is an integer number of milliseconds.
    What the user's code does is a parameter of [executeUserCode]: whether
    the function can be built, and how its promise settles. *)

(** ** Strings of the language *)

(** [String.prototype.includes] *)
Fixpoint includes (needle hay : string) : bool :=
  if String.prefix needle hay then true
  else match hay with
       | EmptyString => false
       | String _ hay' => includes needle hay'
       end.

(** [s.split('\n')] *)
Fixpoint split_lines (s : string) : list string :=
  match s with
  | EmptyString => [EmptyString]
  | String c s' =>
      if Ascii.eqb c "010" then EmptyString :: split_lines s'
      else match split_lines s' with
           | line :: lines => String c line :: lines
           | [] => [String c EmptyString]
           end
  end.

(** [rows.join('\n')] *)
Fixpoint join_lines (rows : list string) : string :=
  match rows with
  | [] => EmptyString
  | [row] => row
  | row :: rows' => (row ++ String "010" (join_lines rows'))%string
  end.

(** [array.slice(start, end)] for [0 <= start] and [0 <= end]. *)
Definition slice {A : Type} (start end_ : nat) (l : list A) : list A :=
  firstn (end_ - start) (skipn start l).

(** [array.map((item, idx) => f(item, idx))], counting from [idx]. *)
Fixpoint map_indexed {A B : Type} (f : A -> nat -> B) (idx : nat) (l : list A)
  : list B :=
  match l with
  | [] => []
  | a :: l' => f a idx :: map_indexed f (S idx) l'
  end.

(** A number in a template literal: its decimal digits. *)
Definition decimal (n : nat) : string := NilEmpty.string_of_uint (Nat.to_uint n).

(** [parseInt(digits, 10)] on a string of decimal digits. *)
Definition parseInt (digits : string) : nat :=
  match NilEmpty.uint_of_string digits with
  | Some d => Nat.of_uint d
  | None => 0%nat
  end.

(** [\d] *)
Definition is_digit (c : ascii) : bool :=
  (Ascii.leb "0" c && Ascii.leb c "9")%bool.

(** The longest run of digits at the head of [s], and what follows it. *)
Fixpoint take_digits (s : string) : string * string :=
  match s with
  | String c s' =>
      if is_digit c
      then let (digits, rest) := take_digits s' in (String c digits, rest)
      else (EmptyString, s)
  | EmptyString => (EmptyString, EmptyString)
  end.

(** [s] without its head [head], when it starts with it. *)
Fixpoint after_prefix (head s : string) : option string :=
  match head, s with
  | EmptyString, _ => Some s
  | String a head', String b s' =>
      if Ascii.eqb a b then after_prefix head' s' else None
  | String _ _, EmptyString => None
  end.

(** A match of [/<tag>(\d+):\d+/] anchored at the head of [s], where [tag]
    is literal text: the capture group.  The first [\d+] is greedy and what
    follows it must be [:], so it takes the whole run of digits. *)
Definition match_here (tag s : string) : option string :=
  match after_prefix tag s with
  | Some s1 =>
      match take_digits s1 with
      | (EmptyString, _) => None
      | (digits, String ":" (String c _)) =>
          if is_digit c then Some digits else None
      | _ => None
      end
  | None => None
  end.

(** [s.match(/<tag>(\d+):\d+/)]: the capture group of the leftmost match. *)
Fixpoint match_line (tag s : string) : option string :=
  match match_here tag s with
  | Some digits => Some digits
  | None =>
      match s with
      | EmptyString => None
      | String _ s' => match_line tag s'
      end
  end.

(** ** formatUserCodeError *)

(** An [Error] object of the user's code: its [message] and its [stack],
    which may be missing. *)
Record UserError : Type := mkUserError {
  message : string;
  stack : option string
}.

Record FormattedError : Type := mkFormattedError {
  formatted_message : string;
  lineNumber : option nat;
  codeSnippet : option string
}.

(** The rows of the snippet, before they are joined. *)
Definition snippet_rows (lines : list string) (lineNumber : nat)
  : list string :=
  let startLine := Nat.max 0 (lineNumber - 2) in
  let endLine := Nat.min (List.length lines) (lineNumber + 1) in
  map_indexed
    (fun line idx =>
       let actualLine := (startLine + idx + 1)%nat in
       let marker :=
         (if (actualLine =? lineNumber)%nat then ">>> " else "    ")%string in
       (marker ++ decimal actualLine ++ ": " ++ line)%string)
    0 (slice startLine endLine lines).

Definition formatUserCodeError (error : UserError) (userCode : string)
  : FormattedError :=
  let stack := match stack error with Some s => s | None => EmptyString end in
  let lineMatch :=
    match match_line "user-code.js:" stack with
    | Some m => Some m
    | None => match_line "<anonymous>:" stack
    end in
  match lineMatch with
  | Some digits =>
      let lineNumber := parseInt digits in
      let lines := split_lines userCode in
      mkFormattedError (message error) (Some lineNumber)
        (Some (join_lines (snippet_rows lines lineNumber)))
  | None => mkFormattedError (message error) None None
  end.

(** A line break. *)
Definition nl : string := String "010" EmptyString.

(** ** Values and results *)

(** The values user code may return or throw.  Numbers are integers here. *)
#[warnings="-register-all"] Inductive JsValue : Type :=
| js_undefined
| js_null
| js_boolean (b : bool)
| js_number (n : Z)
| js_string (s : string)
| js_array (items : list JsValue)
| js_object (props : list (string * JsValue)).

(** [typeof v === 'object' && v !== null] *)
Definition is_object (v : JsValue) : bool :=
  match v with
  | js_array _ | js_object _ => true
  | _ => false
  end.

(** [key in v], for a [v] that is an object; an array has index keys only. *)
Definition has_key (key : string) (v : JsValue) : bool :=
  match v with
  | js_object props => existsb (fun kv => String.eqb (fst kv) key) props
  | _ => false
  end.

(** [v[key]]: [undefined] when the key is missing. *)
Definition get_key (key : string) (v : JsValue) : JsValue :=
  match v with
  | js_object props =>
      match find (fun kv => String.eqb (fst kv) key) props with
      | Some kv => snd kv
      | None => js_undefined
      end
  | _ => js_undefined
  end.

(** What [v || fallback] tests. *)
Definition truthy (v : JsValue) : bool :=
  match v with
  | js_undefined | js_null => false
  | js_boolean b => b
  | js_number n => negb (n =? 0)%Z
  | js_string s => negb (String.eqb s EmptyString)
  | js_array _ | js_object _ => true
  end.

(** An item of the result: [binary] is [None] when the object literal has
    no [binary] key. *)
Record NormalizedItem : Type := mkItem {
  json : JsValue;
  binary : option JsValue
}.

(** The callback of [result.map] in [normalizeResult]. *)
Definition normalize_item (item : JsValue) : NormalizedItem :=
  if (is_object item && (has_key "json" item || has_key "binary" item))%bool
  then mkItem (if truthy (get_key "json" item) then get_key "json" item
               else js_object [])
              (Some (get_key "binary" item))
  else mkItem item None.

Definition normalizeResult (result : JsValue) : list NormalizedItem :=
  match result with
  | js_undefined | js_null => [mkItem (js_object []) None]
  | js_array items => map normalize_item items
  | _ =>
      if (is_object result
          && (has_key "json" result || has_key "binary" result))%bool
      then [mkItem (if truthy (get_key "json" result)
                    then get_key "json" result else js_object [])
                   (Some (get_key "binary" result))]
      else [mkItem result None]
  end.

(** ** executeUserCode *)

(** What user code throws: an [Error], or any other value. *)
Inductive Thrown : Type :=
| thrown_error (e : UserError)
| thrown_value (v : JsValue).

(** What the call of the user's function does, and what becomes of the
    promise it returns.  The body runs within the call up to its first
    [await]: code that loops without awaiting never gives control back
    ([never_returns]), and nothing that follows the call runs, the timer is
    not even created.  Otherwise the promise is settled by the time the
    timer fires (at some time, when there is no timer), or it is still
    [pending] then. *)
Inductive Settled : Type :=
| fulfils (result : JsValue)
| rejects (t : Thrown)
| pending
| never_returns.

(** A whole number in a template literal: its decimal digits, for a number
    below 1e21 in size (from there on a template literal prints an exponent
    form). *)
Definition decimalZ (z : Z) : string :=
  NilEmpty.string_of_int (Z.to_int z).

(** The [catch] block around the race in [executeUserCode]. *)
Definition on_rejection (fresh_stack : string -> option string)
    (code : string) (t : Thrown) : Thrown :=
  match t with
  | thrown_error error =>
      if includes "timeout exceeded" (message error) then t
      else
        let formatted := formatUserCodeError error code in
        let errorMessage :=
          ("Error in user code: " ++ formatted_message formatted)%string in
        let errorMessage :=
          match lineNumber formatted with
          | Some (S n) =>
              (errorMessage ++ nl ++ nl ++ "At line " ++ decimal (S n) ++ ":")
                %string
          | _ => errorMessage
          end in
        let errorMessage :=
          match codeSnippet formatted with
          | Some (String c snippet) =>
              (errorMessage ++ nl ++ String c snippet)%string
          | _ => errorMessage
          end in
        thrown_error (mkUserError errorMessage (fresh_stack errorMessage))
  | thrown_value _ => t
  end.

(** [executeUserCode(code, sandbox, timeout)].  [syntaxError] is the message
    of the error of [new AsyncFunction(...)], if it throws; [run] is what the
    user's function does; [fresh_stack] is the stack an [Error] made here
    gets.  [None]: the call does not return, or the promise it returns
    never settles. *)
Definition executeUserCode (fresh_stack : string -> option string)
    (code : string) (syntaxError : option string) (run : Settled)
    (timeout : Z) : option (Thrown + JsValue) :=
  match syntaxError with
  | Some reason =>
      let m := ("Syntax error in code: " ++ reason)%string in
      Some (inl (thrown_error (mkUserError m (fresh_stack m))))
  | None =>
      match run with
      | never_returns => None
      | _ =>
          if (timeout <=? 0)%Z then
            match run with
            | fulfils v => Some (inr v)
            | rejects t => Some (inl t)
            | pending | never_returns => None
            end
          else
            match run with
            | fulfils v => Some (inr v)
            | rejects t => Some (inl (on_rejection fresh_stack code t))
            | pending =>
                let m := ("Execution timeout exceeded (" ++ decimalZ timeout
                          ++ "ms)")%string in
                Some (inl (on_rejection fresh_stack code
                             (thrown_error (mkUserError m (fresh_stack m)))))
            | never_returns => None
            end
      end
  end.

(** * Vocabulary of the properties *)

(** [Math.random()] returns a number in [[0, 1)]. *)
Definition fair (source : nat -> R) : Prop := forall n : nat, 0 <= source n < 1.

(** A page that never rejects: every selector resolves to element [0], whose
    bounding box is [box]. *)
Definition steady_actor (box : BoundingBox.t) : Actor :=
  mkActor (fun _ _ => answers (Some 0%nat))
          (fun _ _ => answers (Some box))
          (fun _ _ => answers tt).

Definition steady_page (box : BoundingBox.t) : Page :=
  RemotePage (steady_actor box).

(** [Math.round(v + randomBetween(-1, 1))] for the draw [u]. *)
Definition jitter_round (v u : R) : R := Math_round (v + (u * (1 - -1) + -1)).

(** The point pushed by the iteration [k] places after [i], when the loop
    was entered after [d] draws. *)
Definition pushed (source : nat -> R) (d : nat) (steps : Z)
    (start cp1 cp2 end_ : Point.t) (i : Z) (k : nat) : Point.t :=
  let point := sampled steps start cp1 cp2 end_ (i + Z.of_nat k) in
  Point.mk (jitter_round (Point.x point) (source (d + 2 * k)%nat))
           (jitter_round (Point.y point) (source (d + 2 * k + 1)%nat)).

Definition ticks (n : nat) (w : World) : World :=
  mkWorld (random_source w) (draws w + n) (lastMousePosition w) (events w).

(** Per-axis distance between two points. *)
Definition within (bound : R) (p q : Point.t) : Prop :=
  Rabs (Point.x p - Point.x q) <= bound /\
  Rabs (Point.y p - Point.y q) <= bound.

(** A displacement [(vx, vy)] makes an angle of at most 45 degrees with the
    perpendicular of the line of direction [(dx, dy)] exactly when its
    component along the line is no longer than its component across it (both
    scaled by the length of [(dx, dy)]). *)
Definition within_45_of_perpendicular (dx dy vx vy : R) : Prop :=
  Rabs (vx * dx + vy * dy) <= Rabs (vy * dx - vx * dy).

(** The vertical deltas of the wheel events of a trace, in order. *)
Fixpoint wheel_deltas (evs : list Event) : list R :=
  match evs with
  | [] => []
  | mouse_wheel _ deltaY :: evs' => deltaY :: wheel_deltas evs'
  | _ :: evs' => wheel_deltas evs'
  end.

Definition Rsum (l : list R) : R := fold_right Rplus 0 l.

(** [Math.min(chunkSize, amount - i * chunkSize)] *)
Definition chunk (amount chunkSize : R) (i : nat) : R :=
  Rmin chunkSize (amount - INR i * chunkSize).

(** A page all of whose void calls resolve. *)
Definition accepting (page : Page) : Prop :=
  forall (history : list Event) (e : Event),
    void_call (actor_of page) history e = answers tt.

(** Every run of [m] relates the world before to the world after by [I]. *)
Definition steps_in {A : Type} (I : World -> World -> Prop) (m : Async A)
  : Prop :=
  forall (w w' : World) (o : Outcome A), m w = (o, w') -> I w w'.

(** [m] can only reject with what a call on the page rejected with. *)
Definition only_actor_failures {A : Type} (m : Async A) : Prop :=
  forall (w w' : World) (e : JsError),
    m w = (Rejected e, w') -> exists reason, e = ActorPrimitiveFailure reason.

Definition same_position (w w' : World) : Prop :=
  lastMousePosition w' = lastMousePosition w.

(** The two errors that target resolution throws; the specification calls
    both ElementNotFound. *)
Definition ElementNotFound (selector : string) (e : JsError) : Prop :=
  e = Error ("Element not found: " ++ selector) \/
  e = Error "Element has no bounding box".

(** [page.$(selector)] resolves to [null]. *)
Definition no_element (page : Page) (selector : string) (w : World) : Prop :=
  dollar (actor_of page) (events w) selector = answers None.

(** [page.$(selector)] resolves to an element whose [boundingBox()] resolves
    to [null]. *)
Definition no_geometry (page : Page) (selector : string) (w : World) : Prop :=
  exists element : ElementHandle,
    dollar (actor_of page) (events w) selector = answers (Some element) /\
    boundingBox (actor_of page) (events w ++ [page_dollar selector]) element
    = answers None.

Definition rejects_with {A : Type} (m : Async A) (w : World)
    (kind : JsError -> Prop) : Prop :=
  exists (e : JsError) (w' : World), m w = (Rejected e, w') /\ kind e.

(** A page on which no selector resolves. *)
Definition empty_page : Page :=
  RemotePage (mkActor (fun _ _ => answers None)
                      (fun _ _ => answers None)
                      (fun _ _ => answers tt)).

Definition not_keystroke (e : Event) : Prop :=
  match e with
  | keyboard_type _ => False
  | _ => True
  end.

(** A run that reads the same random source and adds no [keyboard.type]
    call to the trace. *)
Definition quiet (w w' : World) : Prop :=
  random_source w' = random_source w /\
  exists evs : list Event,
    events w' = events w ++ evs /\ Forall not_keystroke evs.

(** The base delay is [randomBetween(typingDelay.min, typingDelay.max)]. *)
Definition sampled_from (r : Range.t) (base : R) : Prop :=
  exists u : R,
    0 <= u < 1 /\ base = u * (Range.max r - Range.min r) + Range.min r.

(** The factor the base delay is multiplied by after [char]. *)
Definition multiplier_for (char : Char) (factor : R) : Prop :=
  if is_pause_char char then 1.5 <= factor <= 2.5 else factor = 1.

(** The trace of the typing loop over [text]: a [keyboard.type] call per
    character, each followed by its delay; the loop ends where the text ends,
    or earlier, at a call that rejected. *)
Inductive typing_trace (r : Range.t) : Text -> list Event -> Prop :=
| typing_none (text : Text) : typing_trace r text []
| typing_cut (char : Char) (text : Text) :
    typing_trace r (char :: text) [keyboard_type [char]]
| typing_next (char : Char) (text : Text) (base factor : R)
    (evs : list Event) :
    sampled_from r base ->
    multiplier_for char factor ->
    typing_trace r text evs ->
    typing_trace r (char :: text)
      (keyboard_type [char]
       :: setTimeout (base * factor) :: evs).

(** A page that resolves every selector to an element with a bounding box
    and accepts every call. *)
Definition responsive (page : Page) : Prop :=
  accepting page /\
  (forall history selector, exists element,
      dollar (actor_of page) history selector = answers (Some element)) /\
  (forall history element, exists box,
      boundingBox (actor_of page) history element = answers (Some box)).

Definition completes {A : Type} (m : Async A) : Prop :=
  forall w : World, exists (a : A) (w' : World), m w = (Resolved a, w').

(** What [humanFill] does before its typing loop. *)
Definition fill_prelude (page : Page) (selector : string)
    (config : HumanEmulationConfig) : Async unit :=
  humanClick page selector config None ;;;
  perform page (keyboard_press "Control+a") ;;;
  randomSleep 50 100 ;;;
  perform page (keyboard_press "Backspace") ;;;
  randomSleep 100 200.


(** ** Vocabulary of the further properties of human.ts *)

(** A point inside the rectangle [[lox, hix] x [loy, hiy]]. *)
Definition in_box (lox hix loy hiy : R) (p : Point.t) : Prop :=
  lox <= Point.x p <= hix /\ loy <= Point.y p <= hiy.

(** Both coordinates are integers. *)
Definition integral_point (p : Point.t) : Prop :=
  exists zx zy : Z, Point.x p = IZR zx /\ Point.y p = IZR zy.

(** The rectangle spanned by [start] and [end], widened by [margin]. *)
Definition around (start end_ : Point.t) (margin : R) (p : Point.t) : Prop :=
  in_box (Rmin (Point.x start) (Point.x end_) - margin)
         (Rmax (Point.x start) (Point.x end_) + margin)
         (Rmin (Point.y start) (Point.y end_) - margin)
         (Rmax (Point.y start) (Point.y end_) + margin) p.

(** The points of the [mouse.move] calls of a trace, in order. *)
Fixpoint moved_to (evs : list Event) : list Point.t :=
  match evs with
  | [] => []
  | mouse_move x y :: evs' => Point.mk x y :: moved_to evs'
  | _ :: evs' => moved_to evs'
  end.

(** The durations of the timer waits of a trace, in order. *)
Fixpoint waits (evs : list Event) : list R :=
  match evs with
  | [] => []
  | setTimeout ms :: evs' => ms :: waits evs'
  | _ :: evs' => waits evs'
  end.

(** [Math.sqrt(Math.pow(point.x - prev.x, 2) + Math.pow(point.y - prev.y, 2))] *)
Definition step_length (prev point : Point.t) : R :=
  sqrt ((Point.x point - Point.x prev) ^ 2 + (Point.y point - Point.y prev) ^ 2).

(** The wait before the move to [point] at the speed [s]. *)
Definition step_wait (prev point : Point.t) (s : R) : R :=
  Rmax 1 (step_length prev point / s * 100).

(** What a run of the loop of [moveMouseAlongPath] that is not cut short
    adds to the trace, when it starts after [d] draws. *)
Fixpoint move_events (speed : Range.t) (source : nat -> R) (d : nat)
    (prev : option Point.t) (rest : list Point.t) : list Event :=
  match rest with
  | [] => []
  | point :: rest' =>
      match prev with
      | Some prev =>
          setTimeout
            (step_wait prev point
               (source d * (Range.max speed - Range.min speed)
                + Range.min speed))
          :: mouse_move (Point.x point) (Point.y point)
          :: move_events speed source (S d) (Some point) rest'
      | None =>
          mouse_move (Point.x point) (Point.y point)
          :: move_events speed source d (Some point) rest'
      end
  end.

(** The pairs of neighbours of a list. *)
Fixpoint neighbours {A : Type} (l : list A) : list (A * A) :=
  match l with
  | a :: (b :: _) as l' => (a, b) :: neighbours l'
  | _ => []
  end.

(** [wait] is the wait of a step from [fst step] to [snd step] at a speed of
    the range [speed]. *)
Definition paced (speed : Range.t) (step : Point.t * Point.t) (wait : R)
  : Prop :=
  exists s : R,
    Range.min speed <= s <= Range.max speed /\
    wait = step_wait (fst step) (snd step) s.

(** [p :: l] when there is a previous point [p]. *)
Definition after (prev : option Point.t) (l : list Point.t) : list Point.t :=
  match prev with
  | Some p => p :: l
  | None => l
  end.

(** Everything a run adds to the trace satisfies [P]. *)
Definition adds (P : Event -> Prop) (w w' : World) : Prop :=
  exists evs : list Event, events w' = events w ++ evs /\ Forall P evs.

Definition move_or_wait (e : Event) : Prop :=
  match e with
  | mouse_move _ _ | setTimeout _ => True
  | _ => False
  end.

(** The interior of a bounding box: a margin of a tenth of the width and of
    the height is left out on each side. *)
Definition interior (box : BoundingBox.t) (p : Point.t) : Prop :=
  in_box (BoundingBox.x box + 0.1 * BoundingBox.width box)
         (BoundingBox.x box + 0.9 * BoundingBox.width box)
         (BoundingBox.y box + 0.1 * BoundingBox.height box)
         (BoundingBox.y box + 0.9 * BoundingBox.height box) p.

(** A run that leaves [lastMousePosition] on integer coordinates if it
    found it there. *)
Definition keeps_integral (w w' : World) : Prop :=
  integral_point (lastMousePosition w) ->
  integral_point (lastMousePosition w').

(** The text of the [keyboard.type] calls of a trace, concatenated. *)
Fixpoint typed_text (evs : list Event) : Text :=
  match evs with
  | [] => []
  | keyboard_type text :: evs' => text ++ typed_text evs'
  | _ :: evs' => typed_text evs'
  end.

(** The run [run], started in [w], typed [text] or, when cut short, a
    beginning of it. *)
Definition typed_in (text : Text) (w : World) (run : Outcome unit * World)
  : Prop :=
  exists evs : list Event,
    events (snd run) = events w ++ evs /\
    (exists rest : Text, text = typed_text evs ++ rest) /\
    (fst run = Resolved tt -> typed_text evs = text).

(** The events of a click: lookups, pointer calls and waits. *)
Definition click_event (e : Event) : Prop :=
  match e with
  | page_dollar _ | element_boundingBox _ | mouse_move _ _
  | mouse_click _ _ _ _ | setTimeout _ => True
  | _ => False
  end.

(** The events of the typing loop. *)
Definition keystroke_or_wait (e : Event) : Prop :=
  match e with
  | keyboard_type _ | setTimeout _ => True
  | _ => False
  end.

(** A vertical wheel event, or a wait within [r]. *)
Definition scroll_event (r : Range.t) (e : Event) : Prop :=
  match e with
  | mouse_wheel deltaX _ => deltaX = 0
  | setTimeout ms => Range.min r <= ms <= Range.max r
  | _ => False
  end.

(** The source was not replaced and the trace grew by events in [P]. *)
Definition grows (P : Event -> Prop) (w w' : World) : Prop :=
  random_source w' = random_source w /\ adds P w w'.

(** The page rejected the call [e], made after [history], with [reason]. *)
Definition rejected_by (page : Page) (history : list Event) (e : Event)
    (reason : string) : Prop :=
  match e with
  | page_dollar selector =>
      dollar (actor_of page) history selector = fails reason
  | element_boundingBox element =>
      boundingBox (actor_of page) history element = fails reason
  | setTimeout _ => False
  | _ => void_call (actor_of page) history e = fails reason
  end.

Definition any_event (e : Event) : Prop := True.

(** No call that the page rejected is survived: in a run of [m], a call of
    the trace that the page rejected is the last event, and the run rejects
    with the reason the page gave. *)
Definition no_rejection_survived {A : Type} (page : Page) (m : Async A)
  : Prop :=
  forall (w w' : World) (o : Outcome A) (pre : list Event) (e : Event)
         (post : list Event) (reason : string),
    m w = (o, w') ->
    events w' = events w ++ pre ++ e :: post ->
    rejected_by page (events w ++ pre) e reason ->
    post = [] /\ o = Rejected (ActorPrimitiveFailure reason).

(** A rejection of [m] with what a page call rejected with comes from the
    last call of the trace, and carries the reason the page gave. *)
Definition rejection_from_last_call {A : Type} (page : Page) (m : Async A)
  : Prop :=
  forall (w w' : World) (reason : string),
    m w = (Rejected (ActorPrimitiveFailure reason), w') ->
    exists (evs : list Event) (e : Event),
      events w' = events w ++ evs ++ [e] /\
      rejected_by page (events w ++ evs) e reason.

(** [m] stops at the first call the page rejects, and passes the rejection
    on: both directions. *)
Definition stops_at_rejection {A : Type} (page : Page) (m : Async A) : Prop :=
  no_rejection_survived page m /\ rejection_from_last_call page m.

(** [m] only appends to the trace, and stops at a rejection. *)
Definition orderly {A : Type} (page : Page) (m : Async A) : Prop :=
  steps_in (adds any_event) m /\ stops_at_rejection page m.

(** A page whose wheel is stuck: every [mouse.wheel] rejects. *)
Definition stuck_wheel_page : Page :=
  RemotePage
    (mkActor (fun _ _ => answers (Some 0%nat))
             (fun _ _ => answers (Some (BoundingBox.mk 0 0 100 50)))
             (fun _ e => match e with
                         | mouse_wheel _ _ => fails "wheel stuck"
                         | _ => answers tt
                         end)).

(** ** Vocabulary of the properties of execute.ts *)

(** No line break in [s]. *)
Definition one_line (s : string) : Prop :=
  ~ In "010"%char (list_ascii_of_string s).

(** The row of line [n] of [lines] (counted from 1) under [marker]. *)
Definition row (marker : string) (n : nat) (lines : list string) : string :=
  (marker ++ decimal n ++ ": " ++ nth (n - 1) lines EmptyString)%string.

Definition all_digits (s : string) : Prop :=
  Forall (fun c => is_digit c = true) (list_ascii_of_string s).

(** [stack] holds [tag], a run of digits that reads [n], a colon and a
    digit: a match of [/<tag>(\d+):\d+/]. *)
Definition names_line (tag stack : string) (n : nat) : Prop :=
  exists (pre digits : string) (c : ascii) (post : string),
    stack = (pre ++ tag ++ digits ++ String ":" (String c post))%string /\
    digits <> EmptyString /\ all_digits digits /\ is_digit c = true /\
    n = parseInt digits.


(** * Properties *)

(** ** Running the monad *)

Lemma bind_run {A B : Type} (m : Async A) (k : A -> Async B) (w w' : World)
    (a : A) :
  m w = (Resolved a, w') -> bind m k w = k a w'.
Proof. intros H. unfold bind. rewrite H. reflexivity. Qed.

Lemma bind_stop {A B : Type} (m : Async A) (k : A -> Async B) (w w' : World)
    (e : JsError) :
  m w = (Rejected e, w') -> bind m k w = (Rejected e, w').
Proof. intros H. unfold bind. rewrite H. reflexivity. Qed.

Lemma bind_resolved {A B : Type} (m : Async A) (k : A -> Async B)
    (w w2 : World) (b : B) :
  bind m k w = (Resolved b, w2) ->
  exists a w1, m w = (Resolved a, w1) /\ k a w1 = (Resolved b, w2).
Proof.
  unfold bind. destruct (m w) as [[a | e] w1]; intros H.
  - exists a, w1. split; [reflexivity | exact H].
  - discriminate H.
Qed.

Lemma bind_rejected {A B : Type} (m : Async A) (k : A -> Async B)
    (w w2 : World) (e : JsError) :
  bind m k w = (Rejected e, w2) ->
  m w = (Rejected e, w2) \/
  exists a w1, m w = (Resolved a, w1) /\ k a w1 = (Rejected e, w2).
Proof.
  unfold bind. destruct (m w) as [[a | e'] w1]; intros H.
  - right. exists a, w1. split; [reflexivity | exact H].
  - left. injection H as -> ->. reflexivity.
Qed.

Lemma randomBetween_run (min max : R) (w : World) :
  randomBetween min max w
  = (Resolved (random_source w (draws w) * (max - min) + min), tick w).
Proof. reflexivity. Qed.

Lemma randomSleep_run (min max : R) (w : World) :
  randomSleep min max w
  = (Resolved tt,
     log (setTimeout (random_source w (draws w) * (max - min) + min)) (tick w)).
Proof. reflexivity. Qed.

Lemma randomBetween_range (min max u : R) :
  0 <= u < 1 -> min <= max -> min <= u * (max - min) + min <= max.
Proof. intros Hu Hm. nra. Qed.

(** ** Geometry Engine *)

Lemma bezierPoint_0 (p0 p1 p2 p3 : Point.t) : bezierPoint 0 p0 p1 p2 p3 = p0.
Proof.
  destruct p0 as [x0 y0]. unfold bezierPoint. cbn [Point.x Point.y].
  f_equal; ring.
Qed.

Lemma bezierPoint_1 (p0 p1 p2 p3 : Point.t) : bezierPoint 1 p0 p1 p2 p3 = p3.
Proof.
  destruct p3 as [x3 y3]. unfold bezierPoint. cbn [Point.x Point.y].
  f_equal; ring.
Qed.

Lemma sampled_first (steps : Z) (start cp1 cp2 end_ : Point.t) :
  sampled steps start cp1 cp2 end_ 0 = start.
Proof.
  unfold sampled. replace (0 / IZR steps) with 0 by (unfold Rdiv; ring).
  apply bezierPoint_0.
Qed.

Lemma sampled_last (steps : Z) (start cp1 cp2 end_ : Point.t) :
  (1 <= steps)%Z -> sampled steps start cp1 cp2 end_ steps = end_.
Proof.
  intros H. unfold sampled.
  replace (IZR steps / IZR steps) with 1.
  - apply bezierPoint_1.
  - field. apply not_0_IZR. lia.
Qed.

(** C10: the cubic Bezier blend starts at its first control point and ends at
    its last: [bezierPoint(0, p0, p1, p2, p3) = p0] and
    [bezierPoint(1, p0, p1, p2, p3) = p3]; hence, for a step count of at
    least 1, the curve that [generateMousePath] samples begins exactly at
    [start] (at [i = 0]) and ends exactly at [end] (at [i = steps]), before
    any jitter is added. *)
Theorem bezierPoint_endpoints :
  forall p0 p1 p2 p3 : Point.t,
    bezierPoint 0 p0 p1 p2 p3 = p0 /\
    bezierPoint 1 p0 p1 p2 p3 = p3 /\
    forall steps : Z, (1 <= steps)%Z ->
      sampled steps p0 p1 p2 p3 0 = p0 /\
      sampled steps p0 p1 p2 p3 steps = p3.
Proof.
  intros p0 p1 p2 p3. split; [apply bezierPoint_0 | split].
  - apply bezierPoint_1.
  - intros steps H. split; [apply sampled_first | now apply sampled_last].
Qed.

Lemma bezierPoint_endpoints_witness :
  (1 <= 25)%Z /\
  sampled 25 (Point.mk 100 100) (Point.mk 3 4) (Point.mk 5 6) (Point.mk 40 20) 25
  = Point.mk 40 20.
Proof.
  split; [lia |].
  apply (bezierPoint_endpoints (Point.mk 100 100) (Point.mk 3 4) (Point.mk 5 6)
           (Point.mk 40 20)).
  lia.
Defined.

(** ** Target region *)

(** C4: for a bounding box [{x, y, width: W, height: H}] with [W, H >= 0] and
    every draw of [Math.random()], [getRandomPointInElement] returns a point
    of [[x + 0.1 W, x + 0.9 W] x [y + 0.1 H, y + 0.9 H]]. *)
Theorem getRandomPointInElement_within_margins :
  forall (page : Page) (element : ElementHandle) (w : World)
         (box : BoundingBox.t),
    boundingBox (actor_of page) (events w) element = answers (Some box) ->
    0 <= BoundingBox.width box ->
    0 <= BoundingBox.height box ->
    fair (random_source w) ->
    exists (p : Point.t) (w' : World),
      getRandomPointInElement page element w = (Resolved p, w') /\
      BoundingBox.x box + 0.1 * BoundingBox.width box <= Point.x p
        <= BoundingBox.x box + 0.9 * BoundingBox.width box /\
      BoundingBox.y box + 0.1 * BoundingBox.height box <= Point.y p
        <= BoundingBox.y box + 0.9 * BoundingBox.height box.
Proof.
  intros page element w [bx by_ W H] Hbox HW HH Hfair.
  cbn [BoundingBox.x BoundingBox.y BoundingBox.width BoundingBox.height] in *.
  unfold getRandomPointInElement.
  erewrite bind_run by (unfold element_box; rewrite Hbox; reflexivity).
  cbn [BoundingBox.x BoundingBox.y BoundingBox.width BoundingBox.height].
  erewrite bind_run by apply randomBetween_run.
  erewrite bind_run by apply randomBetween_run.
  eexists. eexists. split; [reflexivity |].
  cbn [Point.x Point.y log tick random_source draws].
  pose proof (Hfair (draws w)) as Hu.
  pose proof (Hfair (S (draws w))) as Hv.
  split; nra.
Qed.

Lemma getRandomPointInElement_within_margins_witness :
  exists (p : Point.t) (w' : World),
    getRandomPointInElement (steady_page (BoundingBox.mk 0 0 100 50)) 0%nat
      (initial_world (fun _ => 0.5)) = (Resolved p, w') /\
    0 + 0.1 * 100 <= Point.x p <= 0 + 0.9 * 100 /\
    0 + 0.1 * 50 <= Point.y p <= 0 + 0.9 * 50.
Proof.
  apply (getRandomPointInElement_within_margins
           (steady_page (BoundingBox.mk 0 0 100 50)) 0%nat
           (initial_world (fun _ => 0.5)) (BoundingBox.mk 0 0 100 50)).
  - reflexivity.
  - simpl. lra.
  - simpl. lra.
  - intros n. simpl. lra.
Defined.

(** ** Interception layer *)

Lemma ProxyPage_fresh (page : Page) (config : HumanEmulationConfig) :
  page <> ProxyPage page config.
Proof.
  induction page as [a | target IH config'].
  - discriminate.
  - intros H. injection H as H1 H2. subst config'. exact (IH H1).
Qed.

(** C5: with [enabled = false], [createHumanizedPage] returns the page it was
    given, the very same object, and no [Proxy] is made around it. *)
Theorem createHumanizedPage_disabled :
  forall (page : Page) (config : HumanEmulationConfig),
    enabled config = false ->
    createHumanizedPage page config = page /\
    forall handler_config : HumanEmulationConfig,
      createHumanizedPage page config <> ProxyPage page handler_config.
Proof.
  intros page config H. unfold createHumanizedPage. rewrite H. cbn [negb].
  split; [reflexivity |]. intros c. apply ProxyPage_fresh.
Qed.

Lemma createHumanizedPage_disabled_witness :
  enabled (mkConfig false None None None) = false /\
  createHumanizedPage (steady_page (BoundingBox.mk 0 0 100 50))
    (mkConfig false None None None)
  = steady_page (BoundingBox.mk 0 0 100 50).
Proof.
  split; [reflexivity |].
  apply (createHumanizedPage_disabled
           (steady_page (BoundingBox.mk 0 0 100 50))
           (mkConfig false None None None)).
  reflexivity.
Defined.

(** With [enabled = true] the result is a proxy around the page, whose
    ['click'], ['type'] and ['fill'] are the emulated ones and whose other
    members are those of the page. *)
Example createHumanizedPage_enabled :
  forall page : Page,
    createHumanizedPage page (mkConfig true None None None)
    = ProxyPage page (mkConfig true None None None) /\
    handler_get page (mkConfig true None None None) "goto"
    = passed_through page "goto".
Proof. intros page. split; reflexivity. Qed.

(** C9: [humanType] never looks at its [options] argument: whatever the
    caller passes there, a per-keystroke [delay] included, it is the same
    computation, with the same calls on the page and the same delays; they
    depend on [page], [selector], [text] and [config] only.  The closure the
    proxy returns for ['type'] hands [options] to [humanType] and so does not
    depend on it either. *)
Theorem humanType_ignores_options :
  forall (page : Page) (selector : string) (text : Text) (config : HumanEmulationConfig)
         (options1 options2 : option TypeOptions),
    humanType page selector text config options1
    = humanType page selector text config options2 /\
    exists call : string -> Text -> option TypeOptions -> Async unit,
      handler_get page config "type" = emulated_type call /\
      call selector text options1 = call selector text options2.
Proof.
  intros page selector text config options1 options2.
  split; [reflexivity |].
  eexists. split; reflexivity.
Qed.

(** ** Path planner *)

Lemma sample_points_run (steps : Z) (start cp1 cp2 end_ : Point.t) (n : nat) :
  forall (i : Z) (path : list Point.t) (w : World),
    sample_points n i steps start cp1 cp2 end_ path w
    = (Resolved
         (path ++ map (pushed (random_source w) (draws w) steps
                         start cp1 cp2 end_ i) (seq 0 n)),
       ticks (2 * n) w).
Proof.
  induction n as [| n IH]; intros i path w.
  - cbn [sample_points seq map]. rewrite app_nil_r. unfold ret, ticks.
    destruct w as [src d pos evs]. cbn. do 2 f_equal. lia.
  - cbn [sample_points].
    erewrite bind_run by apply randomBetween_run.
    erewrite bind_run by apply randomBetween_run.
    rewrite IH. f_equal.
    + f_equal. rewrite <- app_assoc. f_equal.
      cbn [seq map app]. f_equal.
      * unfold pushed, jitter_round. cbn [tick random_source draws].
        rewrite Z.add_0_r.
        replace (draws w + 2 * 0)%nat with (draws w) by lia.
        replace (draws w + 1)%nat with (S (draws w)) by lia.
        reflexivity.
      * rewrite <- seq_shift, map_map. apply map_ext. intros k.
        unfold pushed. cbn [tick random_source draws].
        replace (i + 1 + Z.of_nat k)%Z with (i + Z.of_nat (S k))%Z by lia.
        replace (S (S (draws w)) + 2 * k)%nat with (draws w + 2 * S k)%nat
          by lia.
        reflexivity.
    + unfold ticks. cbn [tick random_source draws lastMousePosition events].
      f_equal. lia.
Qed.

Lemma tick_ticks (n : nat) (w : World) : tick (ticks n w) = ticks (S n) w.
Proof. unfold tick, ticks. cbn. f_equal. lia. Qed.

Lemma ticks_0 (w : World) : w = ticks 0 w.
Proof. destruct w as [src d pos evs]. unfold ticks. cbn. f_equal. lia. Qed.

Lemma ticks_ticks (n m : nat) (w : World) :
  ticks n (ticks m w) = ticks (m + n) w.
Proof. unfold ticks. cbn. f_equal. lia. Qed.

Lemma control_points_run (start end_ : Point.t) (w : World) :
  exists cp1 cp2 : Point.t,
    control_points start end_ w = (Resolved (cp1, cp2), ticks 4 w).
Proof.
  unfold control_points.
  do 4 (erewrite bind_run by apply randomBetween_run).
  unfold ret. eexists. eexists. f_equal.
  rewrite (ticks_0 w) at 1. now rewrite !tick_ticks.
Qed.

Lemma generateMousePath_run (start end_ : Point.t) (steps : Z) (w : World) :
  exists cp1 cp2 : Point.t,
    control_points start end_ w = (Resolved (cp1, cp2), ticks 4 w) /\
    generateMousePath start end_ steps w
    = (Resolved (map (pushed (random_source w) (draws w + 4) steps
                        start cp1 cp2 end_ 0)
                   (seq 0 (Z.to_nat (steps + 1)))),
       ticks (4 + 2 * Z.to_nat (steps + 1)) w).
Proof.
  destruct (control_points_run start end_ w) as (cp1 & cp2 & Hcp).
  exists cp1, cp2. split; [exact Hcp |].
  unfold generateMousePath. erewrite bind_run by apply Hcp.
  rewrite sample_points_run. cbn [fst snd app].
  rewrite ticks_ticks. reflexivity.
Qed.

(** Jitter in [[-1, 1)] and then rounding to the nearest integer moves a
    coordinate by at most 1.5; by at most 1 from an integer coordinate. *)
Lemma jitter_round_bound (v u : R) :
  0 <= u < 1 -> Rabs (jitter_round v u - v) <= 1.5.
Proof.
  intros Hu. unfold jitter_round, Math_round.
  pose proof (Zfloor_bound (v + (u * (1 - -1) + -1) + 0.5)) as Hf.
  apply Rabs_le. lra.
Qed.

Lemma jitter_round_integer (z : Z) (u : R) :
  0 <= u < 1 -> Rabs (jitter_round (IZR z) u - IZR z) <= 1.
Proof.
  intros Hu. unfold jitter_round, Math_round.
  set (f := Zfloor (IZR z + (u * (1 - -1) + -1) + 0.5)).
  pose proof (Zfloor_bound (IZR z + (u * (1 - -1) + -1) + 0.5)) as Hf.
  fold f in Hf.
  assert (Hlo : (z - 2 < f)%Z).
  { apply lt_IZR. rewrite minus_IZR. lra. }
  assert (Hhi : (f < z + 2)%Z).
  { apply lt_IZR. rewrite plus_IZR. lra. }
  assert (Hcases : f = (z - 1)%Z \/ f = z \/ f = (z + 1)%Z) by lia.
  apply Rabs_le.
  destruct Hcases as [-> | [-> | ->]];
    rewrite ?minus_IZR, ?plus_IZR; lra.
Qed.

Lemma last_map_seq {A : Type} (f : nat -> A) (n : nat) (d : A) :
  last (map f (seq 0 (S n))) d = f n.
Proof. rewrite seq_S, map_app. cbn [map]. apply last_last. Qed.

(** C1 (as amended): for every start point, end point and integer step count
    [N >= 1], and every sequence of draws in [[0, 1)], [generateMousePath]
    returns a path of exactly [N + 1] points; its first point differs from
    [start] and its last point from [end] by at most 1.5 units per axis (a
    jitter below 1 followed by rounding to the nearest integer), and by at
    most 1 unit on every axis where the requested coordinate is an
    integer. *)
Theorem generateMousePath_length_and_ends :
  forall (start end_ : Point.t) (steps : Z) (w : World),
    (1 <= steps)%Z ->
    fair (random_source w) ->
    exists (path : list Point.t) (w' : World),
      generateMousePath start end_ steps w = (Resolved path, w') /\
      Z.of_nat (List.length path) = (steps + 1)%Z /\
      within 1.5 (hd end_ path) start /\
      within 1.5 (last path start) end_ /\
      (forall z : Z, Point.x start = IZR z ->
         Rabs (Point.x (hd end_ path) - Point.x start) <= 1) /\
      (forall z : Z, Point.y start = IZR z ->
         Rabs (Point.y (hd end_ path) - Point.y start) <= 1) /\
      (forall z : Z, Point.x end_ = IZR z ->
         Rabs (Point.x (last path start) - Point.x end_) <= 1) /\
      (forall z : Z, Point.y end_ = IZR z ->
         Rabs (Point.y (last path start) - Point.y end_) <= 1).
Proof.
  intros start end_ steps w Hsteps Hfair.
  destruct (generateMousePath_run start end_ steps w)
    as (cp1 & cp2 & _ & Hrun).
  rewrite Hrun. eexists. eexists. split; [reflexivity |].
  split.
  { rewrite List.length_map, List.length_seq. lia. }
  replace (Z.to_nat (steps + 1)) with (S (Z.to_nat steps)) by lia.
  rewrite last_map_seq. cbn [seq map hd].
  unfold pushed, within. rewrite Z.add_0_l.
  rewrite sampled_first. rewrite Z2Nat.id by lia.
  rewrite sampled_last by exact Hsteps.
  cbn [Point.x Point.y].
  repeat split;
    try (apply jitter_round_bound; apply Hfair);
    intros z ->; apply jitter_round_integer; apply Hfair.
Qed.

Lemma generateMousePath_length_and_ends_witness :
  exists (path : list Point.t) (w' : World),
    generateMousePath (Point.mk 100 100) (Point.mk 50.75 20) 25
      (initial_world (fun _ => 0.875)) = (Resolved path, w') /\
    Z.of_nat (List.length path) = (25 + 1)%Z /\
    within 1.5 (hd (Point.mk 50.75 20) path) (Point.mk 100 100) /\
    within 1.5 (last path (Point.mk 100 100)) (Point.mk 50.75 20).
Proof.
  destruct (generateMousePath_length_and_ends
              (Point.mk 100 100) (Point.mk 50.75 20) 25
              (initial_world (fun _ => 0.875)))
    as (path & w' & Hrun & Hlen & Hfirst & Hlast & _).
  - lia.
  - intros n. simpl. lra.
  - exists path, w'. exact (conj Hrun (conj Hlen (conj Hfirst Hlast))).
Defined.

(** C1 as stated fails: a target at [x = 0.75] and the draw [0.875] (a jitter
    of [0.75]) end the path at [x = Math.round(1.5) = 2], which is 1.25 away
    from the requested end. *)
Lemma generateMousePath_end_off_by_more_than_1 :
  exists (path : list Point.t) (w' : World),
    generateMousePath (Point.mk 0 0) (Point.mk 0.75 0) 1
      (initial_world (fun _ => 0.875)) = (Resolved path, w') /\
    List.length path = 2%nat /\
    Point.x (last path (Point.mk 0 0)) = 2 /\
    ~ Rabs (Point.x (last path (Point.mk 0 0)) - Point.x (Point.mk 0.75 0))
      <= 1.
Proof.
  destruct (generateMousePath_run (Point.mk 0 0) (Point.mk 0.75 0) 1
              (initial_world (fun _ => 0.875))) as (cp1 & cp2 & _ & Hrun).
  rewrite Hrun. eexists. eexists. split; [reflexivity |].
  split; [reflexivity |].
  change (Z.to_nat (1 + 1)) with 2%nat.
  rewrite last_map_seq. unfold pushed.
  change (0 + Z.of_nat 1)%Z with 1%Z.
  rewrite sampled_last by lia.
  cbn [Point.x Point.y initial_world random_source].
  assert (H2 : jitter_round 0.75 0.875 = 2).
  { unfold jitter_round, Math_round. rewrite (Zfloor_eq 2); [reflexivity |].
    lra. }
  rewrite H2. split; [reflexivity |].
  rewrite Rabs_pos_eq by lra. lra.
Qed.

(** *** Control points *)

(** What the code does: each control point is the quarter (three-quarter)
    point of the segment plus [offset * (cos angle, sin angle)], with
    [offset] in [[0.2 d, 0.4 d]] and [angle] in [[-PI/4, PI/4]], an angle
    measured from the x axis of the page, whatever the direction of the
    move. *)
Lemma control_points_offsets (start end_ : Point.t) (w : World) :
  fair (random_source w) ->
  let dx := Point.x end_ - Point.x start in
  let dy := Point.y end_ - Point.y start in
  let d := sqrt (dx * dx + dy * dy) in
  exists offset1 angle1 offset2 angle2 : R,
    control_points start end_ w
    = (Resolved
         (Point.mk (Point.x start + dx * 0.25 + cos angle1 * offset1)
                   (Point.y start + dy * 0.25 + sin angle1 * offset1),
          Point.mk (Point.x start + dx * 0.75 + cos angle2 * offset2)
                   (Point.y start + dy * 0.75 + sin angle2 * offset2)),
       ticks 4 w) /\
    0.2 * d <= offset1 <= 0.4 * d /\
    0.2 * d <= offset2 <= 0.4 * d /\
    - (PI / 4) <= angle1 <= PI / 4 /\
    - (PI / 4) <= angle2 <= PI / 4.
Proof.
  intros Hfair dx dy d.
  unfold control_points.
  do 4 (erewrite bind_run by apply randomBetween_run).
  unfold ret. fold dx dy d.
  cbn [tick random_source draws].
  eexists. eexists. eexists. eexists.
  split; [f_equal; rewrite (ticks_0 w) at 1; now rewrite !tick_ticks |].
  pose proof (sqrt_pos (dx * dx + dy * dy)) as Hd. fold d in Hd.
  pose proof (Hfair (draws w)) as H1.
  pose proof (Hfair (S (draws w))) as H2.
  pose proof (Hfair (S (S (draws w)))) as H3.
  pose proof (Hfair (S (S (S (draws w))))) as H4.
  pose proof PI_RGT_0 as Hpi.
  repeat split; nra.
Qed.

(** C2 fails on the code for a move along the x axis.  From [(0, 0)] to
    [(10, 0)] with every draw equal to [0.5], the offsets are [0.3 * 10 = 3]
    and both angles are [0], so the control points are [(5.5, 0)] and
    [(10.5, 0)]: they lie on the start-end line itself, displaced from the
    quarter and three-quarter points [(2.5, 0)] and [(7.5, 0)] along the line
    and not across it. *)
Theorem control_points_on_the_line :
  control_points (Point.mk 0 0) (Point.mk 10 0) (initial_world (fun _ => 0.5))
  = (Resolved (Point.mk 5.5 0, Point.mk 10.5 0),
     ticks 4 (initial_world (fun _ => 0.5))) /\
  ~ within_45_of_perpendicular (10 - 0) (0 - 0) (5.5 - 2.5) (0 - 0) /\
  ~ within_45_of_perpendicular (10 - 0) (0 - 0) (10.5 - 7.5) (0 - 0).
Proof.
  split.
  - unfold control_points.
    do 4 (erewrite bind_run by apply randomBetween_run).
    unfold ret. cbn [tick random_source draws initial_world Point.x Point.y].
    replace ((10 - 0) * (10 - 0) + (0 - 0) * (0 - 0)) with (10 * 10) by ring.
    rewrite sqrt_square by lra.
    replace (0.5 * (PI / 4 - - PI / 4) + - PI / 4) with 0 by lra.
    rewrite cos_0, sin_0.
    do 3 f_equal; f_equal; lra.
  - unfold within_45_of_perpendicular.
    split; intros H;
      rewrite Rabs_pos_eq in H by lra; rewrite Rabs_pos_eq in H by lra; lra.
Qed.

(** The same for every move along the x axis: as long as the offset is not
    zero and the angle is strictly inside its range, the control point is
    displaced more along the line than across it. *)
Lemma cos_beats_sin (a : R) :
  - (PI / 4) < a < PI / 4 -> Rabs (sin a) < Rabs (cos a).
Proof.
  intros Ha.
  assert (H2 : 0 < cos (2 * a)) by (apply cos_gt_0; lra).
  rewrite cos_2a in H2.
  assert (Hc : 0 < cos a) by (apply cos_gt_0; lra).
  rewrite (Rabs_pos_eq (cos a)) by lra.
  apply Rabs_def1; nra.
Qed.

Lemma horizontal_move_not_across (dx offset angle : R) :
  dx <> 0 -> 0 < offset -> - (PI / 4) < angle < PI / 4 ->
  ~ within_45_of_perpendicular dx 0 (cos angle * offset) (sin angle * offset).
Proof.
  intros Hdx Hoff Ha. unfold within_45_of_perpendicular.
  replace (cos angle * offset * dx + sin angle * offset * 0)
    with (cos angle * (offset * dx)) by ring.
  replace (sin angle * offset * dx - cos angle * offset * 0)
    with (sin angle * (offset * dx)) by ring.
  rewrite !Rabs_mult.
  pose proof (cos_beats_sin angle Ha) as Hcs.
  assert (Hpos : 0 < Rabs offset * Rabs dx).
  { apply Rmult_lt_0_compat; apply Rabs_pos_lt; lra. }
  nra.
Qed.

(** For every move along the x axis and every draw strictly inside [(0, 1)],
    the first control point that [control_points] returns is displaced from
    the quarter point more along the line than across it. *)
Lemma control_points_horizontal_move (start end_ : Point.t) (w : World) :
  fair (random_source w) ->
  Point.y end_ = Point.y start ->
  Point.x end_ <> Point.x start ->
  0 < random_source w (S (S (draws w))) ->
  let dx := Point.x end_ - Point.x start in
  let dy := Point.y end_ - Point.y start in
  exists (cp1 cp2 : Point.t) (w' : World),
    control_points start end_ w = (Resolved (cp1, cp2), w') /\
    ~ within_45_of_perpendicular dx dy
        (Point.x cp1 - (Point.x start + dx * 0.25))
        (Point.y cp1 - (Point.y start + dy * 0.25)).
Proof.
  intros Hfair Hy Hx Hu dx dy.
  unfold control_points.
  do 4 (erewrite bind_run by apply randomBetween_run).
  unfold ret. fold dx dy. cbn [tick random_source draws].
  eexists. eexists. eexists. split; [reflexivity |].
  cbn [Point.x Point.y].
  assert (Hdy : dy = 0) by (unfold dy; lra).
  assert (Hdx : dx <> 0) by (unfold dx; lra).
  rewrite Hdy.
  match goal with
  | |- ~ within_45_of_perpendicular _ _ (?a + ?b + cos ?t * ?o - (?a + ?b))
                                      (?c + ?d + sin ?t * ?o - (?c + ?d)) =>
      replace (a + b + cos t * o - (a + b)) with (cos t * o) by ring;
      replace (c + d + sin t * o - (c + d)) with (sin t * o) by ring
  end.
  apply horizontal_move_not_across.
  - exact Hdx.
  - assert (Hd : 0 < sqrt (dx * dx + 0 * 0)) by (apply sqrt_lt_R0; nra).
    pose proof (Hfair (draws w)). nra.
  - pose proof (Hfair (S (S (draws w)))). pose proof PI_RGT_0. nra.
Qed.

(** ** Scroll *)

Lemma perform_world (page : Page) (e : Event) (w w' : World)
    (o : Outcome unit) :
  perform page e w = (o, w') -> w' = log e w.
Proof. unfold perform. intros H. now injection H. Qed.

Lemma scroll_chunks_resolved (page : Page) (scrollDelay : Range.t)
    (sign amount chunkSize : R) (n : nat) :
  forall (i : nat) (w w' : World),
    scroll_chunks page scrollDelay sign amount chunkSize n (Z.of_nat i) w
    = (Resolved tt, w') ->
    exists evs : list Event,
      events w' = events w ++ evs /\
      wheel_deltas evs
      = map (fun k => chunk amount chunkSize (i + k) * sign) (seq 0 n).
Proof.
  induction n as [| n IH]; intros i w w' Hrun.
  - cbn in Hrun. injection Hrun as <-. exists []. now rewrite app_nil_r.
  - cbn [scroll_chunks] in Hrun.
    apply bind_resolved in Hrun as ([] & w1 & Hwheel & Hrun).
    apply perform_world in Hwheel. subst w1.
    rewrite (bind_run _ _ _ _ _ (randomSleep_run _ _ _)) in Hrun.
    replace (Z.of_nat i + 1)%Z with (Z.of_nat (S i)) in Hrun by lia.
    apply IH in Hrun as (evs & Hevs & Hdeltas).
    eexists (_ :: _ :: evs). split.
    + rewrite Hevs. cbn [log tick events]. rewrite <- !app_assoc. reflexivity.
    + cbn [wheel_deltas seq map]. rewrite Hdeltas. f_equal.
      * unfold chunk. rewrite Nat.add_0_r, INR_IZR_INZ. reflexivity.
      * rewrite <- seq_shift, map_map. apply map_ext. intros k.
        now replace (S i + k)%nat with (i + S k)%nat by lia.
Qed.

Lemma Rsum_app (a b : list R) : Rsum (a ++ b) = Rsum a + Rsum b.
Proof.
  unfold Rsum. induction a as [| v a IH]; cbn [app fold_right].
  - lra.
  - rewrite IH. lra.
Qed.

Lemma Rsum_map_scale {A : Type} (f : A -> R) (s : R) (l : list A) :
  Rsum (map (fun k => f k * s) l) = Rsum (map f l) * s.
Proof.
  unfold Rsum. induction l as [| v l IH]; cbn [map fold_right].
  - lra.
  - rewrite IH. lra.
Qed.

Lemma chunk_full (amount chunkSize : R) (k : nat) :
  INR (S k) * chunkSize <= amount -> chunk amount chunkSize k = chunkSize.
Proof.
  intros H. unfold chunk. apply Rmin_left. rewrite S_INR in H. lra.
Qed.

Lemma chunk_rest (amount chunkSize : R) (k : nat) :
  amount <= INR (S k) * chunkSize ->
  chunk amount chunkSize k = amount - INR k * chunkSize.
Proof.
  intros H. unfold chunk. apply Rmin_right. rewrite S_INR in H. lra.
Qed.

(** While whole chunks fit, [i * chunkSize] is what was scrolled so far. *)
Lemma already_scrolled (amount chunkSize : R) (k : nat) :
  0 < chunkSize -> INR k * chunkSize <= amount ->
  Rsum (map (chunk amount chunkSize) (seq 0 k)) = INR k * chunkSize.
Proof.
  intros Hc. induction k as [| k IH]; intros Hk.
  - cbn. lra.
  - rewrite seq_S, map_app, Rsum_app. unfold Rsum at 2.
    cbn [map fold_right Nat.add].
    rewrite (chunk_full _ _ _ Hk). rewrite S_INR in *.
    rewrite IH by nra. lra.
Qed.

Lemma chunks_total (amount chunkSize : R) (n : nat) :
  0 < chunkSize -> 0 <= amount ->
  INR n - 1 < amount / chunkSize <= INR n ->
  Rsum (map (chunk amount chunkSize) (seq 0 n)) = amount.
Proof.
  intros Hc Ha Hn.
  assert (Hq : amount = amount / chunkSize * chunkSize) by (field; lra).
  set (q := amount / chunkSize) in *.
  destruct n as [| m].
  - cbn in *. nra.
  - rewrite S_INR in Hn.
    rewrite seq_S, map_app, Rsum_app. unfold Rsum at 2.
    cbn [map fold_right Nat.add].
    rewrite already_scrolled by nra.
    rewrite chunk_rest by (rewrite S_INR; nra).
    lra.
Qed.

Lemma nth_map_seq (f : nat -> R) (n i : nat) :
  (i < n)%nat -> nth i (map f (seq 0 n)) 0 = f i.
Proof.
  intros Hi.
  rewrite (nth_indep _ 0 (f 0%nat)) by (now rewrite List.length_map, List.length_seq).
  rewrite map_nth, seq_nth by exact Hi. reflexivity.
Qed.

Lemma firstn_map_seq (f : nat -> R) (n i : nat) :
  (i <= n)%nat -> firstn i (map f (seq 0 n)) = map f (seq 0 i).
Proof.
  intros Hi. rewrite firstn_map. f_equal.
  replace n with (i + (n - i))%nat by lia.
  rewrite seq_app, firstn_app, List.length_seq, Nat.sub_diag.
  cbn [firstn]. rewrite app_nil_r. apply firstn_all2.
  rewrite List.length_seq. lia.
Qed.

(** In exact arithmetic, for a scroll of [amount >= 0] that runs to its end,
    with [chunkSize] the size drawn from [[50, 150]]: the number of wheel events
    is [ceil(amount / chunkSize)]; the i-th delta is
    [min(chunkSize, amount - alreadyScrolled)], positive for ['down'] and
    negative for ['up'], where [alreadyScrolled] is the total of the chunks
    before it; and the chunks sum exactly to [amount] (the signed deltas to
    [amount] for ['down'], to [-amount] for ['up']). *)
Lemma humanScroll_chunks_exact :
  forall (page : Page) (direction : Direction.t) (amount : R)
         (config : HumanEmulationConfig) (w w' : World),
    0 <= amount ->
    fair (random_source w) ->
    humanScroll page direction amount config w = (Resolved tt, w') ->
    let chunkSize := random_source w (draws w) * (150 - 50) + 50 in
    let sign :=
      match direction with Direction.down => 1 | Direction.up => -1 end in
    exists evs : list Event,
      events w' = events w ++ evs /\
      let deltas := wheel_deltas evs in
      50 <= chunkSize <= 150 /\
      Z.of_nat (List.length deltas) = Math_ceil (amount / chunkSize) /\
      (forall i : nat, (i < List.length deltas)%nat ->
         let alreadyScrolled := Rsum (map Rabs (firstn i deltas)) in
         nth i deltas 0 = Rmin chunkSize (amount - alreadyScrolled) * sign) /\
      Rsum (map Rabs deltas) = amount /\
      Rsum deltas = amount * sign.
Proof.
  intros page direction amount config w w' Ha Hfair Hrun chunkSize sign.
  unfold humanScroll in Hrun.
  rewrite (bind_run _ _ _ _ _ (randomBetween_run _ _ _)) in Hrun.
  fold chunkSize sign in Hrun.
  pose proof (Hfair (draws w)) as Hu.
  assert (Hc : 50 <= chunkSize <= 150) by (unfold chunkSize; lra).
  pose proof (Zceil_bound (amount / chunkSize)) as Hceil.
  unfold Math_ceil in *.
  set (chunks := Zceil (amount / chunkSize)) in *.
  assert (Hq : 0 <= amount / chunkSize).
  { apply Rmult_le_pos; [lra |]. apply Rlt_le, Rinv_0_lt_compat. lra. }
  assert (Hchunks : (0 <= chunks)%Z).
  { apply le_IZR. lra. }
  set (n := Z.to_nat chunks) in *.
  assert (Hn : INR n = IZR chunks).
  { unfold n. rewrite INR_IZR_INZ, Z2Nat.id by exact Hchunks. reflexivity. }
  apply (scroll_chunks_resolved _ _ _ _ _ _ 0%nat) in Hrun
    as (evs & Hevs & Hdeltas).
  cbn [tick events] in Hevs. cbn [Nat.add] in Hdeltas.
  exists evs. split; [exact Hevs |].
  cbv zeta. rewrite Hdeltas.
  assert (Hsign : Rabs sign = 1).
  { unfold sign. destruct direction.
    - rewrite Rabs_left by lra. lra.
    - apply Rabs_pos_eq. lra. }
  assert (Hfull : forall k : nat, (S k < n)%nat ->
            chunk amount chunkSize k = chunkSize).
  { intros k Hk. apply chunk_full.
    assert (Hk' : INR (S k) <= INR n - 1).
    { replace (INR n - 1) with (INR (n - 1)).
      - apply le_INR. lia.
      - rewrite minus_INR by lia. reflexivity. }
    assert (Heq : amount = amount / chunkSize * chunkSize) by (field; lra).
    nra. }
  assert (Hpos : forall k : nat, (k < n)%nat ->
            0 <= chunk amount chunkSize k).
  { intros k Hk. destruct (Nat.eq_dec (S k) n) as [He | He].
    - rewrite chunk_rest.
      + assert (Heq : amount = amount / chunkSize * chunkSize)
          by (field; lra).
        assert (Hk' : INR k = INR n - 1) by (rewrite <- He, S_INR; lra).
        nra.
      + assert (Heq : amount = amount / chunkSize * chunkSize)
          by (field; lra).
        rewrite He. nra.
    - rewrite Hfull by lia. lra. }
  assert (Habs : forall i : nat, (i <= n)%nat ->
            map Rabs (map (fun k => chunk amount chunkSize k * sign) (seq 0 i))
            = map (chunk amount chunkSize) (seq 0 i)).
  { intros i Hi. rewrite map_map. apply map_ext_in. intros k Hk.
    apply in_seq in Hk. rewrite Rabs_mult, Hsign, Rabs_pos_eq.
    - ring.
    - apply Hpos. lia. }
  split; [exact Hc |]. split.
  { rewrite List.length_map, List.length_seq. unfold n. lia. }
  split.
  { intros i Hi. rewrite List.length_map, List.length_seq in Hi.
    rewrite nth_map_seq by exact Hi.
    rewrite firstn_map_seq by lia. rewrite Habs by lia.
    rewrite already_scrolled.
    - reflexivity.
    - lra.
    - assert (Hi' : INR i <= INR n - 1).
      { replace (INR n - 1) with (INR (n - 1)).
        - apply le_INR. lia.
        - rewrite minus_INR by lia. reflexivity. }
      assert (Heq : amount = amount / chunkSize * chunkSize) by (field; lra).
      nra. }
  split.
  { rewrite Habs by lia. apply chunks_total; lra. }
  rewrite Rsum_map_scale. f_equal. apply chunks_total; lra.
Qed.

Lemma perform_accepting (page : Page) (e : Event) (w : World) :
  accepting page -> perform page e w = (Resolved tt, log e w).
Proof. intros H. unfold perform. rewrite H. reflexivity. Qed.

Lemma scroll_chunks_completes (page : Page) (scrollDelay : Range.t)
    (sign amount chunkSize : R) (n : nat) :
  accepting page ->
  forall (i : Z) (w : World),
    exists w' : World,
      scroll_chunks page scrollDelay sign amount chunkSize n i w
      = (Resolved tt, w').
Proof.
  intros Hpage. induction n as [| n IH]; intros i w.
  - exists w. reflexivity.
  - cbn [scroll_chunks].
    rewrite (bind_run _ _ _ _ _ (perform_accepting _ _ _ Hpage)).
    rewrite (bind_run _ _ _ _ _ (randomSleep_run _ _ _)).
    apply IH.
Qed.

Lemma humanScroll_completes (page : Page) (direction : Direction.t)
    (amount : R) (config : HumanEmulationConfig) (w : World) :
  accepting page ->
  exists w' : World,
    humanScroll page direction amount config w = (Resolved tt, w').
Proof.
  intros Hpage. unfold humanScroll.
  rewrite (bind_run _ _ _ _ _ (randomBetween_run _ _ _)).
  now apply scroll_chunks_completes.
Qed.

Lemma steady_page_accepting (box : BoundingBox.t) :
  accepting (steady_page box).
Proof. intros history e. reflexivity. Qed.

Example humanScroll_chunks_exact_at_300 :
  exists (w' : World) (evs : list Event),
    humanScroll (steady_page (BoundingBox.mk 0 0 100 50)) Direction.down 300
      (mkConfig true None None None) (initial_world (fun _ => 0.7))
    = (Resolved tt, w') /\
    events w' = [] ++ evs /\
    Z.of_nat (List.length (wheel_deltas evs))
    = Math_ceil (300 / (0.7 * (150 - 50) + 50)) /\
    Rsum (wheel_deltas evs) = 300 * 1.
Proof.
  destruct (humanScroll_completes (steady_page (BoundingBox.mk 0 0 100 50))
              Direction.down 300 (mkConfig true None None None)
              (initial_world (fun _ => 0.7))
              (steady_page_accepting _)) as [w' Hrun].
  destruct (humanScroll_chunks_exact (steady_page (BoundingBox.mk 0 0 100 50))
              Direction.down 300 (mkConfig true None None None)
              (initial_world (fun _ => 0.7)) w')
    as (evs & Hevs & _ & Hcount & _ & _ & Hsum).
  - lra.
  - intros n. simpl. lra.
  - exact Hrun.
  - exists w', evs. exact (conj Hrun (conj Hevs (conj Hcount Hsum))).
Defined.

(** The scenario of the specification: [scroll(down, 300)] with a sampled
    chunk size of 120 issues the deltas 120, 120, 60, in that order. *)
Example humanScroll_300_by_120 :
  exists (w' : World) (d0 d1 d2 : R),
    humanScroll (steady_page (BoundingBox.mk 0 0 100 50)) Direction.down 300
      (mkConfig true None None None) (initial_world (fun _ => 0.7))
    = (Resolved tt, w') /\
    wheel_deltas (events w') = [d0; d1; d2] /\
    d0 = 120 /\ d1 = 120 /\ d2 = 60.
Proof.
  destruct (humanScroll_completes (steady_page (BoundingBox.mk 0 0 100 50))
              Direction.down 300 (mkConfig true None None None)
              (initial_world (fun _ => 0.7))
              (steady_page_accepting _)) as [w' Hrun].
  exists w'. pose proof Hrun as Hrun'. unfold humanScroll in Hrun.
  rewrite (bind_run _ _ _ _ _ (randomBetween_run _ _ _)) in Hrun.
  cbn [initial_world random_source draws or_default scrollDelay] in Hrun.
  replace (Math_ceil (300 / (0.7 * (150 - 50) + 50))) with 3%Z in Hrun
    by (symmetry; apply Zceil_eq; lra).
  apply (scroll_chunks_resolved _ _ _ _ _ _ 0%nat) in Hrun
    as (evs & Hevs & Hdeltas).
  cbn [tick events initial_world app] in Hevs. rewrite Hevs, Hdeltas.
  cbn [seq map Nat.add].
  eexists. eexists. eexists. split; [exact Hrun' |].
  split; [reflexivity |].
  unfold chunk. cbn [INR].
  repeat split.
  - rewrite Rmin_left by lra. lra.
  - rewrite Rmin_left by lra. lra.
  - rewrite Rmin_right by lra. lra.
Qed.

(** *** The chunks as the code computes them *)

Section DoubleScroll.
Import PrimFloat.

Lemma double_scroll_chunks_trace (page : Double.Page)
    (scrollDelay : Double.Range)
    (scrollDirection amount chunkSize : float) (n : nat) :
  forall (i : Z) (w w' : Double.World) (o : Outcome unit),
    Double.scroll_chunks page scrollDelay scrollDirection amount chunkSize
      n i w = (o, w') ->
    exists (evs : list Double.Event) (k : nat),
      Double.events w' = Double.events w ++ evs /\
      (k <= n)%nat /\
      Double.wheel_deltas evs
      = map (fun j : nat =>
               (Double.Math_min chunkSize
                  (amount - Double.of_int (i + Z.of_nat j) * chunkSize)
                * scrollDirection)%float)
            (seq 0 k) /\
      (o = Resolved tt -> k = n) /\
      ((forall history e, page history e = answers tt) -> o = Resolved tt).
Proof.
  induction n as [| n IH]; intros i w w' o Hrun.
  - injection Hrun as <- <-. exists [], 0%nat. cbn.
    rewrite app_nil_r. now repeat split.
  - cbn [Double.scroll_chunks] in Hrun.
    set (e := Double.mouse_wheel 0
                (Double.Math_min chunkSize
                   (amount - Double.of_int i * chunkSize)
                 * scrollDirection)) in *.
    destruct (page (Double.events w) e) as [[] | reason] eqn:Hpage.
    + apply IH in Hrun as (evs & k & Hevs & Hk & Hdeltas & Hall & Hsteady).
      eexists (e :: _ :: evs), (S k). split; [| split; [| split; [| split]]].
      * rewrite Hevs. cbn. rewrite <- !app_assoc. reflexivity.
      * lia.
      * cbn [Double.wheel_deltas e]. rewrite Hdeltas.
        cbn [seq map]. rewrite Z.add_0_r. f_equal.
        rewrite <- seq_shift, map_map. apply map_ext. intros j.
        now replace (i + 1 + Z.of_nat j)%Z with (i + Z.of_nat (S j))%Z
          by lia.
      * intros Ho. now rewrite (Hall Ho).
      * exact Hsteady.
    + injection Hrun as <- <-. exists [e], 1%nat.
      split; [reflexivity |]. split; [lia |].
      split; [cbn; now rewrite Z.add_0_r |].
      split; [discriminate |].
      intros Hsteady. rewrite Hsteady in Hpage. discriminate Hpage.
Qed.

Lemma finite_exponent (x : float) (s : bool) (m : positive) (e : Z) :
  FloatOps.Prim2SF x = SpecFloat.S754_finite s m e -> (-1074 <= e)%Z.
Proof.
  intros Hx. pose proof (FloatAxioms.Prim2SF_valid x) as Hv.
  rewrite Hx in Hv. cbn [SpecFloat.valid_binary] in Hv.
  unfold SpecFloat.bounded, SpecFloat.canonical_mantissa in Hv.
  apply andb_prop in Hv as [Hv _]. apply Z.eqb_eq in Hv.
  unfold SpecFloat.fexp, SpecFloat.emin, FloatOps.prec, FloatOps.emax in Hv.
  lia.
Qed.

(** [Double.Math_ceil] is the ceiling: the least integer that is not below
    [x]. *)
Lemma Math_ceil_is_ceiling (x : float) (z : Z) :
  Double.Math_ceil x = Double.integer z ->
  (Double.units x <= z * 2 ^ 1074 < Double.units x + 2 ^ 1074)%Z.
Proof.
  unfold Double.Math_ceil, Double.units.
  destruct (FloatOps.Prim2SF x) as [s0 | s0 | | s m e] eqn:Hx.
  - intros [= <-]. lia.
  - destruct s0; discriminate.
  - discriminate.
  - pose proof (finite_exponent x s m e Hx) as He.
    destruct (0 <=? e)%Z eqn:Hpos.
    + apply Z.leb_le in Hpos. intros Hz.
      assert (Hz' : z = ((if s then -1 else 1) * (Z.pos m * 2 ^ e))%Z)
        by congruence.
      clear Hz. subst z. rewrite Z.pow_add_r by lia.
      assert (0 < 2 ^ 1074)%Z by (apply Z.pow_pos_nonneg; lia).
      set (a := (Z.pos m * 2 ^ e)%Z).
      replace (Z.pos m * (2 ^ e * 2 ^ 1074))%Z with (a * 2 ^ 1074)%Z
        by (unfold a; ring).
      destruct s; lia.
    + apply Z.leb_gt in Hpos.
      assert (Hd : (0 < 2 ^ (- e))%Z) by (apply Z.pow_pos_nonneg; lia).
      assert (Hu : (0 < 2 ^ (e + 1074))%Z) by (apply Z.pow_pos_nonneg; lia).
      assert (Hp : (2 ^ 1074 = 2 ^ (- e) * 2 ^ (e + 1074))%Z).
      { rewrite <- Z.pow_add_r by lia. f_equal. lia. }
      rewrite Hp.
      set (d := (2 ^ (- e))%Z) in *. set (u := (2 ^ (e + 1074))%Z) in *.
      destruct s; intros Hz.
      * assert (Hz' : z = (- (Z.pos m / d))%Z) by congruence.
        clear Hz. subst z.
        pose proof (Z.div_mod (Z.pos m) d ltac:(lia)) as Hdm.
        pose proof (Z.mod_pos_bound (Z.pos m) d Hd) as Hb.
        set (q := (Z.pos m / d)%Z) in *. set (r := (Z.pos m mod d)%Z) in *.
        nia.
      * assert (Hz' : z = (- (- Z.pos m / d))%Z) by congruence.
        clear Hz. subst z.
        pose proof (Z.div_mod (- Z.pos m) d ltac:(lia)) as Hdm.
        pose proof (Z.mod_pos_bound (- Z.pos m) d Hd) as Hb.
        set (q := (- Z.pos m / d)%Z) in *.
        set (r := (- Z.pos m mod d)%Z) in *.
        nia.
Qed.

(** C3: in the code's double-precision arithmetic, with [chunkSize] the
    size drawn from [[50, 150]] and a quotient [amount / chunkSize] that is
    finite: [chunks] is the ceiling of that quotient, and when it is at most
    2^53 the scroll returns; the i-th wheel event, counted from 0, has the
    delta [Math.min(chunkSize, amount - i * chunkSize)] times 1 for ['down']
    and -1 for ['up']; a scroll that runs to its end has exactly [chunks]
    wheel events (none when [chunks <= 0]), one that a rejected call cuts
    short has the first of them only, and on a page that answers every call
    it runs to its end.  Every operation is the rounded one of the code; nothing is said of
    the sum of the deltas, which rounding lets miss [amount]. *)
Theorem humanScroll_chunks_in_doubles :
  forall (page : Double.Page) (direction : Direction.t) (amount : float)
         (config : Double.HumanEmulationConfig) (w : Double.World)
         (chunks : Z),
    let chunkSize :=
      (Double.random_source w (Double.draws w) * (150 - 50) + 50)%float in
    let sign :=
      match direction with
      | Direction.down => 1%float
      | Direction.up => (-1)%float
      end in
    Double.Math_ceil (amount / chunkSize) = Double.integer chunks ->
    (chunks <= 2 ^ 53)%Z ->
    (Double.units (amount / chunkSize) <= chunks * 2 ^ 1074
     < Double.units (amount / chunkSize) + 2 ^ 1074)%Z /\
    exists (o : Outcome unit) (w' : Double.World) (evs : list Double.Event)
           (k : nat),
      Double.humanScroll page direction amount config w = Some (o, w') /\
      Double.events w' = Double.events w ++ evs /\
      (k <= Z.to_nat chunks)%nat /\
      Double.wheel_deltas evs
      = map (fun i : nat =>
               (Double.Math_min chunkSize
                  (amount - Double.of_int (Z.of_nat i) * chunkSize)
                * sign)%float)
            (seq 0 k) /\
      (o = Resolved tt -> k = Z.to_nat chunks) /\
      ((forall history e, page history e = answers tt) -> o = Resolved tt).
Proof.
  intros page direction amount config w chunks chunkSize sign Hceil Hbound.
  split; [now apply Math_ceil_is_ceiling |].
  unfold Double.humanScroll, Double.randomBetween, Double.Math_random.
  fold chunkSize. rewrite Hceil. cbn [Double.turns].
  apply Z.leb_le in Hbound. rewrite Hbound. fold sign.
  destruct (Double.scroll_chunks page
              (or_default (Double.scrollDelay config)
                 Double.DEFAULTS_scrollDelay)
              sign amount chunkSize (Z.to_nat chunks) 0 (Double.tick w))
    as [o w'] eqn:Hrun.
  apply double_scroll_chunks_trace in Hrun
    as (evs & k & Hevs & Hk & Hdeltas & Hall & Hsteady).
  exists o, w', evs, k. split; [reflexivity |].
  split; [exact Hevs |]. split; [exact Hk |]. split; [exact Hdeltas |].
  split; [exact Hall | exact Hsteady].
Qed.

Lemma humanScroll_chunks_in_doubles_witness :
  exists (w' : Double.World) (evs : list Double.Event),
    Double.humanScroll Double.steady_page Direction.up 250
      (Double.mkConfig true None None None)
      (Double.initial_world (fun _ => 0.5%float))
    = Some (Resolved tt, w') /\
    Double.events w' = [] ++ evs /\
    Double.wheel_deltas evs = [(-100)%float; (-100)%float; (-50)%float].
Proof.
  destruct (humanScroll_chunks_in_doubles Double.steady_page Direction.up 250
              (Double.mkConfig true None None None)
              (Double.initial_world (fun _ => 0.5%float)) 3)
    as (_ & o & w' & evs & k & Hrun & Hevs & _ & Hdeltas & Hall & Hsteady).
  - reflexivity.
  - lia.
  - assert (Ho : o = Resolved tt) by (apply Hsteady; reflexivity).
    subst o. rewrite (Hall eq_refl) in Hdeltas.
    exists w', evs. split; [exact Hrun |]. split; [exact Hevs |].
    rewrite Hdeltas. reflexivity.
Defined.

(** With [Math.random()] giving 2024328729096004 / 2^52 the chunk size is
    94.94912728905129 and a scroll down by 1000 turns the wheel eleven
    times; the last delta is 50.508727109487154.  The deltas add up to
    1000 + 2^-44 exactly, and to 999.9999999999999 when added as doubles in
    order: not to 1000.  The last delta is not
    [Math.min(chunkSize, amount - alreadyScrolled)] either, which is
    50.50872710948727 for the [alreadyScrolled] added up from the ten
    deltas before it. *)
Theorem humanScroll_sum_misses_amount :
  let u := (2024328729096004 / 4503599627370496)%float in
  let chunkSize := (u * (150 - 50) + 50)%float in
  exists (w' : Double.World) (deltas : list float),
    Double.humanScroll Double.steady_page Direction.down 1000
      (Double.mkConfig true None None None) (Double.initial_world (fun _ => u))
    = Some (Resolved tt, w') /\
    Double.wheel_deltas (Double.events w') = deltas /\
    List.length deltas = 11%nat /\
    Zsum (map Double.units deltas) = (Double.units 1000 + 2 ^ 1030)%Z /\
    (fold_left add deltas 0 <? 1000)%float = true /\
    (let alreadyScrolled := fold_left add (firstn 10 deltas) 0%float in
     (Double.Math_min chunkSize (1000 - alreadyScrolled)
      =? nth 10 deltas 0)%float = false).
Proof.
  eexists. eexists. split; [vm_compute; reflexivity |].
  split; [reflexivity |]. vm_compute. repeat split.
Qed.

End DoubleScroll.

(** ** Frame reasoning *)

Section Frame.

Variable I : World -> World -> Prop.
Hypothesis I_refl : forall w, I w w.
Hypothesis I_trans : forall w1 w2 w3, I w1 w2 -> I w2 w3 -> I w1 w3.

Lemma steps_in_ret {A : Type} (a : A) : steps_in I (ret a).
Proof. intros w w' o H. injection H as _ <-. apply I_refl. Qed.

Lemma steps_in_throw {A : Type} (e : JsError) : steps_in I (@throw A e).
Proof. intros w w' o H. injection H as _ <-. apply I_refl. Qed.

Lemma steps_in_bind {A B : Type} (m : Async A) (k : A -> Async B) :
  steps_in I m -> (forall a, steps_in I (k a)) -> steps_in I (bind m k).
Proof.
  intros Hm Hk w w' o H. unfold bind in H.
  destruct (m w) as [[a | e] w1] eqn:Em.
  - eapply I_trans; [eapply Hm, Em | eapply Hk, H].
  - injection H as _ <-. eapply Hm, Em.
Qed.

End Frame.

Lemma only_actor_failures_ret {A : Type} (a : A) :
  only_actor_failures (ret a).
Proof. intros w w' e H. discriminate H. Qed.

Lemma only_actor_failures_bind {A B : Type} (m : Async A) (k : A -> Async B) :
  only_actor_failures m -> (forall a, only_actor_failures (k a)) ->
  only_actor_failures (bind m k).
Proof.
  intros Hm Hk w w' e H. apply bind_rejected in H as [H | (a & w1 & _ & H)].
  - eapply Hm, H.
  - eapply Hk, H.
Qed.

Lemma only_actor_failures_perform (page : Page) (ev : Event) :
  only_actor_failures (perform page ev).
Proof.
  intros w w' e H. unfold perform in H.
  destruct (void_call (actor_of page) (events w) ev) as [[] | reason];
    cbn [await] in H.
  - discriminate H.
  - injection H as <- _. now exists reason.
Qed.

Lemma only_actor_failures_randomBetween (min max : R) :
  only_actor_failures (randomBetween min max).
Proof. intros w w' e H. rewrite randomBetween_run in H. discriminate H. Qed.

Lemma only_actor_failures_sleep (ms : R) : only_actor_failures (sleep ms).
Proof. intros w w' e H. discriminate H. Qed.

Lemma only_actor_failures_randomSleep (min max : R) :
  only_actor_failures (randomSleep min max).
Proof. intros w w' e H. rewrite randomSleep_run in H. discriminate H. Qed.

(** ** Motion driver *)

Lemma same_position_refl (w : World) : same_position w w.
Proof. reflexivity. Qed.

Lemma same_position_trans (w1 w2 w3 : World) :
  same_position w1 w2 -> same_position w2 w3 -> same_position w1 w3.
Proof. unfold same_position. congruence. Qed.

Lemma randomBetween_same_position (min max : R) :
  steps_in same_position (randomBetween min max).
Proof. intros w w' o H. rewrite randomBetween_run in H. now injection H as _ <-. Qed.

Lemma sleep_same_position (ms : R) : steps_in same_position (sleep ms).
Proof. intros w w' o H. now injection H as _ <-. Qed.

Lemma perform_same_position (page : Page) (e : Event) :
  steps_in same_position (perform page e).
Proof. intros w w' o H. apply perform_world in H. now subst w'. Qed.

Lemma move_points_same_position (page : Page) (speed : Range.t)
    (rest : list Point.t) :
  forall prev : option Point.t,
    steps_in same_position (move_points page speed prev rest).
Proof.
  induction rest as [| point rest IH]; intros prev; cbn [move_points].
  - apply steps_in_ret, same_position_refl.
  - apply steps_in_bind; [exact same_position_trans | |].
    + destruct prev as [prev |].
      * apply steps_in_bind; [exact same_position_trans | |].
        -- apply randomBetween_same_position.
        -- intros s. apply sleep_same_position.
      * apply steps_in_ret, same_position_refl.
    + intros _. apply steps_in_bind; [exact same_position_trans | |].
      * apply perform_same_position.
      * intros _. apply IH.
Qed.

Lemma move_points_only_actor_failures (page : Page) (speed : Range.t)
    (rest : list Point.t) :
  forall prev : option Point.t,
    only_actor_failures (move_points page speed prev rest).
Proof.
  induction rest as [| point rest IH]; intros prev; cbn [move_points].
  - apply only_actor_failures_ret.
  - apply only_actor_failures_bind.
    + destruct prev as [prev |].
      * apply only_actor_failures_bind.
        -- apply only_actor_failures_randomBetween.
        -- intros s. apply only_actor_failures_sleep.
      * apply only_actor_failures_ret.
    + intros _. apply only_actor_failures_bind.
      * apply only_actor_failures_perform.
      * intros _. apply IH.
Qed.

Lemma move_points_completes (page : Page) (speed : Range.t)
    (rest : list Point.t) :
  accepting page ->
  forall (prev : option Point.t) (w : World),
    exists w' : World, move_points page speed prev rest w = (Resolved tt, w').
Proof.
  intros Hpage. induction rest as [| point rest IH]; intros prev w.
  - exists w. reflexivity.
  - cbn [move_points]. destruct prev as [prev |].
    + erewrite bind_run.
      2:{ erewrite bind_run by apply randomBetween_run. reflexivity. }
      rewrite (bind_run _ _ _ _ _ (perform_accepting _ _ _ Hpage)).
      apply IH.
    + erewrite bind_run by reflexivity.
      rewrite (bind_run _ _ _ _ _ (perform_accepting _ _ _ Hpage)).
      apply IH.
Qed.

Lemma last_indep {A : Type} (l : list A) (d d' : A) :
  l <> [] -> last l d = last l d'.
Proof.
  induction l as [| a l IH]; intros H; [congruence |].
  destruct l as [| b l]; [reflexivity |].
  cbn [last] in *. apply IH. discriminate.
Qed.

Lemma moveMouseAlongPath_resolved (page : Page) (path : list Point.t)
    (config : HumanEmulationConfig) (w w' : World) :
  moveMouseAlongPath page path config w = (Resolved tt, w') ->
  path <> [] ->
  forall d : Point.t, lastMousePosition w' = last path d.
Proof.
  intros Hrun Hne d. unfold moveMouseAlongPath in Hrun.
  apply bind_resolved in Hrun as ([] & w1 & _ & Hset).
  destruct path as [| first rest]; [congruence |].
  unfold set_lastMousePosition in Hset. injection Hset as <-.
  change (last (first :: rest) first = last (first :: rest) d).
  now apply last_indep.
Qed.

(** C7: after a completed run of [moveMouseAlongPath] over a non-empty path,
    [lastMousePosition] is the last point of that path; over an empty path
    the run completes and leaves the world, [lastMousePosition] included, as
    it was.  (A run that a rejected [mouse.move] cuts short does not touch
    [lastMousePosition] either.) *)
Theorem moveMouseAlongPath_lastMousePosition :
  forall (page : Page) (path : list Point.t) (config : HumanEmulationConfig)
         (w : World),
    (forall w' : World,
       moveMouseAlongPath page path config w = (Resolved tt, w') ->
       path <> [] ->
       forall d : Point.t, lastMousePosition w' = last path d) /\
    (path = [] -> moveMouseAlongPath page path config w = (Resolved tt, w)) /\
    (forall (e : JsError) (w' : World),
       moveMouseAlongPath page path config w = (Rejected e, w') ->
       lastMousePosition w' = lastMousePosition w).
Proof.
  intros page path config w. split; [| split].
  - intros w' Hrun Hne d. now apply (moveMouseAlongPath_resolved page path config w).
  - intros ->. reflexivity.
  - intros e w' Hrun. unfold moveMouseAlongPath in Hrun.
    apply bind_rejected in Hrun as [Hrun | ([] & w1 & _ & Hset)].
    + eapply move_points_same_position, Hrun.
    + destruct path; discriminate Hset.
Qed.

Lemma moveMouseAlongPath_completes (page : Page) (path : list Point.t)
    (config : HumanEmulationConfig) (w : World) :
  accepting page ->
  exists w' : World,
    moveMouseAlongPath page path config w = (Resolved tt, w').
Proof.
  intros Hpage. unfold moveMouseAlongPath.
  destruct (move_points_completes page
              (or_default (mouseSpeed config) DEFAULTS.mouseSpeed) path
              Hpage None w) as [w1 H1].
  rewrite (bind_run _ _ _ _ _ H1).
  destruct path; eexists; reflexivity.
Qed.

Lemma moveMouseAlongPath_lastMousePosition_witness :
  exists w' : World,
    moveMouseAlongPath (steady_page (BoundingBox.mk 0 0 100 50))
      [Point.mk 100 101; Point.mk 98 97; Point.mk 95 90]
      (mkConfig true None None None) (initial_world (fun _ => 0.5))
    = (Resolved tt, w') /\
    lastMousePosition w' = Point.mk 95 90.
Proof.
  destruct (moveMouseAlongPath_completes
              (steady_page (BoundingBox.mk 0 0 100 50))
              [Point.mk 100 101; Point.mk 98 97; Point.mk 95 90]
              (mkConfig true None None None) (initial_world (fun _ => 0.5))
              (steady_page_accepting _)) as [w' Hrun].
  exists w'. split; [exact Hrun |].
  refine (proj1 (moveMouseAlongPath_lastMousePosition
                   (steady_page (BoundingBox.mk 0 0 100 50))
                   [Point.mk 100 101; Point.mk 98 97; Point.mk 95 90]
                   (mkConfig true None None None)
                   (initial_world (fun _ => 0.5)))
            w' Hrun _ (Point.mk 100 100)).
  discriminate.
Defined.

(** A path of two points, 5 apart, at the speed 200 drawn from the default
    range: one wait of [5 / 200 * 100 = 2.5] ms between the two moves. *)
Example moveMouseAlongPath_two_points :
  exists w' : World,
    moveMouseAlongPath (steady_page (BoundingBox.mk 0 0 100 50))
      [Point.mk 0 0; Point.mk 3 4] (mkConfig true None None None)
      (initial_world (fun _ => 0.5))
    = (Resolved tt, w') /\
    events w' = [mouse_move 0 0; setTimeout 2.5; mouse_move 3 4] /\
    lastMousePosition w' = Point.mk 3 4.
Proof.
  eexists. split; [reflexivity |].
  cbn [events lastMousePosition snd log tick initial_world app
       random_source draws Point.x Point.y DEFAULTS.mouseSpeed
       or_default mouseSpeed Range.min Range.max].
  split; [| reflexivity].
  replace ((3 - 0) ^ 2 + (4 - 0) ^ 2) with (5 * 5) by ring.
  rewrite sqrt_square by lra.
  rewrite Rmax_right by lra.
  do 2 f_equal. apply f_equal. lra.
Qed.

Lemma page_query_same_position (page : Page) (selector : string) :
  steps_in same_position (page_query page selector).
Proof. intros w w' o H. now injection H as _ <-. Qed.

Lemma element_box_same_position (page : Page) (element : ElementHandle) :
  steps_in same_position (element_box page element).
Proof. intros w w' o H. now injection H as _ <-. Qed.

Lemma getRandomPointInElement_same_position (page : Page)
    (element : ElementHandle) :
  steps_in same_position (getRandomPointInElement page element).
Proof.
  unfold getRandomPointInElement.
  apply steps_in_bind;
    [exact same_position_trans | apply element_box_same_position |].
  intros [box |].
  - apply steps_in_bind;
      [exact same_position_trans | apply randomBetween_same_position |].
    intros rx. apply steps_in_bind;
      [exact same_position_trans | apply randomBetween_same_position |].
    intros ry. apply steps_in_ret, same_position_refl.
  - apply steps_in_throw, same_position_refl.
Qed.

Lemma after_the_move_same_position (page : Page) (e : Event) :
  steps_in same_position
    (randomSleep 50 150 ;;; perform page e ;;; randomSleep 50 100).
Proof.
  unfold randomSleep.
  repeat first
    [ apply randomBetween_same_position
    | apply sleep_same_position
    | apply perform_same_position
    | apply steps_in_bind; [exact same_position_trans | | intros ?] ].
Qed.

(** The scenario of two clicks in a row: a click that completes plans its
    path from [lastMousePosition] and leaves [lastMousePosition] at the last
    point of that path, which is where the next click starts from. *)
Lemma humanClick_moves_pointer (page : Page) (selector : string)
    (config : HumanEmulationConfig) (options : option ClickOptions)
    (w w' : World) :
  humanClick page selector config options w = (Resolved tt, w') ->
  exists (targetPoint : Point.t) (path : list Point.t) (w1 w2 : World),
    generateMousePath (lastMousePosition w) targetPoint DEFAULTS.moveSteps w1
    = (Resolved path, w2) /\
    path <> [] /\
    lastMousePosition w' = last path (lastMousePosition w).
Proof.
  intros Hrun. unfold humanClick in Hrun.
  apply bind_resolved in Hrun as (element & wa & Hquery & Hrun).
  destruct element as [element |]; [| discriminate Hrun].
  apply bind_resolved in Hrun as (targetPoint & wb & Htarget & Hrun).
  apply bind_resolved in Hrun as (start & wc & Hstart & Hrun).
  injection Hstart as <- <-.
  apply bind_resolved in Hrun as (path & wd & Hpath & Hrun).
  apply bind_resolved in Hrun as ([] & we & Hmove & Hrun).
  assert (Hpos : lastMousePosition wb = lastMousePosition w).
  { apply page_query_same_position in Hquery.
    apply getRandomPointInElement_same_position in Htarget.
    unfold same_position in *. congruence. }
  rewrite Hpos in Hpath.
  assert (Hne : path <> []).
  { destruct (generateMousePath_run (lastMousePosition w) targetPoint
                DEFAULTS.moveSteps wb) as (cp1 & cp2 & _ & Hgen).
    rewrite Hgen in Hpath. injection Hpath as <- _. discriminate. }
  exists targetPoint, path, wb, wd. split; [exact Hpath |].
  split; [exact Hne |].
  apply after_the_move_same_position in Hrun. unfold same_position in Hrun.
  rewrite Hrun.
  now apply (moveMouseAlongPath_resolved page path config wd).
Qed.

(** ** Target resolution errors *)

Lemma bind_assoc {A B C : Type} (m : Async A) (k1 : A -> Async B)
    (k2 : B -> Async C) (w : World) :
  bind (bind m k1) k2 w = bind m (fun a => bind (k1 a) k2) w.
Proof. unfold bind. destruct (m w) as [[a | e] w1]; reflexivity. Qed.

Lemma only_actor_failures_get_lastMousePosition :
  only_actor_failures get_lastMousePosition.
Proof. intros w w' e H. discriminate H. Qed.

Lemma only_actor_failures_set_lastMousePosition (p : Point.t) :
  only_actor_failures (set_lastMousePosition p).
Proof. intros w w' e H. discriminate H. Qed.

Lemma only_actor_failures_generateMousePath (start end_ : Point.t)
    (steps : Z) :
  only_actor_failures (generateMousePath start end_ steps).
Proof.
  intros w w' e H.
  destruct (generateMousePath_run start end_ steps w) as (cp1 & cp2 & _ & Hrun).
  rewrite Hrun in H. discriminate H.
Qed.

Lemma only_actor_failures_moveMouseAlongPath (page : Page)
    (path : list Point.t) (config : HumanEmulationConfig) :
  only_actor_failures (moveMouseAlongPath page path config).
Proof.
  unfold moveMouseAlongPath. apply only_actor_failures_bind.
  - apply move_points_only_actor_failures.
  - intros _. destruct path.
    + apply only_actor_failures_ret.
    + apply only_actor_failures_set_lastMousePosition.
Qed.

Ltac actor_failures :=
  first
    [ apply only_actor_failures_ret
    | apply only_actor_failures_perform
    | apply only_actor_failures_randomBetween
    | apply only_actor_failures_sleep
    | apply only_actor_failures_randomSleep
    | apply only_actor_failures_get_lastMousePosition
    | apply only_actor_failures_generateMousePath
    | apply only_actor_failures_moveMouseAlongPath
    | apply only_actor_failures_bind; [actor_failures | intros ?; actor_failures] ].

Lemma type_chars_only_actor_failures (page : Page) (typingDelay : Range.t)
    (text : Text) :
  only_actor_failures (type_chars page typingDelay text).
Proof.
  induction text as [| char text IH]; cbn [type_chars].
  - apply only_actor_failures_ret.
  - apply only_actor_failures_bind; [actor_failures | intros _].
    apply only_actor_failures_bind; [actor_failures | intros base].
    apply only_actor_failures_bind.
    + destruct (is_pause_char char); actor_failures.
    + intros delay.
      apply only_actor_failures_bind; [actor_failures | intros _; exact IH].
Qed.

(** The three ways [humanClick] can go at target resolution. *)
Lemma humanClick_cases (page : Page) (selector : string)
    (config : HumanEmulationConfig) (options : option ClickOptions)
    (w : World) :
  (no_element page selector w /\
   humanClick page selector config options w
   = (Rejected (Error ("Element not found: " ++ selector)),
      log (page_dollar selector) w)) \/
  (exists element : ElementHandle,
     dollar (actor_of page) (events w) selector = answers (Some element) /\
     boundingBox (actor_of page) (events w ++ [page_dollar selector]) element
     = answers None /\
     humanClick page selector config options w
     = (Rejected (Error "Element has no bounding box"),
        log (element_boundingBox element) (log (page_dollar selector) w))) \/
  (~ (no_element page selector w \/ no_geometry page selector w) /\
   forall (e : JsError) (w' : World),
     humanClick page selector config options w = (Rejected e, w') ->
     exists reason, e = ActorPrimitiveFailure reason).
Proof.
  unfold no_element, no_geometry, humanClick.
  destruct (dollar (actor_of page) (events w) selector)
    as [[element |] | reason] eqn:Hd.
  - (* an element *)
    erewrite bind_run by (unfold page_query; rewrite Hd; reflexivity).
    unfold getRandomPointInElement. rewrite bind_assoc.
    destruct (boundingBox (actor_of page) (events w ++ [page_dollar selector])
                element) as [[box |] | reason] eqn:Hb.
    + right. right. split.
      * intros [H | (el & H1 & H2)]; [discriminate H |].
        injection H1 as <-. rewrite Hb in H2. discriminate H2.
      * erewrite bind_run
          by (unfold element_box; cbn [log events]; rewrite Hb; reflexivity).
        intros e w'.
        refine (only_actor_failures_bind _ _ _ _ _ w' e);
          [actor_failures | intros ?; actor_failures].
    + right. left. exists element. split; [reflexivity |].
      split; [exact Hb |].
      erewrite bind_run
        by (unfold element_box; cbn [log events]; rewrite Hb; reflexivity).
      reflexivity.
    + right. right. split.
      * intros [H | (el & H1 & H2)]; [discriminate H |].
        injection H1 as <-. rewrite Hb in H2. discriminate H2.
      * erewrite bind_stop
          by (unfold element_box; cbn [log events]; rewrite Hb; reflexivity).
        intros e w' H. injection H as <- _. now exists reason.
  - (* null *)
    left. split; [reflexivity |].
    erewrite bind_run by (unfold page_query; rewrite Hd; reflexivity).
    reflexivity.
  - (* the query itself rejected *)
    right. right. split.
    + intros [H | (el & H1 & _)]; discriminate.
    + erewrite bind_stop by (unfold page_query; rewrite Hd; reflexivity).
      intros e w' H. injection H as <- _. now exists reason.
Qed.

Lemma ElementNotFound_not_actor (selector reason : string) :
  ~ ElementNotFound selector (ActorPrimitiveFailure reason).
Proof. intros [H | H]; discriminate H. Qed.

Lemma humanClick_rejects_iff (page : Page) (selector : string)
    (config : HumanEmulationConfig) (options : option ClickOptions)
    (w : World) :
  rejects_with (humanClick page selector config options) w
    (ElementNotFound selector)
  <-> no_element page selector w \/ no_geometry page selector w.
Proof.
  destruct (humanClick_cases page selector config options w)
    as [[Hnone Hrun] | [(el & Hd & Hb & Hrun) | [Hnot Hrun]]].
  - split; [intros _; now left |].
    intros _. eexists. eexists. split; [exact Hrun | now left].
  - split.
    + intros _. right. now exists el.
    + intros _. eexists. eexists. split; [exact Hrun | now right].
  - split; [| intros H; contradiction].
    intros (e & w' & He & Hkind). apply Hrun in He as [reason ->].
    now apply ElementNotFound_not_actor in Hkind.
Qed.

(** What follows a rejected [humanClick] never runs: the rejection is that
    of the whole. *)
Lemma after_click_rejects_iff {A : Type} (page : Page) (selector : string)
    (config : HumanEmulationConfig) (rest : Async A) (w : World) :
  only_actor_failures rest ->
  rejects_with (humanClick page selector config None ;;; rest) w
    (ElementNotFound selector)
  <-> no_element page selector w \/ no_geometry page selector w.
Proof.
  intros Hrest. rewrite <- (humanClick_rejects_iff page selector config None).
  split.
  - intros (e & w' & Hrun & Hkind).
    apply bind_rejected in Hrun as [Hrun | ([] & w1 & _ & Hrun)].
    + now exists e, w'.
    + apply Hrest in Hrun as [reason ->].
      now apply ElementNotFound_not_actor in Hkind.
  - intros (e & w' & Hrun & Hkind). exists e, w'.
    split; [now apply bind_stop | exact Hkind].
Qed.

(** C6: [humanClick] rejects with an ElementNotFound error exactly when the
    selector resolves to no element or the element reports no bounding box;
    so do [humanType] and [humanFill], which begin with [humanClick].  The
    error reaches their caller as [humanClick] threw it, and nothing was
    asked of the page after the failed lookup: no retry. *)
Theorem ElementNotFound_iff_unresolved :
  forall (page : Page) (selector : string) (text : Text)
         (config : HumanEmulationConfig) (options : option ClickOptions)
         (type_options : option TypeOptions) (w : World),
    (rejects_with (humanClick page selector config options) w
       (ElementNotFound selector)
     <-> no_element page selector w \/ no_geometry page selector w) /\
    (rejects_with (humanType page selector text config type_options) w
       (ElementNotFound selector)
     <-> no_element page selector w \/ no_geometry page selector w) /\
    (rejects_with (humanFill page selector text config) w
       (ElementNotFound selector)
     <-> no_element page selector w \/ no_geometry page selector w) /\
    (forall (e : JsError) (w' : World),
       humanClick page selector config None w = (Rejected e, w') ->
       humanType page selector text config type_options w = (Rejected e, w') /\
       humanFill page selector text config w = (Rejected e, w')) /\
    (forall (e : JsError) (w' : World),
       humanClick page selector config options w = (Rejected e, w') ->
       ElementNotFound selector e ->
       events w' = events w ++ [page_dollar selector] \/
       exists element : ElementHandle,
         events w'
         = events w ++ [page_dollar selector; element_boundingBox element]).
Proof.
  intros page selector text config options type_options w.
  split; [apply humanClick_rejects_iff |].
  split.
  { unfold humanType. apply after_click_rejects_iff.
    apply only_actor_failures_bind; [actor_failures | intros _].
    apply type_chars_only_actor_failures. }
  split.
  { unfold humanFill. apply after_click_rejects_iff.
    do 4 (apply only_actor_failures_bind; [actor_failures | intros _]).
    apply type_chars_only_actor_failures. }
  split.
  { intros e w' Hrun. split; [unfold humanType | unfold humanFill];
      now apply bind_stop. }
  intros e w' Hrun Hkind.
  destruct (humanClick_cases page selector config options w)
    as [[_ Hrun'] | [(el & _ & _ & Hrun') | [_ Hrun']]].
  - rewrite Hrun' in Hrun. injection Hrun as _ <-. now left.
  - rewrite Hrun' in Hrun. injection Hrun as _ <-. right. exists el.
    cbn [log events]. now rewrite <- app_assoc.
  - apply Hrun' in Hrun as [reason ->].
    now apply ElementNotFound_not_actor in Hkind.
Qed.

Lemma ElementNotFound_iff_unresolved_witness :
  rejects_with
    (humanType empty_page "#name" (text_of "Ada")
       (mkConfig true None None None) None)
    (initial_world (fun _ => 0.5)) (ElementNotFound "#name").
Proof.
  apply (ElementNotFound_iff_unresolved empty_page "#name" (text_of "Ada")
           (mkConfig true None None None) None None
           (initial_world (fun _ => 0.5))).
  left. reflexivity.
Defined.

(** ** Typing *)

Lemma quiet_silent (w w' : World) :
  random_source w' = random_source w -> events w' = events w -> quiet w w'.
Proof.
  intros Hs He. split; [exact Hs |]. exists []. now rewrite app_nil_r.
Qed.

Lemma quiet_refl (w : World) : quiet w w.
Proof. now apply quiet_silent. Qed.

Lemma quiet_trans (w1 w2 w3 : World) : quiet w1 w2 -> quiet w2 w3 -> quiet w1 w3.
Proof.
  intros (S1 & e1 & H1 & F1) (S2 & e2 & H2 & F2).
  split; [congruence |]. exists (e1 ++ e2). split.
  - now rewrite H2, H1, app_assoc.
  - apply Forall_app. now split.
Qed.

Lemma quiet_log (e : Event) (w : World) : not_keystroke e -> quiet w (log e w).
Proof.
  intros H. split; [reflexivity |]. exists [e].
  split; [reflexivity | now constructor].
Qed.

Lemma quiet_tick (w : World) : quiet w (tick w).
Proof. now apply quiet_silent. Qed.

Lemma randomBetween_quiet (min max : R) : steps_in quiet (randomBetween min max).
Proof.
  intros w w' o H. rewrite randomBetween_run in H. injection H as _ <-.
  apply quiet_tick.
Qed.

Lemma sleep_quiet (ms : R) : steps_in quiet (sleep ms).
Proof. intros w w' o H. injection H as _ <-. now apply quiet_log. Qed.

Lemma randomSleep_quiet (min max : R) : steps_in quiet (randomSleep min max).
Proof.
  unfold randomSleep. apply steps_in_bind.
  - exact quiet_trans.
  - apply randomBetween_quiet.
  - intros ms. apply sleep_quiet.
Qed.

Lemma perform_quiet (page : Page) (e : Event) :
  not_keystroke e -> steps_in quiet (perform page e).
Proof.
  intros He w w' o H. apply perform_world in H. subst w'.
  now apply quiet_log.
Qed.

Lemma page_query_quiet (page : Page) (selector : string) :
  steps_in quiet (page_query page selector).
Proof. intros w w' o H. injection H as _ <-. now apply quiet_log. Qed.

Lemma element_box_quiet (page : Page) (element : ElementHandle) :
  steps_in quiet (element_box page element).
Proof. intros w w' o H. injection H as _ <-. now apply quiet_log. Qed.

Lemma get_lastMousePosition_quiet : steps_in quiet get_lastMousePosition.
Proof. intros w w' o H. injection H as _ <-. apply quiet_refl. Qed.

Lemma set_lastMousePosition_quiet (p : Point.t) :
  steps_in quiet (set_lastMousePosition p).
Proof.
  intros w w' o H. injection H as _ <-. now apply quiet_silent.
Qed.

Lemma generateMousePath_quiet (start end_ : Point.t) (steps : Z) :
  steps_in quiet (generateMousePath start end_ steps).
Proof.
  intros w w' o H.
  destruct (generateMousePath_run start end_ steps w) as (cp1 & cp2 & _ & Hrun).
  rewrite Hrun in H. injection H as _ <-. now apply quiet_silent.
Qed.

Ltac quiet_steps :=
  first
    [ apply steps_in_ret; exact quiet_refl
    | apply steps_in_throw; exact quiet_refl
    | apply perform_quiet; exact Logic.I
    | apply randomBetween_quiet
    | apply sleep_quiet
    | apply randomSleep_quiet
    | apply page_query_quiet
    | apply element_box_quiet
    | apply get_lastMousePosition_quiet
    | apply set_lastMousePosition_quiet
    | apply generateMousePath_quiet
    | apply steps_in_bind;
      [exact quiet_trans | quiet_steps | intros ?; quiet_steps] ].

Lemma move_points_quiet (page : Page) (speed : Range.t) (rest : list Point.t) :
  forall prev : option Point.t,
    steps_in quiet (move_points page speed prev rest).
Proof.
  induction rest as [| point rest IH]; intros prev; cbn [move_points].
  - quiet_steps.
  - apply steps_in_bind; [exact quiet_trans | |].
    + destruct prev; quiet_steps.
    + intros _. apply steps_in_bind; [exact quiet_trans | quiet_steps |].
      intros _. apply IH.
Qed.

Lemma moveMouseAlongPath_quiet (page : Page) (path : list Point.t)
    (config : HumanEmulationConfig) :
  steps_in quiet (moveMouseAlongPath page path config).
Proof.
  unfold moveMouseAlongPath. apply steps_in_bind; [exact quiet_trans | |].
  - apply move_points_quiet.
  - intros _. destruct path; quiet_steps.
Qed.

Lemma humanClick_quiet (page : Page) (selector : string)
    (config : HumanEmulationConfig) (options : option ClickOptions) :
  steps_in quiet (humanClick page selector config options).
Proof.
  unfold humanClick. apply steps_in_bind; [exact quiet_trans | quiet_steps |].
  intros [element |]; [| quiet_steps].
  apply steps_in_bind; [exact quiet_trans | |].
  - unfold getRandomPointInElement.
    apply steps_in_bind; [exact quiet_trans | quiet_steps |].
    intros [box |]; quiet_steps.
  - intros targetPoint.
    do 2 (apply steps_in_bind; [exact quiet_trans | quiet_steps | intros ?]).
    apply steps_in_bind; [exact quiet_trans | apply moveMouseAlongPath_quiet |].
    intros _. quiet_steps.
Qed.

Lemma bind_inv {A B : Type} (m : Async A) (k : A -> Async B) (w w2 : World)
    (o : Outcome B) :
  bind m k w = (o, w2) ->
  (exists e, m w = (Rejected e, w2) /\ o = Rejected e) \/
  (exists a w1, m w = (Resolved a, w1) /\ k a w1 = (o, w2)).
Proof.
  unfold bind. destruct (m w) as [[a | e] w1]; intros H.
  - right. now exists a, w1.
  - left. injection H as <- <-. now exists e.
Qed.

Lemma type_chars_trace (page : Page) (r : Range.t) (text : Text) :
  forall (w w' : World) (o : Outcome unit),
    fair (random_source w) ->
    type_chars page r text w = (o, w') ->
    exists evs : list Event,
      events w' = events w ++ evs /\
      typing_trace r text evs /\
      (o = Resolved tt ->
       List.length evs = (2 * List.length text)%nat).
Proof.
  induction text as [| char text IH]; intros w w' o Hfair Hrun.
  - injection Hrun as <- <-. exists []. rewrite app_nil_r.
    repeat split. constructor.
  - cbn [type_chars] in Hrun.
    apply bind_inv in Hrun as [(e & Hkey & ->) | ([] & w1 & Hkey & Hrun)];
      apply perform_world in Hkey; subst.
    + eexists [_]. split; [reflexivity |].
      split; [constructor | discriminate].
    + rewrite (bind_run _ _ _ _ _ (randomBetween_run _ _ _)) in Hrun.
      cbn [log random_source draws] in Hrun.
      set (base := random_source w (draws w)
                   * (Range.max r - Range.min r) + Range.min r) in Hrun.
      assert (Hbase : sampled_from r base).
      { exists (random_source w (draws w)). split; [apply Hfair | reflexivity]. }
      destruct (is_pause_char char) eqn:Hpause.
      * erewrite bind_run in Hrun
          by (erewrite bind_run by apply randomBetween_run; reflexivity).
        erewrite bind_run in Hrun by reflexivity.
        apply IH in Hrun as (evs & Hevs & Htrace & Hlen); [| exact Hfair].
        eexists (_ :: _ :: evs). split.
        { rewrite Hevs. cbn [log tick events]. now rewrite <- !app_assoc. }
        split.
        { apply typing_next; [exact Hbase | | exact Htrace].
          unfold multiplier_for. rewrite Hpause.
          cbn [tick log random_source draws].
          pose proof (Hfair (S (draws w))). lra. }
        intros Ho. cbn [List.length]. rewrite (Hlen Ho). lia.
      * erewrite bind_run in Hrun by reflexivity.
        erewrite bind_run in Hrun by reflexivity.
        apply IH in Hrun as (evs & Hevs & Htrace & Hlen); [| exact Hfair].
        exists (keyboard_type [char]
                :: setTimeout (base * 1) :: evs).
        split.
        { rewrite Hevs. cbn [log tick events]. rewrite <- !app_assoc.
          cbn [app]. now rewrite Rmult_1_r. }
        split.
        { apply typing_next; [exact Hbase | | exact Htrace].
          unfold multiplier_for. now rewrite Hpause. }
        intros Ho. cbn [List.length]. rewrite (Hlen Ho). lia.
Qed.

Lemma typing_after_prelude (page : Page) (r : Range.t) (text : Text)
    (before : Async unit) (w w' : World) (o : Outcome unit) :
  fair (random_source w) ->
  steps_in quiet before ->
  (before ;;; type_chars page r text) w = (o, w') ->
  exists head typed : list Event,
    events w' = events w ++ head ++ typed /\
    Forall not_keystroke head /\
    typing_trace r text typed /\
    (o = Resolved tt -> List.length typed = (2 * List.length text)%nat).
Proof.
  intros Hfair Hquiet Hrun.
  apply bind_inv in Hrun as [(e & Hb & ->) | ([] & w1 & Hb & Hrun)].
  - destruct (Hquiet _ _ _ Hb) as (_ & head & Hevs & Hhead).
    exists head, []. rewrite app_nil_r.
    split; [exact Hevs |]. split; [exact Hhead |].
    split; [constructor | discriminate].
  - destruct (Hquiet _ _ _ Hb) as (Hsrc & head & Hevs & Hhead).
    apply type_chars_trace in Hrun as (typed & Hevs' & Htrace & Hlen).
    + exists head, typed. rewrite Hevs', Hevs, app_assoc. now repeat split.
    + rewrite Hsrc. exact Hfair.
Qed.

(** *** Runs that complete *)

Lemma completes_ret {A : Type} (a : A) : completes (ret a).
Proof. intros w. now exists a, w. Qed.

Lemma completes_bind {A B : Type} (m : Async A) (k : A -> Async B) :
  completes m -> (forall a, completes (k a)) -> completes (bind m k).
Proof.
  intros Hm Hk w. destruct (Hm w) as (a & w1 & H1).
  rewrite (bind_run _ _ _ _ _ H1). apply Hk.
Qed.

Lemma completes_randomBetween (min max : R) : completes (randomBetween min max).
Proof. intros w. eexists. eexists. apply randomBetween_run. Qed.

Lemma completes_sleep (ms : R) : completes (sleep ms).
Proof. intros w. eexists. eexists. reflexivity. Qed.

Lemma completes_randomSleep (min max : R) : completes (randomSleep min max).
Proof. intros w. eexists. eexists. apply randomSleep_run. Qed.

Lemma completes_perform (page : Page) (e : Event) :
  accepting page -> completes (perform page e).
Proof. intros H w. eexists. eexists. now apply perform_accepting. Qed.

Lemma completes_get_lastMousePosition : completes get_lastMousePosition.
Proof. intros w. eexists. eexists. reflexivity. Qed.

Lemma completes_generateMousePath (start end_ : Point.t) (steps : Z) :
  completes (generateMousePath start end_ steps).
Proof.
  intros w.
  destruct (generateMousePath_run start end_ steps w) as (cp1 & cp2 & _ & Hrun).
  eexists. eexists. exact Hrun.
Qed.

Lemma completes_moveMouseAlongPath (page : Page) (path : list Point.t)
    (config : HumanEmulationConfig) :
  accepting page -> completes (moveMouseAlongPath page path config).
Proof.
  intros H w. exists tt. now apply moveMouseAlongPath_completes.
Qed.

Ltac completes_steps Hpage :=
  first
    [ apply completes_ret
    | apply completes_randomBetween
    | apply completes_sleep
    | apply completes_randomSleep
    | apply completes_get_lastMousePosition
    | apply completes_generateMousePath
    | apply completes_perform; exact Hpage
    | apply completes_moveMouseAlongPath; exact Hpage
    | apply completes_bind;
      [completes_steps Hpage | intros ?; completes_steps Hpage] ].

Lemma completes_humanClick (page : Page) (selector : string)
    (config : HumanEmulationConfig) (options : option ClickOptions) :
  responsive page -> completes (humanClick page selector config options).
Proof.
  intros (Hpage & Hdollar & Hbox) w. unfold humanClick.
  destruct (Hdollar (events w) selector) as [element Hd].
  erewrite bind_run by (unfold page_query; rewrite Hd; reflexivity).
  unfold getRandomPointInElement. rewrite bind_assoc.
  destruct (Hbox (events (log (page_dollar selector) w)) element)
    as [box Hb].
  erewrite bind_run by (unfold element_box; rewrite Hb; reflexivity).
  generalize (log (element_boundingBox element) (log (page_dollar selector) w)).
  apply completes_bind; [completes_steps Hpage |].
  intros targetPoint. completes_steps Hpage.
Qed.

Lemma completes_type_chars (page : Page) (r : Range.t) (text : Text) :
  accepting page -> completes (type_chars page r text).
Proof.
  intros Hpage. induction text as [| char text IH]; cbn [type_chars].
  - apply completes_ret.
  - apply completes_bind; [completes_steps Hpage | intros _].
    apply completes_bind; [completes_steps Hpage | intros base].
    apply completes_bind.
    + destruct (is_pause_char char); completes_steps Hpage.
    + intros delay. apply completes_bind; [completes_steps Hpage |].
      intros _. exact IH.
Qed.


Lemma completes_humanFill (page : Page) (selector : string) (text : Text)
    (config : HumanEmulationConfig) :
  responsive page -> completes (humanFill page selector text config).
Proof.
  intros Hpage. unfold humanFill.
  apply completes_bind; [now apply completes_humanClick | intros _].
  destruct Hpage as (Hpage & _).
  do 4 (apply completes_bind; [completes_steps Hpage | intros _]).
  now apply completes_type_chars.
Qed.

Lemma steady_page_responsive (box : BoundingBox.t) :
  responsive (steady_page box).
Proof.
  split; [apply steady_page_accepting |].
  split; intros history x; eexists; reflexivity.
Qed.

(** *** The delays of [humanType] and [humanFill] *)

Lemma humanType_split (page : Page) (selector : string) (text : Text)
    (config : HumanEmulationConfig) (options : option TypeOptions)
    (w : World) :
  humanType page selector text config options w
  = ((humanClick page selector config None ;;; randomSleep 100 200) ;;;
     type_chars page (or_default (typingDelay config) DEFAULTS.typingDelay)
       text) w.
Proof. unfold humanType. now rewrite bind_assoc. Qed.

Lemma humanFill_split (page : Page) (selector : string) (text : Text)
    (config : HumanEmulationConfig) (w : World) :
  humanFill page selector text config w
  = (fill_prelude page selector config ;;;
     type_chars page (or_default (typingDelay config) DEFAULTS.typingDelay)
       text) w.
Proof.
  unfold humanFill, fill_prelude. rewrite bind_assoc. unfold bind.
  destruct (humanClick page selector config None w) as [[[] | e] w1];
    [| reflexivity].
  destruct (perform page (keyboard_press "Control+a") w1) as [[[] | e] w2];
    [| reflexivity].
  destruct (randomSleep 50 100 w2) as [[[] | e] w3]; [| reflexivity].
  destruct (perform page (keyboard_press "Backspace") w3) as [[[] | e] w4];
    [| reflexivity].
  destruct (randomSleep 100 200 w4) as [[[] | e] w5]; reflexivity.
Qed.




(** * Further properties of human.ts *)

(** ** The curve *)

Lemma bezier_blend_bounds (t x0 x1 x2 x3 lo hi : R) :
  0 <= t <= 1 ->
  lo <= x0 <= hi -> lo <= x1 <= hi -> lo <= x2 <= hi -> lo <= x3 <= hi ->
  lo <= (1 - t) * (1 - t) * (1 - t) * x0
        + 3 * ((1 - t) * (1 - t)) * t * x1
        + 3 * (1 - t) * (t * t) * x2
        + t * t * t * x3 <= hi.
Proof.
  intros Ht H0 H1 H2 H3.
  assert (Hu : 0 <= 1 - t) by lra.
  assert (Ha : 0 <= (1 - t) * (1 - t) * (1 - t)).
  { repeat apply Rmult_le_pos; lra. }
  assert (Hb : 0 <= 3 * ((1 - t) * (1 - t)) * t).
  { repeat apply Rmult_le_pos; lra. }
  assert (Hc : 0 <= 3 * (1 - t) * (t * t)).
  { repeat apply Rmult_le_pos; lra. }
  assert (Hd : 0 <= t * t * t).
  { repeat apply Rmult_le_pos; lra. }
  assert (Hsum : (1 - t) * (1 - t) * (1 - t) + 3 * ((1 - t) * (1 - t)) * t
                 + 3 * (1 - t) * (t * t) + t * t * t = 1) by ring.
  set (a := (1 - t) * (1 - t) * (1 - t)) in *.
  set (b := 3 * ((1 - t) * (1 - t)) * t) in *.
  set (c := 3 * (1 - t) * (t * t)) in *.
  set (d := t * t * t) in *.
  split; nra.
Qed.

(** In exact arithmetic the curve stays inside every axis-parallel
    rectangle that contains its four control points. *)
Lemma bezierPoint_in_box (t : R) (p0 p1 p2 p3 : Point.t)
    (lox hix loy hiy : R) :
  0 <= t <= 1 ->
  Forall (in_box lox hix loy hiy) [p0; p1; p2; p3] ->
  in_box lox hix loy hiy (bezierPoint t p0 p1 p2 p3).
Proof.
  intros Ht Hall.
  inversion_clear Hall as [| ? ? [X0 Y0] Hall1].
  inversion_clear Hall1 as [| ? ? [X1 Y1] Hall2].
  inversion_clear Hall2 as [| ? ? [X2 Y2] Hall3].
  inversion_clear Hall3 as [| ? ? [X3 Y3] _].
  unfold in_box, bezierPoint. cbn [Point.x Point.y].
  split; apply bezier_blend_bounds; assumption.
Qed.

(** ** The planned path *)

Lemma ratio_in_unit (i n : R) : 0 <= i <= n -> 0 < n -> 0 <= i / n <= 1.
Proof.
  intros Hi Hn.
  assert (H : i / n * n = i) by (field; lra).
  assert (Hinv : 0 < / n) by now apply Rinv_0_lt_compat.
  split.
  - unfold Rdiv. apply Rmult_le_pos; lra.
  - nra.
Qed.

Lemma nth_error_map_seq {A : Type} (f : nat -> A) (n i : nat) (a : A) :
  nth_error (map f (seq 0 n)) i = Some a -> (i < n)%nat /\ a = f i.
Proof.
  intros H.
  assert (Hi : (i < n)%nat).
  { assert (Hlt : (i < List.length (map f (seq 0 n)))%nat)
      by (apply nth_error_Some; congruence).
    now rewrite List.length_map, List.length_seq in Hlt. }
  split; [exact Hi |].
  rewrite nth_error_map in H.
  rewrite nth_error_seq in H.
  apply Nat.ltb_lt in Hi. rewrite Hi in H.
  cbn in H. congruence.
Qed.

(** What [generateMousePath] returns, with the control points spelled out. *)
Lemma generateMousePath_anatomy (start end_ : Point.t) (steps : Z)
    (w : World) :
  fair (random_source w) ->
  let dx := Point.x end_ - Point.x start in
  let dy := Point.y end_ - Point.y start in
  let d := sqrt (dx * dx + dy * dy) in
  exists offset1 angle1 offset2 angle2 : R,
    let cp1 := Point.mk (Point.x start + dx * 0.25 + cos angle1 * offset1)
                        (Point.y start + dy * 0.25 + sin angle1 * offset1) in
    let cp2 := Point.mk (Point.x start + dx * 0.75 + cos angle2 * offset2)
                        (Point.y start + dy * 0.75 + sin angle2 * offset2) in
    control_points start end_ w = (Resolved (cp1, cp2), ticks 4 w) /\
    generateMousePath start end_ steps w
    = (Resolved (map (pushed (random_source w) (draws w + 4) steps
                        start cp1 cp2 end_ 0)
                   (seq 0 (Z.to_nat (steps + 1)))),
       ticks (4 + 2 * Z.to_nat (steps + 1)) w) /\
    0.2 * d <= offset1 <= 0.4 * d /\
    0.2 * d <= offset2 <= 0.4 * d.
Proof.
  intros Hfair dx dy d.
  destruct (control_points_offsets start end_ w Hfair)
    as (o1 & a1 & o2 & a2 & Hcp & Ho1 & Ho2 & _).
  destruct (generateMousePath_run start end_ steps w)
    as (cp1 & cp2 & Hcp' & Hrun).
  rewrite Hcp in Hcp'. injection Hcp' as <- <-.
  exists o1, a1, o2, a2. cbv zeta. fold dx dy d.
  split; [exact Hcp |]. split; [exact Hrun |]. split; assumption.
Qed.

Lemma pushed_near_curve (source : nat -> R) (d : nat) (steps : Z)
    (start cp1 cp2 end_ : Point.t) (k : nat) :
  fair source ->
  integral_point (pushed source d steps start cp1 cp2 end_ 0 k) /\
  within 1.5 (pushed source d steps start cp1 cp2 end_ 0 k)
    (sampled steps start cp1 cp2 end_ (Z.of_nat k)).
Proof.
  intros Hfair. unfold pushed. rewrite Z.add_0_l. split.
  - eexists. eexists. cbn [Point.x Point.y]. unfold jitter_round, Math_round.
    split; reflexivity.
  - split; cbn [Point.x Point.y]; apply jitter_round_bound, Hfair.
Qed.

(** X3: every point of the planned path has integer coordinates and lies
    within 1.5 units, per axis, of the point of the curve it was sampled
    from (the curve through [start], the two control points and [end], at
    [t = i / steps]). *)
Theorem generateMousePath_points :
  forall (start end_ : Point.t) (steps : Z) (w : World),
    (1 <= steps)%Z ->
    fair (random_source w) ->
    exists (cp1 cp2 : Point.t) (path : list Point.t) (w' : World),
      control_points start end_ w = (Resolved (cp1, cp2), ticks 4 w) /\
      generateMousePath start end_ steps w = (Resolved path, w') /\
      forall (i : nat) (p : Point.t),
        nth_error path i = Some p ->
        integral_point p /\
        within 1.5 p (sampled steps start cp1 cp2 end_ (Z.of_nat i)).
Proof.
  intros start end_ steps w _ Hfair.
  destruct (generateMousePath_run start end_ steps w)
    as (cp1 & cp2 & Hcp & Hrun).
  exists cp1, cp2. eexists. eexists.
  split; [exact Hcp |]. split; [exact Hrun |].
  intros i p Hp. apply nth_error_map_seq in Hp as [_ ->].
  now apply pushed_near_curve.
Qed.

Lemma generateMousePath_points_witness :
  exists (cp1 cp2 : Point.t) (path : list Point.t) (w' : World),
    generateMousePath (Point.mk 100 100) (Point.mk 50.75 20) 25
      (initial_world (fun _ => 0.875)) = (Resolved path, w') /\
    forall (i : nat) (p : Point.t),
      nth_error path i = Some p ->
      integral_point p /\
      within 1.5 p
        (sampled 25 (Point.mk 100 100) cp1 cp2 (Point.mk 50.75 20)
           (Z.of_nat i)).
Proof.
  destruct (generateMousePath_points (Point.mk 100 100) (Point.mk 50.75 20) 25
              (initial_world (fun _ => 0.875)))
    as (cp1 & cp2 & path & w' & _ & Hrun & Hpoints).
  - lia.
  - intros n. simpl. lra.
  - exists cp1, cp2, path, w'. exact (conj Hrun Hpoints).
Defined.

(** X4: planning a path asks nothing of the page and leaves
    [lastMousePosition] alone; it never fails and it consumes exactly
    [4 + 2 (steps + 1)] results of [Math.random()]. *)
Theorem generateMousePath_frame :
  forall (start end_ : Point.t) (steps : Z) (w : World),
    exists (path : list Point.t) (w' : World),
      generateMousePath start end_ steps w = (Resolved path, w') /\
      events w' = events w /\
      lastMousePosition w' = lastMousePosition w /\
      random_source w' = random_source w /\
      draws w' = (draws w + (4 + 2 * Z.to_nat (steps + 1)))%nat.
Proof.
  intros start end_ steps w.
  destruct (generateMousePath_run start end_ steps w)
    as (cp1 & cp2 & _ & Hrun).
  eexists. eexists. split; [exact Hrun |]. repeat split.
Qed.
Lemma Rabs_le_between (a b : R) : Rabs a <= b -> - b <= a <= b.
Proof.
  intros H. unfold Rabs in H. destruct (Rcase_abs a); lra.
Qed.

Lemma quarter_between (a b f : R) :
  0 <= f <= 1 -> Rmin a b <= a + (b - a) * f <= Rmax a b.
Proof.
  intros Hf. unfold Rmin, Rmax. destruct (Rle_dec a b); split; nra.
Qed.

Lemma control_coordinate_bounds (a b f c offset d : R) :
  0 <= f <= 1 -> -1 <= c <= 1 -> 0 <= offset <= 0.4 * d ->
  Rmin a b - 0.4 * d <= a + (b - a) * f + c * offset <= Rmax a b + 0.4 * d.
Proof.
  intros Hf Hc Ho. pose proof (quarter_between a b f Hf) as Hq.
  split; nra.
Qed.

Lemma around_ends (start end_ : Point.t) (margin : R) :
  0 <= margin -> around start end_ margin start /\ around start end_ margin end_.
Proof.
  intros Hm. unfold around, in_box, Rmin, Rmax.
  destruct (Rle_dec (Point.x start) (Point.x end_));
    destruct (Rle_dec (Point.y start) (Point.y end_)); repeat split; lra.
Qed.

Lemma generateMousePath_box (start end_ : Point.t) (steps : Z) (w : World) :
  (1 <= steps)%Z ->
  fair (random_source w) ->
  let dx := Point.x end_ - Point.x start in
  let dy := Point.y end_ - Point.y start in
  let d := sqrt (dx * dx + dy * dy) in
  exists (path : list Point.t) (w' : World),
    generateMousePath start end_ steps w = (Resolved path, w') /\
    Forall (around start end_ (0.4 * d + 1.5)) path.
Proof.
  intros Hsteps Hfair dx dy d.
  destruct (generateMousePath_anatomy start end_ steps w Hfair)
    as (o1 & a1 & o2 & a2 & _ & Hrun & Ho1 & Ho2).
  cbv zeta in Hrun, Ho1, Ho2. fold dx dy d in Hrun, Ho1, Ho2.
  eexists. eexists. split; [exact Hrun |].
  pose proof (sqrt_pos (dx * dx + dy * dy)) as Hd. fold d in Hd.
  apply Forall_forall. intros p Hp. apply in_map_iff in Hp as (k & <- & Hk).
  apply in_seq in Hk.
  set (cp1 := Point.mk (Point.x start + dx * 0.25 + cos a1 * o1)
                       (Point.y start + dy * 0.25 + sin a1 * o1)) in *.
  set (cp2 := Point.mk (Point.x start + dx * 0.75 + cos a2 * o2)
                       (Point.y start + dy * 0.75 + sin a2 * o2)) in *.
  assert (Hcurve : around start end_ (0.4 * d)
                     (sampled steps start cp1 cp2 end_ (Z.of_nat k))).
  { unfold around, sampled. apply bezierPoint_in_box.
    - apply ratio_in_unit.
      + split; [apply IZR_le; lia | apply IZR_le; lia].
      + apply IZR_lt. lia.
    - destruct (around_ends start end_ (0.4 * d)) as [Hs He]; [lra |].
      apply Forall_cons; [exact Hs |].
      apply Forall_cons.
      { split; cbn [cp1 Point.x Point.y]; unfold dx, dy;
          apply control_coordinate_bounds;
          try lra; try apply COS_bound; try apply SIN_bound. }
      apply Forall_cons.
      { split; cbn [cp2 Point.x Point.y]; unfold dx, dy;
          apply control_coordinate_bounds;
          try lra; try apply COS_bound; try apply SIN_bound. }
      apply Forall_cons; [exact He | apply Forall_nil]. }
  destruct (pushed_near_curve (random_source w) (draws w + 4) steps
              start cp1 cp2 end_ k Hfair) as [_ [Hx Hy]].
  apply Rabs_le_between in Hx. apply Rabs_le_between in Hy.
  destruct Hcurve as [Hcx Hcy].
  unfold around, in_box. split; lra.
Qed.

(** X5: the planned path bows away from the straight line by a bounded
    amount: every point lies in the rectangle spanned by [start] and [end]
    widened by [0.4 d + 1.5] on each side, [d] being the distance between
    them. *)
Theorem generateMousePath_bounded :
  forall (start end_ : Point.t) (steps : Z) (w : World),
    (1 <= steps)%Z ->
    fair (random_source w) ->
    let dx := Point.x end_ - Point.x start in
    let dy := Point.y end_ - Point.y start in
    let d := sqrt (dx * dx + dy * dy) in
    exists (path : list Point.t) (w' : World),
      generateMousePath start end_ steps w = (Resolved path, w') /\
      Forall (around start end_ (0.4 * d + 1.5)) path.
Proof. exact generateMousePath_box. Qed.

Lemma generateMousePath_bounded_witness :
  exists (path : list Point.t) (w' : World),
    generateMousePath (Point.mk 100 100) (Point.mk 50.75 20) 25
      (initial_world (fun _ => 0.875)) = (Resolved path, w') /\
    Forall (around (Point.mk 100 100) (Point.mk 50.75 20)
              (0.4 * sqrt ((50.75 - 100) * (50.75 - 100)
                           + (20 - 100) * (20 - 100)) + 1.5)) path.
Proof.
  apply (generateMousePath_bounded (Point.mk 100 100) (Point.mk 50.75 20) 25
           (initial_world (fun _ => 0.875))).
  - lia.
  - intros n. simpl. lra.
Defined.

(** X6: a move to where the pointer already is degenerates to jitter: when
    [start = end], every point of the path is within 1.5 units of that
    point on each axis. *)
Theorem generateMousePath_standstill :
  forall (start : Point.t) (steps : Z) (w : World),
    (1 <= steps)%Z ->
    fair (random_source w) ->
    exists (path : list Point.t) (w' : World),
      generateMousePath start start steps w = (Resolved path, w') /\
      Forall (fun p => within 1.5 p start) path.
Proof.
  intros start steps w Hsteps Hfair.
  destruct (generateMousePath_box start start steps w Hsteps Hfair)
    as (path & w' & Hrun & Hbox).
  exists path, w'. split; [exact Hrun |].
  eapply Forall_impl; [| exact Hbox].
  intros p [Hx Hy]. cbv zeta in Hx, Hy.
  replace ((Point.x start - Point.x start) * (Point.x start - Point.x start)
           + (Point.y start - Point.y start) * (Point.y start - Point.y start))
    with 0 in Hx, Hy by ring.
  rewrite sqrt_0 in Hx, Hy.
  unfold Rmin, Rmax in Hx, Hy.
  destruct (Rle_dec (Point.x start) (Point.x start));
    destruct (Rle_dec (Point.y start) (Point.y start));
    split; apply Rabs_le; lra.
Qed.

Lemma generateMousePath_standstill_witness :
  exists (path : list Point.t) (w' : World),
    generateMousePath (Point.mk 100 100) (Point.mk 100 100) 25
      (initial_world (fun _ => 0.875)) = (Resolved path, w') /\
    Forall (fun p => within 1.5 p (Point.mk 100 100)) path.
Proof.
  apply (generateMousePath_standstill (Point.mk 100 100) 25
           (initial_world (fun _ => 0.875))).
  - lia.
  - intros n. simpl. lra.
Defined.

(** ** The driven path *)

Lemma move_points_trace (page : Page) (speed : Range.t) (rest : list Point.t) :
  forall (prev : option Point.t) (w w' : World) (o : Outcome unit),
    move_points page speed prev rest w = (o, w') ->
    random_source w' = random_source w /\
    exists k : nat,
      (k <= List.length rest)%nat /\
      (o = Resolved tt -> k = List.length rest) /\
      exists evs : list Event,
        events w' = events w ++ evs /\
        moved_to evs = firstn k rest /\
        (k = List.length rest ->
         evs = move_events speed (random_source w) (draws w) prev rest).
Proof.
  induction rest as [| point rest IH]; intros prev w w' o Hrun.
  - injection Hrun as <- <-. split; [reflexivity |]. exists 0%nat.
    split; [reflexivity |]. split; [reflexivity |].
    exists []. rewrite app_nil_r. repeat split.
  - cbn [move_points] in Hrun.
    apply bind_inv in Hrun as [(e & Hwait & _) | ([] & w1 & Hwait & Hrun)].
    { destruct prev as [prev |]; [| discriminate Hwait].
      rewrite (bind_run _ _ _ _ _ (randomBetween_run _ _ _)) in Hwait.
      discriminate Hwait. }
    assert (Hw1 : random_source w1 = random_source w /\
                  exists pre : list Event,
                    events w1 = events w ++ pre /\ moved_to pre = [] /\
                    move_events speed (random_source w) (draws w) prev
                      (point :: rest)
                    = pre ++ mouse_move (Point.x point) (Point.y point)
                        :: move_events speed (random_source w1) (draws w1)
                             (Some point) rest).
    { destruct prev as [prev |].
      - rewrite (bind_run _ _ _ _ _ (randomBetween_run _ _ _)) in Hwait.
        injection Hwait as <-. split; [reflexivity |].
        eexists [_]. repeat split.
      - injection Hwait as <-. split; [reflexivity |].
        exists []. rewrite app_nil_r. repeat split. }
    destruct Hw1 as (Hsrc1 & pre & Hpre & Hnomove & Hclosed).
    apply bind_inv in Hrun as [(e & Hmove & ->) | ([] & w2 & Hmove & Hrun)];
      apply perform_world in Hmove; subst.
    + split; [exact Hsrc1 |]. exists 1%nat.
      split; [cbn; lia |]. split; [discriminate |].
      exists (pre ++ [mouse_move (Point.x point) (Point.y point)]).
      split; [cbn [log events]; now rewrite Hpre, <- app_assoc |].
      split.
      * clear - Hnomove. induction pre as [| e pre IHp]; [now destruct point |].
        destruct e; cbn in *; try discriminate; now apply IHp.
      * intros Hk. destruct rest; [| discriminate Hk].
        rewrite Hclosed. reflexivity.
    + apply IH in Hrun as (Hsrc & k & Hk & Hall & evs & Hevs & Hmoved & Hfull).
      cbn [log random_source draws events] in *.
      split; [congruence |]. exists (S k).
      split; [cbn; lia |].
      split; [intros Ho; cbn; now rewrite (Hall Ho) |].
      exists (pre ++ mouse_move (Point.x point) (Point.y point) :: evs).
      split.
      { rewrite Hevs, Hpre, <- !app_assoc. reflexivity. }
      split.
      { clear - Hnomove Hmoved.
        induction pre as [| e pre IHp].
        - cbn. rewrite Hmoved. now destruct point.
        - destruct e; cbn in *; try discriminate; now apply IHp. }
      intros HSk. injection HSk as HSk. rewrite Hclosed, (Hfull HSk).
      reflexivity.
Qed.

Lemma moved_to_move_events (speed : Range.t) (source : nat -> R)
    (rest : list Point.t) :
  forall (d : nat) (prev : option Point.t),
    moved_to (move_events speed source d prev rest) = rest.
Proof.
  induction rest as [| [px py] rest IH]; intros d prev; [reflexivity |].
  destruct prev; cbn; now rewrite IH.
Qed.

Lemma waits_move_events (speed : Range.t) (source : nat -> R)
    (rest : list Point.t) :
  fair source ->
  Range.min speed <= Range.max speed ->
  forall (d : nat) (prev : option Point.t),
    Forall2 (paced speed) (neighbours (after prev rest))
      (waits (move_events speed source d prev rest)).
Proof.
  intros Hfair Hrange.
  induction rest as [| point rest IH]; intros d prev.
  - destruct prev; constructor.
  - destruct prev as [prev |].
    + cbn [after neighbours move_events waits]. constructor.
      * eexists. split; [| reflexivity].
        apply randomBetween_range; [apply Hfair | exact Hrange].
      * apply (IH (S d) (Some point)).
    + cbn [after move_events waits]. apply (IH d (Some point)).
Qed.

Lemma step_length_nonneg (prev point : Point.t) : 0 <= step_length prev point.
Proof. apply sqrt_pos. Qed.

Lemma paced_bounds (speed : Range.t) (step : Point.t * Point.t) (wait : R) :
  0 < Range.min speed ->
  paced speed step wait ->
  1 <= wait /\
  step_wait (fst step) (snd step) (Range.max speed) <= wait
    <= step_wait (fst step) (snd step) (Range.min speed).
Proof.
  intros Hmin (s & Hs & ->). unfold step_wait.
  pose proof (step_length_nonneg (fst step) (snd step)) as Hlen.
  set (len := step_length (fst step) (snd step)) in *.
  assert (Hs0 : 0 < s) by lra.
  assert (Hmax0 : 0 < Range.max speed) by lra.
  assert (H1 : len / Range.max speed <= len / s).
  { unfold Rdiv. apply Rmult_le_compat_l; [exact Hlen |].
    apply Rinv_le_contravar; lra. }
  assert (H2 : len / s <= len / Range.min speed).
  { unfold Rdiv. apply Rmult_le_compat_l; [exact Hlen |].
    apply Rinv_le_contravar; lra. }
  split; [apply Rmax_l |].
  split; apply Rle_max_compat_l; lra.
Qed.

(** X7: [moveMouseAlongPath] moves the pointer through the points of the
    path, in order and with their exact coordinates; a run that completes
    visits all of them, a run that a rejected call cuts short visited a
    prefix. *)
Theorem moveMouseAlongPath_moves :
  forall (page : Page) (path : list Point.t) (config : HumanEmulationConfig)
         (w w' : World) (o : Outcome unit),
    moveMouseAlongPath page path config w = (o, w') ->
    exists (evs : list Event) (k : nat),
      events w' = events w ++ evs /\
      moved_to evs = firstn k path /\
      (o = Resolved tt -> moved_to evs = path).
Proof.
  intros page path config w w' o Hrun. unfold moveMouseAlongPath in Hrun.
  apply bind_inv in Hrun as [(e & Hloop & ->) | ([] & w1 & Hloop & Hset)].
  - apply move_points_trace in Hloop
      as (_ & k & _ & _ & evs & Hevs & Hmoved & _).
    exists evs, k. split; [exact Hevs |]. split; [exact Hmoved | discriminate].
  - apply move_points_trace in Hloop
      as (_ & k & _ & Hall & evs & Hevs & Hmoved & _).
    assert (Hw' : events w' = events w1).
    { destruct path; injection Hset as _ <-; reflexivity. }
    exists evs, k. rewrite Hw'. split; [exact Hevs |].
    split; [exact Hmoved |]. intros _.
    rewrite Hmoved, (Hall eq_refl). apply firstn_all.
Qed.

Lemma moveMouseAlongPath_moves_witness :
  exists (w' : World) (evs : list Event),
    moveMouseAlongPath (steady_page (BoundingBox.mk 0 0 100 50))
      [Point.mk 100 101; Point.mk 98 97; Point.mk 95 90]
      (mkConfig true None None None) (initial_world (fun _ => 0.5))
    = (Resolved tt, w') /\
    events w' = [] ++ evs /\
    moved_to evs = [Point.mk 100 101; Point.mk 98 97; Point.mk 95 90].
Proof.
  destruct (moveMouseAlongPath_completes
              (steady_page (BoundingBox.mk 0 0 100 50))
              [Point.mk 100 101; Point.mk 98 97; Point.mk 95 90]
              (mkConfig true None None None) (initial_world (fun _ => 0.5))
              (steady_page_accepting _)) as [w' Hrun].
  destruct (moveMouseAlongPath_moves _ _ _ _ _ _ Hrun)
    as (evs & k & Hevs & _ & Hall).
  exists w', evs. exact (conj Hrun (conj Hevs (Hall eq_refl))).
Defined.

(** X8: in a run of [moveMouseAlongPath] that completes there is exactly one
    wait before each move but the first; the wait before a step is
    [max(1, length / speed * 100)] for a speed within the configured
    [mouseSpeed] range (100 to 300 when absent), so it is at least 1 ms and
    lies between the times of the step at the fastest and at the slowest
    speed of the range. *)
Theorem moveMouseAlongPath_pacing :
  forall (page : Page) (path : list Point.t) (config : HumanEmulationConfig)
         (w w' : World),
    let speed := or_default (mouseSpeed config) DEFAULTS.mouseSpeed in
    fair (random_source w) ->
    0 < Range.min speed <= Range.max speed ->
    moveMouseAlongPath page path config w = (Resolved tt, w') ->
    exists evs : list Event,
      events w' = events w ++ evs /\
      Forall2 (paced speed) (neighbours path) (waits evs) /\
      forall (step : Point.t * Point.t) (wait : R),
        paced speed step wait ->
        1 <= wait /\
        step_wait (fst step) (snd step) (Range.max speed) <= wait
          <= step_wait (fst step) (snd step) (Range.min speed).
Proof.
  intros page path config w w' speed Hfair Hrange Hrun.
  unfold moveMouseAlongPath in Hrun. fold speed in Hrun.
  apply bind_resolved in Hrun as ([] & w1 & Hloop & Hset).
  apply move_points_trace in Hloop
    as (_ & k & _ & Hall & evs & Hevs & _ & Hfull).
  assert (Hw' : events w' = events w1).
  { destruct path; injection Hset as <-; reflexivity. }
  exists evs. rewrite Hw'. split; [exact Hevs |]. split.
  - rewrite (Hfull (Hall eq_refl)).
    apply (waits_move_events speed (random_source w) path Hfair
             (proj2 Hrange) (draws w) None).
  - intros step wait. apply paced_bounds. apply Hrange.
Qed.

Lemma moveMouseAlongPath_pacing_witness :
  exists (w' : World) (evs : list Event),
    moveMouseAlongPath (steady_page (BoundingBox.mk 0 0 100 50))
      [Point.mk 100 101; Point.mk 98 97; Point.mk 95 90]
      (mkConfig true None None None) (initial_world (fun _ => 0.5))
    = (Resolved tt, w') /\
    events w' = [] ++ evs /\
    Forall2 (paced DEFAULTS.mouseSpeed)
      [(Point.mk 100 101, Point.mk 98 97); (Point.mk 98 97, Point.mk 95 90)]
      (waits evs).
Proof.
  destruct (moveMouseAlongPath_completes
              (steady_page (BoundingBox.mk 0 0 100 50))
              [Point.mk 100 101; Point.mk 98 97; Point.mk 95 90]
              (mkConfig true None None None) (initial_world (fun _ => 0.5))
              (steady_page_accepting _)) as [w' Hrun].
  destruct (moveMouseAlongPath_pacing
              (steady_page (BoundingBox.mk 0 0 100 50))
              [Point.mk 100 101; Point.mk 98 97; Point.mk 95 90]
              (mkConfig true None None None) (initial_world (fun _ => 0.5)) w')
    as (evs & Hevs & Hpaced & _).
  - intros n. cbn [initial_world random_source]. lra.
  - cbn [or_default mouseSpeed DEFAULTS.mouseSpeed Range.min Range.max]. lra.
  - exact Hrun.
  - exists w', evs. exact (conj Hrun (conj Hevs Hpaced)).
Defined.

(** ** The click *)

Lemma pushed_integral (source : nat -> R) (d : nat) (steps : Z)
    (start cp1 cp2 end_ : Point.t) (i : Z) (k : nat) :
  integral_point (pushed source d steps start cp1 cp2 end_ i k).
Proof.
  eexists. eexists. unfold pushed, jitter_round, Math_round.
  cbn [Point.x Point.y]. split; reflexivity.
Qed.

Lemma adds_refl (P : Event -> Prop) (w : World) : adds P w w.
Proof. exists []. now rewrite app_nil_r. Qed.

Lemma adds_trans (P : Event -> Prop) (w1 w2 w3 : World) :
  adds P w1 w2 -> adds P w2 w3 -> adds P w1 w3.
Proof.
  intros (e1 & H1 & F1) (e2 & H2 & F2). exists (e1 ++ e2). split.
  - now rewrite H2, H1, app_assoc.
  - apply Forall_app. now split.
Qed.

Lemma adds_log (P : Event -> Prop) (e : Event) (w : World) :
  P e -> adds P w (log e w).
Proof. intros H. exists [e]. split; [reflexivity | now constructor]. Qed.

Lemma randomBetween_adds (P : Event -> Prop) (min max : R) :
  steps_in (adds P) (randomBetween min max).
Proof.
  intros w w' o H. rewrite randomBetween_run in H. injection H as _ <-.
  exists []. cbn [tick events]. now rewrite app_nil_r.
Qed.

Lemma perform_adds (P : Event -> Prop) (page : Page) (e : Event) :
  P e -> steps_in (adds P) (perform page e).
Proof.
  intros He w w' o H. apply perform_world in H. subst w'. now apply adds_log.
Qed.

Lemma sleep_adds (P : Event -> Prop) (ms : R) :
  P (setTimeout ms) -> steps_in (adds P) (sleep ms).
Proof. intros He w w' o H. injection H as _ <-. now apply adds_log. Qed.

Lemma move_points_adds (page : Page) (speed : Range.t) (rest : list Point.t) :
  forall prev : option Point.t,
    steps_in (adds move_or_wait) (move_points page speed prev rest).
Proof.
  induction rest as [| point rest IH]; intros prev; cbn [move_points].
  - apply steps_in_ret, adds_refl.
  - apply steps_in_bind; [apply adds_trans | |].
    + destruct prev as [prev |].
      * apply steps_in_bind; [apply adds_trans | apply randomBetween_adds |].
        intros s. now apply sleep_adds.
      * apply steps_in_ret, adds_refl.
    + intros _. apply steps_in_bind; [apply adds_trans | |].
      * now apply perform_adds.
      * intros _. apply IH.
Qed.

Lemma moveMouseAlongPath_adds (page : Page) (path : list Point.t)
    (config : HumanEmulationConfig) :
  steps_in (adds move_or_wait) (moveMouseAlongPath page path config).
Proof.
  unfold moveMouseAlongPath. apply steps_in_bind; [apply adds_trans | |].
  - apply move_points_adds.
  - intros _. destruct path.
    + apply steps_in_ret, adds_refl.
    + intros w w' o H. injection H as _ <-. exists [].
      cbn [events]. now rewrite app_nil_r.
Qed.

Lemma generateMousePath_resolved (start end_ : Point.t) (steps : Z)
    (w w' : World) (path : list Point.t) :
  (1 <= steps)%Z ->
  generateMousePath start end_ steps w = (Resolved path, w') ->
  w' = ticks (4 + 2 * Z.to_nat (steps + 1)) w /\
  Z.of_nat (List.length path) = (steps + 1)%Z /\
  Forall integral_point path /\
  (fair (random_source w) ->
   forall d : Point.t, within 1.5 (last path d) end_).
Proof.
  intros Hsteps Hrun.
  destruct (generateMousePath_run start end_ steps w)
    as (cp1 & cp2 & _ & Hgen).
  rewrite Hgen in Hrun. injection Hrun as <- <-.
  split; [reflexivity |]. split.
  { rewrite List.length_map, List.length_seq. lia. }
  split.
  { apply Forall_forall. intros p Hp. apply in_map_iff in Hp as (k & <- & _).
    apply pushed_integral. }
  intros Hfair d.
  replace (Z.to_nat (steps + 1)) with (S (Z.to_nat steps)) by lia.
  rewrite last_map_seq. unfold pushed, within.
  rewrite Z.add_0_l, Z2Nat.id by lia. rewrite sampled_last by exact Hsteps.
  cbn [Point.x Point.y]. split; apply jitter_round_bound, Hfair.
Qed.

Lemma moveMouseAlongPath_trace (page : Page) (path : list Point.t)
    (config : HumanEmulationConfig) (w w' : World) :
  moveMouseAlongPath page path config w = (Resolved tt, w') ->
  random_source w' = random_source w /\
  exists evs : list Event,
    events w' = events w ++ evs /\
    moved_to evs = path /\
    Forall move_or_wait evs /\
    (path <> [] -> forall d : Point.t, lastMousePosition w' = last path d).
Proof.
  intros Hrun. pose proof Hrun as Hpos.
  pose proof (moveMouseAlongPath_adds _ _ _ _ _ _ Hrun)
    as (added & Hadded & Hkind).
  unfold moveMouseAlongPath in Hrun.
  apply bind_resolved in Hrun as ([] & w1 & Hloop & Hset).
  apply move_points_trace in Hloop
    as (Hsrc & k & _ & Hall & evs & Hevs & Hmoved & _).
  assert (Hw' : events w' = events w1 /\ random_source w' = random_source w1).
  { destruct path; injection Hset as <-; split; reflexivity. }
  destruct Hw' as [He Hs]. split; [congruence |].
  exists evs. rewrite He. split; [exact Hevs |]. split.
  { rewrite Hmoved, (Hall eq_refl). apply firstn_all. }
  split.
  { rewrite He, Hevs in Hadded. apply app_inv_head in Hadded. now subst. }
  intros Hne d. now apply (moveMouseAlongPath_resolved page path config w).
Qed.

(** A click that completes, step by step. *)
Lemma humanClick_resolved (page : Page) (selector : string)
    (config : HumanEmulationConfig) (options : option ClickOptions)
    (w w' : World) :
  fair (random_source w) ->
  humanClick page selector config options w = (Resolved tt, w') ->
  exists (element : ElementHandle) (box : BoundingBox.t)
         (targetPoint : Point.t) (moves : list Event) (hesitation pause : R),
    dollar (actor_of page) (events w) selector = answers (Some element) /\
    boundingBox (actor_of page) (events w ++ [page_dollar selector]) element
    = answers (Some box) /\
    events w'
    = events w ++ [page_dollar selector; element_boundingBox element]
      ++ moves
      ++ [setTimeout hesitation;
          mouse_click (Point.x targetPoint) (Point.y targetPoint)
            (button_or_left options) (clickCount_or_1 options);
          setTimeout pause] /\
    List.length (moved_to moves) = 26%nat /\
    Forall move_or_wait moves /\
    Forall integral_point (moved_to moves) /\
    (forall d : Point.t,
       within 1.5 (last (moved_to moves) d) targetPoint /\
       lastMousePosition w' = last (moved_to moves) d) /\
    50 <= hesitation <= 150 /\
    50 <= pause <= 100 /\
    (0 <= BoundingBox.width box -> 0 <= BoundingBox.height box ->
     interior box targetPoint) /\
    random_source w' = random_source w.
Proof.
  intros Hfair Hrun. unfold humanClick in Hrun.
  apply bind_resolved in Hrun as (element & wa & Hquery & Hrun).
  unfold page_query in Hquery. injection Hquery as Hd <-.
  destruct element as [element |]; [| discriminate Hrun].
  destruct (dollar (actor_of page) (events w) selector)
    as [found | reason] eqn:Hdollar; [| discriminate Hd].
  cbn [await] in Hd. injection Hd as ->.
  apply bind_resolved in Hrun as (targetPoint & wb & Htarget & Hrun).
  unfold getRandomPointInElement in Htarget.
  apply bind_resolved in Htarget as (box & wb0 & Hbox & Htarget).
  unfold element_box in Hbox. cbn [log events] in Hbox.
  injection Hbox as Hb <-.
  destruct box as [box |]; [| discriminate Htarget].
  destruct (boundingBox (actor_of page) (events w ++ [page_dollar selector])
              element) as [boxed | reason] eqn:Hbounding; [| discriminate Hb].
  cbn [await] in Hb. injection Hb as ->.
  rewrite (bind_run _ _ _ _ _ (randomBetween_run _ _ _)) in Htarget.
  rewrite (bind_run _ _ _ _ _ (randomBetween_run _ _ _)) in Htarget.
  injection Htarget as Htarget <-.
  apply bind_resolved in Hrun as (start & wc & Hstart & Hrun).
  injection Hstart as <- <-.
  apply bind_resolved in Hrun as (path & wd & Hpath & Hrun).
  apply generateMousePath_resolved in Hpath
    as (-> & Hlen & Hint & Hlast); [| unfold DEFAULTS.moveSteps; lia].
  apply bind_resolved in Hrun as ([] & we & Hmove & Hrun).
  apply moveMouseAlongPath_trace in Hmove
    as (Hsrc & moves & Hmoves & Hmoved & Hkind & Hpos).
  rewrite (bind_run _ _ _ _ _ (randomSleep_run _ _ _)) in Hrun.
  apply bind_resolved in Hrun as ([] & wf & Hclick & Hrun).
  apply perform_world in Hclick. subst wf.
  rewrite randomSleep_run in Hrun. injection Hrun as <-.
  cbn [ticks tick log random_source draws events lastMousePosition
       Point.x Point.y] in *.
  exists element, box, targetPoint, moves.
  exists (random_source we (draws we) * (150 - 50) + 50).
  exists (random_source we (S (draws we)) * (100 - 50) + 50).
  split; [reflexivity |]. split; [exact Hbounding |].
  split.
  { rewrite Hmoves, <- !app_assoc. reflexivity. }
  assert (Hne : path <> []).
  { intros ->. cbn in Hlen. unfold DEFAULTS.moveSteps in Hlen. lia. }
  split.
  { rewrite Hmoved. unfold DEFAULTS.moveSteps in Hlen. lia. }
  split; [exact Hkind |].
  split; [now rewrite Hmoved |].
  split.
  { intros d. rewrite Hmoved. split; [now apply Hlast | now apply Hpos]. }
  rewrite Hsrc.
  pose proof (Hfair (draws w)) as Hu0.
  pose proof (Hfair (S (draws w))) as Hu1.
  pose proof (Hfair (draws we)) as Hu2.
  pose proof (Hfair (S (draws we))) as Hu3.
  split; [lra |]. split; [lra |]. split; [| reflexivity].
  intros HW HH. subst targetPoint. unfold interior, in_box.
  cbn [Point.x Point.y]. split; nra.
Qed.
(** X9: a click that completes is, in this order: the lookup of the element
    and of its bounding box, 26 pointer moves with nothing but waits between
    them, a hesitation of 50 to 150 ms, one [mouse.click] with the requested
    button and click count (left and 1 when absent), and a pause of 50 to
    100 ms. *)
Theorem humanClick_sequence :
  forall (page : Page) (selector : string) (config : HumanEmulationConfig)
         (options : option ClickOptions) (w w' : World),
    fair (random_source w) ->
    humanClick page selector config options w = (Resolved tt, w') ->
    exists (element : ElementHandle) (moves : list Event)
           (x y hesitation pause : R),
      events w'
      = events w ++ [page_dollar selector; element_boundingBox element]
        ++ moves
        ++ [setTimeout hesitation;
            mouse_click x y (button_or_left options) (clickCount_or_1 options);
            setTimeout pause] /\
      List.length (moved_to moves) = 26%nat /\
      Forall move_or_wait moves /\
      50 <= hesitation <= 150 /\
      50 <= pause <= 100.
Proof.
  intros page selector config options w w' Hfair Hrun.
  apply humanClick_resolved in Hrun
    as (element & box & target & moves & h & p
        & _ & _ & Hevs & Hlen & Hkind & _ & _ & Hh & Hp & _); [| exact Hfair].
  exists element, moves, (Point.x target), (Point.y target), h, p.
  split; [exact Hevs |]. split; [exact Hlen |].
  split; [exact Hkind |]. split; assumption.
Qed.

Lemma humanClick_sequence_witness :
  exists (w' : World) (element : ElementHandle) (moves : list Event)
         (x y hesitation pause : R),
    humanClick (steady_page (BoundingBox.mk 0 0 100 50)) "#go"
      (mkConfig true None None None) None (initial_world (fun _ => 0.5))
    = (Resolved tt, w') /\
    events w'
    = [] ++ [page_dollar "#go"; element_boundingBox element] ++ moves
      ++ [setTimeout hesitation; mouse_click x y Button.left 1;
          setTimeout pause] /\
    List.length (moved_to moves) = 26%nat.
Proof.
  destruct (completes_humanClick (steady_page (BoundingBox.mk 0 0 100 50))
              "#go" (mkConfig true None None None) None
              (steady_page_responsive _) (initial_world (fun _ => 0.5)))
    as ([] & w' & Hrun).
  destruct (humanClick_sequence (steady_page (BoundingBox.mk 0 0 100 50))
              "#go" (mkConfig true None None None) None
              (initial_world (fun _ => 0.5)) w')
    as (element & moves & x & y & h & p & Hevs & Hlen & _).
  - intros n. cbn [initial_world random_source]. lra.
  - exact Hrun.
  - exists w', element, moves, x, y, h, p.
    exact (conj Hrun (conj Hevs Hlen)).
Defined.

Lemma last_in {A : Type} (l : list A) (d : A) : l <> [] -> In (last l d) l.
Proof.
  induction l as [| a l IH]; intros H; [congruence |].
  destruct l as [| b l]; [now left |].
  right. apply IH. discriminate.
Qed.

(** X10: a click that completes lands inside the element, a tenth of its
    width and height away from its edges (for a box of non-negative size);
    the pointer was last moved to a point with integer coordinates within
    1.5 units of the click, per axis, and that point is what
    [lastMousePosition] holds afterwards. *)
Theorem humanClick_target :
  forall (page : Page) (selector : string) (config : HumanEmulationConfig)
         (options : option ClickOptions) (w w' : World),
    fair (random_source w) ->
    humanClick page selector config options w = (Resolved tt, w') ->
    exists (element : ElementHandle) (box : BoundingBox.t)
           (targetPoint : Point.t) (before after : list Event),
      dollar (actor_of page) (events w) selector = answers (Some element) /\
      boundingBox (actor_of page) (events w ++ [page_dollar selector]) element
      = answers (Some box) /\
      events w'
      = events w ++ before
        ++ mouse_click (Point.x targetPoint) (Point.y targetPoint)
             (button_or_left options) (clickCount_or_1 options) :: after /\
      (0 <= BoundingBox.width box -> 0 <= BoundingBox.height box ->
       interior box targetPoint) /\
      forall d : Point.t,
        within 1.5 (last (moved_to before) d) targetPoint /\
        integral_point (last (moved_to before) targetPoint) /\
        lastMousePosition w' = last (moved_to before) d.
Proof.
  intros page selector config options w w' Hfair Hrun.
  apply humanClick_resolved in Hrun
    as (element & box & target & moves & h & p
        & Hd & Hb & Hevs & Hlen & _ & Hint & Hlast & _ & _ & Hin & _);
    [| exact Hfair].
  exists element, box, target.
  exists ([page_dollar selector; element_boundingBox element] ++ moves
          ++ [setTimeout h]).
  exists [setTimeout p].
  split; [exact Hd |]. split; [exact Hb |].
  split; [rewrite Hevs, <- !app_assoc; reflexivity |].
  split; [exact Hin |].
  assert (Hmoved : moved_to ([page_dollar selector; element_boundingBox element]
                             ++ moves ++ [setTimeout h])
                   = moved_to moves).
  { cbn [app moved_to]. clear. induction moves as [| e moves IH].
    - reflexivity.
    - destruct e; cbn [app moved_to]; now rewrite ?IH. }
  rewrite Hmoved. intros d. destruct (Hlast d) as [Hnear Hpos].
  split; [exact Hnear |]. split; [| exact Hpos].
  destruct (moved_to moves) as [| p0 ps] eqn:Hm; [discriminate Hlen |].
  rewrite Forall_forall in Hint. apply Hint.
  apply last_in. discriminate.
Qed.

Lemma humanClick_target_witness :
  exists (w' : World) (targetPoint : Point.t) (before after : list Event),
    humanClick (steady_page (BoundingBox.mk 0 0 100 50)) "#go"
      (mkConfig true None None None) None (initial_world (fun _ => 0.5))
    = (Resolved tt, w') /\
    events w'
    = [] ++ before
      ++ mouse_click (Point.x targetPoint) (Point.y targetPoint)
           Button.left 1 :: after /\
    interior (BoundingBox.mk 0 0 100 50) targetPoint /\
    lastMousePosition w' = last (moved_to before) targetPoint.
Proof.
  destruct (completes_humanClick (steady_page (BoundingBox.mk 0 0 100 50))
              "#go" (mkConfig true None None None) None
              (steady_page_responsive _) (initial_world (fun _ => 0.5)))
    as ([] & w' & Hrun).
  destruct (humanClick_target (steady_page (BoundingBox.mk 0 0 100 50))
              "#go" (mkConfig true None None None) None
              (initial_world (fun _ => 0.5)) w')
    as (element & box & target & before & after & _ & Hb & Hevs & Hin & Hlast).
  - intros n. cbn [initial_world random_source]. lra.
  - exact Hrun.
  - injection Hb as <-.
    exists w', target, before, after.
    split; [exact Hrun |]. split; [exact Hevs |].
    split; [apply Hin; cbn; lra | apply Hlast].
Defined.

(** ** The pointer state *)

Lemma keeps_integral_refl (w : World) : keeps_integral w w.
Proof. intros H. exact H. Qed.

Lemma keeps_integral_trans (w1 w2 w3 : World) :
  keeps_integral w1 w2 -> keeps_integral w2 w3 -> keeps_integral w1 w3.
Proof. unfold keeps_integral. auto. Qed.

Lemma same_position_keeps {A : Type} (m : Async A) :
  steps_in same_position m -> steps_in keeps_integral m.
Proof.
  intros Hm w w' o H Hint. apply Hm in H. unfold same_position in H.
  now rewrite H.
Qed.

Lemma steps_in_bind_value {A B : Type} (I : World -> World -> Prop)
    (Q : A -> Prop) (m : Async A) (k : A -> Async B) :
  (forall w1 w2 w3, I w1 w2 -> I w2 w3 -> I w1 w3) ->
  (forall w a w', m w = (Resolved a, w') -> Q a) ->
  steps_in I m ->
  (forall a, Q a -> steps_in I (k a)) ->
  steps_in I (bind m k).
Proof.
  intros Htrans HQ Hm Hk w w' o H. unfold bind in H.
  destruct (m w) as [[a | e] w1] eqn:Em.
  - eapply Htrans; [eapply Hm, Em |].
    eapply (Hk a); [eapply HQ, Em | exact H].
  - injection H as _ <-. eapply Hm, Em.
Qed.

Lemma randomSleep_same_position (min max : R) :
  steps_in same_position (randomSleep min max).
Proof.
  intros w w' o H. rewrite randomSleep_run in H. now injection H as _ <-.
Qed.

Lemma generateMousePath_same_position (start end_ : Point.t) (steps : Z) :
  steps_in same_position (generateMousePath start end_ steps).
Proof.
  intros w w' o H.
  destruct (generateMousePath_run start end_ steps w) as (cp1 & cp2 & _ & Hrun).
  rewrite Hrun in H. now injection H as _ <-.
Qed.

Lemma type_chars_same_position (page : Page) (r : Range.t)
    (text : Text) :
  steps_in same_position (type_chars page r text).
Proof.
  induction text as [| char text IH]; cbn [type_chars].
  - apply steps_in_ret, same_position_refl.
  - apply steps_in_bind;
      [exact same_position_trans | apply perform_same_position | intros _].
    apply steps_in_bind;
      [exact same_position_trans | apply randomBetween_same_position |].
    intros base. apply steps_in_bind; [exact same_position_trans | |].
    + destruct (is_pause_char char).
      * apply steps_in_bind;
          [exact same_position_trans | apply randomBetween_same_position |].
        intros f. apply steps_in_ret, same_position_refl.
      * apply steps_in_ret, same_position_refl.
    + intros delay. apply steps_in_bind;
        [exact same_position_trans | apply sleep_same_position |].
      intros _. exact IH.
Qed.

Lemma scroll_chunks_same_position (page : Page) (scrollDelay : Range.t)
    (sign amount chunkSize : R) (n : nat) :
  forall i : Z,
    steps_in same_position
      (scroll_chunks page scrollDelay sign amount chunkSize n i).
Proof.
  induction n as [| n IH]; intros i; cbn [scroll_chunks].
  - apply steps_in_ret, same_position_refl.
  - apply steps_in_bind;
      [exact same_position_trans | apply perform_same_position | intros _].
    apply steps_in_bind;
      [exact same_position_trans | apply randomSleep_same_position |].
    intros _. apply IH.
Qed.

Lemma humanScroll_same_position (page : Page) (direction : Direction.t)
    (amount : R) (config : HumanEmulationConfig) :
  steps_in same_position (humanScroll page direction amount config).
Proof.
  unfold humanScroll. apply steps_in_bind;
    [exact same_position_trans | apply randomBetween_same_position |].
  intros chunkSize. apply scroll_chunks_same_position.
Qed.

Lemma moveMouseAlongPath_keeps_integral (page : Page) (path : list Point.t)
    (config : HumanEmulationConfig) :
  Forall integral_point path ->
  steps_in keeps_integral (moveMouseAlongPath page path config).
Proof.
  intros Hpath w w' o Hrun Hint. destruct o as [[] | e].
  - destruct path as [| first rest].
    + injection Hrun as <-. exact Hint.
    + rewrite (moveMouseAlongPath_resolved _ _ _ _ _ Hrun) with (d := first)
        by discriminate.
      rewrite Forall_forall in Hpath. apply Hpath, last_in. discriminate.
  - unfold moveMouseAlongPath in Hrun.
    apply bind_rejected in Hrun as [Hrun | ([] & w1 & _ & Hset)].
    + apply move_points_same_position in Hrun. unfold same_position in Hrun.
      now rewrite Hrun.
    + destruct path; discriminate Hset.
Qed.

Lemma humanClick_keeps_integral (page : Page) (selector : string)
    (config : HumanEmulationConfig) (options : option ClickOptions) :
  steps_in keeps_integral (humanClick page selector config options).
Proof.
  unfold humanClick.
  apply steps_in_bind; [exact keeps_integral_trans | |].
  { apply same_position_keeps, page_query_same_position. }
  intros [element |]; [| apply steps_in_throw, keeps_integral_refl].
  apply steps_in_bind; [exact keeps_integral_trans | |].
  { apply same_position_keeps, getRandomPointInElement_same_position. }
  intros targetPoint.
  apply steps_in_bind; [exact keeps_integral_trans | |].
  { apply same_position_keeps. intros w w' o H. now injection H as _ <-. }
  intros start.
  apply (steps_in_bind_value keeps_integral (Forall integral_point));
    [exact keeps_integral_trans | | |].
  - intros w path w' H.
    apply generateMousePath_resolved in H as (_ & _ & Hint & _);
      [exact Hint | unfold DEFAULTS.moveSteps; lia].
  - apply same_position_keeps, generateMousePath_same_position.
  - intros path Hpath.
    apply steps_in_bind; [exact keeps_integral_trans | |].
    + now apply moveMouseAlongPath_keeps_integral.
    + intros _. apply same_position_keeps, after_the_move_same_position.
Qed.

(** X11: [lastMousePosition] always holds integer coordinates: it starts at
    (100, 100), and [humanClick], [humanType], [humanFill] and [humanScroll]
    leave it on integer coordinates whether they complete or reject. *)
Theorem lastMousePosition_integral :
  forall (page : Page) (selector : string) (text : Text)
         (config : HumanEmulationConfig) (options : option ClickOptions)
         (type_options : option TypeOptions) (direction : Direction.t)
         (amount : R) (source : nat -> R),
    integral_point (lastMousePosition (initial_world source)) /\
    steps_in keeps_integral (humanClick page selector config options) /\
    steps_in keeps_integral
      (humanType page selector text config type_options) /\
    steps_in keeps_integral (humanFill page selector text config) /\
    steps_in keeps_integral (humanScroll page direction amount config).
Proof.
  intros page selector text config options type_options direction amount
    source.
  split.
  { exists 100%Z, 100%Z. split; reflexivity. }
  split; [apply humanClick_keeps_integral |].
  split.
  { unfold humanType.
    apply steps_in_bind;
      [exact keeps_integral_trans | apply humanClick_keeps_integral |].
    intros _. apply same_position_keeps.
    apply steps_in_bind;
      [exact same_position_trans | apply randomSleep_same_position |].
    intros _. apply type_chars_same_position. }
  split.
  { unfold humanFill.
    apply steps_in_bind;
      [exact keeps_integral_trans | apply humanClick_keeps_integral |].
    intros _. apply same_position_keeps.
    apply steps_in_bind;
      [exact same_position_trans | apply perform_same_position | intros _].
    apply steps_in_bind;
      [exact same_position_trans | apply randomSleep_same_position |].
    intros _.
    apply steps_in_bind;
      [exact same_position_trans | apply perform_same_position | intros _].
    apply steps_in_bind;
      [exact same_position_trans | apply randomSleep_same_position |].
    intros _. apply type_chars_same_position. }
  apply same_position_keeps, humanScroll_same_position.
Qed.

Lemma lastMousePosition_integral_witness :
  exists w' : World,
    humanClick (steady_page (BoundingBox.mk 0 0 100 50)) "#go"
      (mkConfig true None None None) None (initial_world (fun _ => 0.5))
    = (Resolved tt, w') /\
    integral_point (lastMousePosition w').
Proof.
  destruct (completes_humanClick (steady_page (BoundingBox.mk 0 0 100 50))
              "#go" (mkConfig true None None None) None
              (steady_page_responsive _) (initial_world (fun _ => 0.5)))
    as ([] & w' & Hrun).
  destruct (lastMousePosition_integral
              (steady_page (BoundingBox.mk 0 0 100 50)) "#go" (text_of "Ada")
              (mkConfig true None None None) None None Direction.down 300
              (fun _ => 0.5)) as (Hinit & Hclick & _).
  exists w'. split; [exact Hrun |].
  exact (Hclick _ _ _ Hrun Hinit).
Defined.

(** ** What gets typed *)

Lemma typed_text_app (a b : list Event) :
  typed_text (a ++ b) = typed_text a ++ typed_text b.
Proof.
  induction a as [| e a IH]; [reflexivity |].
  destruct e; cbn [app typed_text]; rewrite ?IH; try reflexivity.
  clear. induction text as [| c text IHt]; [reflexivity |].
  cbn. now rewrite IHt.
Qed.

Lemma typed_text_quiet (evs : list Event) :
  Forall not_keystroke evs -> typed_text evs = [].
Proof.
  induction 1 as [| e evs He _ IH]; [reflexivity |].
  destruct e; cbn in *; try exact IH. contradiction.
Qed.

Lemma typing_trace_text (r : Range.t) (chars : Text)
    (typed : list Event) :
  typing_trace r chars typed ->
  (exists rest : Text, chars = typed_text typed ++ rest) /\
  (List.length typed = (2 * List.length chars)%nat ->
   typed_text typed = chars).
Proof.
  induction 1 as [text | char text | char text base factor evs _ _ _ IH].
  - split.
    + now exists text.
    + destruct text; [reflexivity | discriminate].
  - split.
    + now exists text.
    + cbn [List.length]. lia.
  - destruct IH as [(rest & Hrest) Hfull]. split.
    + exists rest. cbn. now rewrite Hrest.
    + cbn [List.length]. intros Hlen. cbn. rewrite Hfull by lia. reflexivity.
Qed.

Lemma typed_after_prelude (page : Page) (r : Range.t) (text : Text)
    (before : Async unit) (w w' : World) (o : Outcome unit) :
  fair (random_source w) ->
  steps_in quiet before ->
  (before ;;; type_chars page r text) w = (o, w') ->
  exists evs : list Event,
    events w' = events w ++ evs /\
    (exists rest : Text, text = typed_text evs ++ rest) /\
    (o = Resolved tt -> typed_text evs = text).
Proof.
  intros Hfair Hquiet Hrun.
  destruct (typing_after_prelude _ _ _ _ _ _ _ Hfair Hquiet Hrun)
    as (head & typed & Hevs & Hhead & Htrace & Hlen).
  apply typing_trace_text in Htrace as [(rest & Hrest) Hfull].
  exists (head ++ typed). split; [exact Hevs |].
  rewrite typed_text_app, (typed_text_quiet head Hhead). cbn [app].
  split; [now exists rest |].
  intros Ho. apply Hfull, Hlen, Ho.
Qed.

(** X12: what [humanType] and [humanFill] send through [keyboard.type] is
    the text itself: the characters typed in a run that completes,
    concatenated in order, are [text]; in a run cut short they are a
    beginning of [text]. *)
Theorem typed_text_is_text :
  forall (page : Page) (selector : string) (text : Text)
         (config : HumanEmulationConfig) (options : option TypeOptions)
         (w : World),
    fair (random_source w) ->
    typed_in text w (humanType page selector text config options w) /\
    typed_in text w (humanFill page selector text config w).
Proof.
  intros page selector text config options w Hfair.
  unfold typed_in. split.
  - destruct (humanType page selector text config options w) as [o w'] eqn:Hrun.
    rewrite humanType_split in Hrun. cbn [fst snd].
    eapply typed_after_prelude; [exact Hfair | | exact Hrun].
    apply steps_in_bind; [exact quiet_trans | apply humanClick_quiet |].
    intros _. apply randomSleep_quiet.
  - destruct (humanFill page selector text config w) as [o w'] eqn:Hrun.
    rewrite humanFill_split in Hrun. cbn [fst snd].
    eapply typed_after_prelude; [exact Hfair | | exact Hrun].
    unfold fill_prelude.
    apply steps_in_bind; [exact quiet_trans | apply humanClick_quiet |].
    intros _. quiet_steps.
Qed.

Lemma typed_text_is_text_witness :
  exists (w' : World) (evs : list Event),
    humanFill (steady_page (BoundingBox.mk 0 0 100 50)) "#name"
      (text_of "Hi, Ada.")
      (mkConfig true None None None) (initial_world (fun _ => 0.5))
    = (Resolved tt, w') /\
    events w' = [] ++ evs /\
    typed_text evs = text_of "Hi, Ada.".
Proof.
  destruct (completes_humanFill (steady_page (BoundingBox.mk 0 0 100 50))
              "#name" (text_of "Hi, Ada.") (mkConfig true None None None)
              (steady_page_responsive _) (initial_world (fun _ => 0.5)))
    as ([] & w' & Hrun).
  assert (Hfair : fair (random_source (initial_world (fun _ => 0.5)))).
  { intros n. cbn [initial_world random_source]. lra. }
  destruct (typed_text_is_text (steady_page (BoundingBox.mk 0 0 100 50))
              "#name" (text_of "Hi, Ada.") (mkConfig true None None None) None
              (initial_world (fun _ => 0.5)) Hfair) as (_ & Hfill).
  unfold typed_in in Hfill. rewrite Hrun in Hfill.
  destruct Hfill as (evs & Hevs & _ & Hall).
  exists w', evs. exact (conj Hrun (conj Hevs (Hall eq_refl))).
Defined.

Lemma adds_weaken (P Q : Event -> Prop) (w w' : World) :
  (forall e, P e -> Q e) -> adds P w w' -> adds Q w w'.
Proof.
  intros HPQ (evs & Hevs & HP). exists evs. split; [exact Hevs |].
  eapply Forall_impl; [exact HPQ | exact HP].
Qed.

Lemma adds_silent (P : Event -> Prop) (w w' : World) :
  events w' = events w -> adds P w w'.
Proof. intros H. exists []. now rewrite app_nil_r. Qed.

Lemma randomSleep_adds (P : Event -> Prop) (min max : R) :
  (forall ms, P (setTimeout ms)) -> steps_in (adds P) (randomSleep min max).
Proof.
  intros HP w w' o H. rewrite randomSleep_run in H. injection H as _ <-.
  exists [setTimeout (random_source w (draws w) * (max - min) + min)].
  split; [reflexivity | constructor; [apply HP | constructor]].
Qed.

Lemma humanClick_adds (page : Page) (selector : string)
    (config : HumanEmulationConfig) (options : option ClickOptions) :
  steps_in (adds click_event) (humanClick page selector config options).
Proof.
  unfold humanClick. apply steps_in_bind; [apply adds_trans | |].
  { intros w w' o H. injection H as _ <-. now apply adds_log. }
  intros [element |]; [| apply steps_in_throw, adds_refl].
  apply steps_in_bind; [apply adds_trans | |].
  { unfold getRandomPointInElement.
    apply steps_in_bind; [apply adds_trans | |].
    { intros w w' o H. injection H as _ <-. now apply adds_log. }
    intros [box |]; [| apply steps_in_throw, adds_refl].
    apply steps_in_bind; [apply adds_trans | apply randomBetween_adds |].
    intros rx.
    apply steps_in_bind; [apply adds_trans | apply randomBetween_adds |].
    intros ry. apply steps_in_ret, adds_refl. }
  intros targetPoint.
  apply steps_in_bind; [apply adds_trans | |].
  { intros w w' o H. injection H as _ <-. apply adds_refl. }
  intros start.
  apply steps_in_bind; [apply adds_trans | |].
  { intros w w' o H. apply adds_silent.
    destruct (generateMousePath_run start targetPoint DEFAULTS.moveSteps w)
      as (cp1 & cp2 & _ & Hrun).
    rewrite Hrun in H. now injection H as _ <-. }
  intros path.
  apply steps_in_bind; [apply adds_trans | |].
  { intros w w' o H. apply moveMouseAlongPath_adds in H.
    eapply adds_weaken; [| exact H]. intros []; cbn; tauto. }
  intros _.
  apply steps_in_bind; [apply adds_trans | now apply randomSleep_adds |].
  intros _.
  apply steps_in_bind; [apply adds_trans | now apply perform_adds |].
  intros _. now apply randomSleep_adds.
Qed.

Lemma typing_trace_events (r : Range.t) (chars : Text)
    (typed : list Event) :
  typing_trace r chars typed -> Forall keystroke_or_wait typed.
Proof.
  induction 1; repeat constructor. assumption.
Qed.

(** X13: [humanFill] clears the field before it types: in a run that
    completes, after the events of the click come [Control+a], a wait of 50
    to 100 ms, [Backspace] and a wait of 100 to 200 ms, and only then the
    keystrokes; no key is pressed during the click and none but the typed
    characters afterwards. *)
Theorem humanFill_clears_first :
  forall (page : Page) (selector : string) (text : Text)
         (config : HumanEmulationConfig) (w w' : World),
    fair (random_source w) ->
    humanFill page selector text config w = (Resolved tt, w') ->
    exists (clicked typed : list Event) (a b : R),
      events w'
      = events w ++ clicked
        ++ [keyboard_press "Control+a"; setTimeout a;
            keyboard_press "Backspace"; setTimeout b]
        ++ typed /\
      Forall click_event clicked /\
      Forall keystroke_or_wait typed /\
      typed_text typed = text /\
      50 <= a <= 100 /\
      100 <= b <= 200.
Proof.
  intros page selector text config w w' Hfair Hrun.
  unfold humanFill in Hrun.
  apply bind_resolved in Hrun as ([] & w1 & Hclick & Hrun).
  pose proof (humanClick_adds _ _ _ _ _ _ _ Hclick) as (clicked & Hc & Hkind).
  apply humanClick_quiet in Hclick as (Hsrc & _).
  apply bind_resolved in Hrun as ([] & w2 & Hp1 & Hrun).
  apply perform_world in Hp1. subst w2.
  rewrite (bind_run _ _ _ _ _ (randomSleep_run _ _ _)) in Hrun.
  apply bind_resolved in Hrun as ([] & w3 & Hp2 & Hrun).
  apply perform_world in Hp2. subst w3.
  rewrite (bind_run _ _ _ _ _ (randomSleep_run _ _ _)) in Hrun.
  apply type_chars_trace in Hrun as (typed & Hevs & Htrace & Hlen).
  2:{ cbn [log tick random_source]. now rewrite Hsrc. }
  cbn [log tick events random_source draws] in *.
  exists clicked, typed. eexists. eexists.
  split.
  { rewrite Hevs, Hc, <- !app_assoc. reflexivity. }
  split; [exact Hkind |].
  split; [now apply typing_trace_events in Htrace |].
  split.
  { apply typing_trace_text in Htrace as [_ Hfull].
    exact (Hfull (Hlen eq_refl)). }
  rewrite Hsrc.
  pose proof (Hfair (draws w1)). pose proof (Hfair (S (draws w1))).
  split; lra.
Qed.

Lemma humanFill_clears_first_witness :
  exists (w' : World) (clicked typed : list Event) (a b : R),
    humanFill (steady_page (BoundingBox.mk 0 0 100 50)) "#name"
      (text_of "Hi, Ada.")
      (mkConfig true None None None) (initial_world (fun _ => 0.5))
    = (Resolved tt, w') /\
    events w'
    = [] ++ clicked
      ++ [keyboard_press "Control+a"; setTimeout a;
          keyboard_press "Backspace"; setTimeout b]
      ++ typed /\
    typed_text typed = text_of "Hi, Ada.".
Proof.
  destruct (completes_humanFill (steady_page (BoundingBox.mk 0 0 100 50))
              "#name" (text_of "Hi, Ada.") (mkConfig true None None None)
              (steady_page_responsive _) (initial_world (fun _ => 0.5)))
    as ([] & w' & Hrun).
  destruct (humanFill_clears_first (steady_page (BoundingBox.mk 0 0 100 50))
              "#name" (text_of "Hi, Ada.") (mkConfig true None None None)
              (initial_world (fun _ => 0.5)) w')
    as (clicked & typed & a & b & Hevs & _ & _ & Htext & _).
  - intros n. cbn [initial_world random_source]. lra.
  - exact Hrun.
  - exists w', clicked, typed, a, b. exact (conj Hrun (conj Hevs Htext)).
Defined.

(** ** More on scrolling *)

Lemma grows_refl (P : Event -> Prop) (w : World) : grows P w w.
Proof. split; [reflexivity | apply adds_refl]. Qed.

Lemma grows_trans (P : Event -> Prop) (w1 w2 w3 : World) :
  grows P w1 w2 -> grows P w2 w3 -> grows P w1 w3.
Proof.
  intros [S1 A1] [S2 A2]. split; [congruence | eapply adds_trans; eassumption].
Qed.

Lemma scroll_chunks_events (page : Page) (r : Range.t)
    (sign amount chunkSize : R) (source : nat -> R) (n : nat) :
  fair source ->
  Range.min r <= Range.max r ->
  forall (i : Z) (w w' : World) (o : Outcome unit),
    random_source w = source ->
    scroll_chunks page r sign amount chunkSize n i w = (o, w') ->
    grows (scroll_event r) w w'.
Proof.
  intros Hfair Hr. induction n as [| n IH]; intros i w w' o Hsrc Hrun.
  - injection Hrun as _ <-. apply grows_refl.
  - cbn [scroll_chunks] in Hrun.
    apply bind_inv in Hrun as [(e & Hwheel & _) | ([] & w1 & Hwheel & Hrun)];
      apply perform_world in Hwheel; subst.
    + split; [reflexivity |]. now apply adds_log.
    + rewrite (bind_run _ _ _ _ _ (randomSleep_run _ _ _)) in Hrun.
      apply IH in Hrun; [| reflexivity].
      eapply grows_trans; [| exact Hrun].
      split; [reflexivity |].
      eexists [_; _]. split; [cbn [log tick events]; now rewrite <- app_assoc |].
      constructor; [reflexivity |]. constructor; [| constructor].
      cbn [log random_source draws scroll_event].
      apply randomBetween_range; [apply Hfair | exact Hr].
Qed.

(** X14: [humanScroll] turns the wheel and waits, nothing else: whether it
    completes or is cut short, every event it adds is a vertical wheel
    event ([deltaX = 0]) or a wait within the configured [scrollDelay] range
    (50 to 100 ms when absent), and [lastMousePosition] is not touched. *)
Theorem humanScroll_frame :
  forall (page : Page) (direction : Direction.t) (amount : R)
         (config : HumanEmulationConfig) (w w' : World) (o : Outcome unit),
    let r := or_default (scrollDelay config) DEFAULTS.scrollDelay in
    fair (random_source w) ->
    Range.min r <= Range.max r ->
    humanScroll page direction amount config w = (o, w') ->
    lastMousePosition w' = lastMousePosition w /\
    exists evs : list Event,
      events w' = events w ++ evs /\ Forall (scroll_event r) evs.
Proof.
  intros page direction amount config w w' o r Hfair Hr Hrun.
  split; [exact (humanScroll_same_position _ _ _ _ _ _ _ Hrun) |].
  unfold humanScroll in Hrun. fold r in Hrun.
  rewrite (bind_run _ _ _ _ _ (randomBetween_run _ _ _)) in Hrun.
  apply (scroll_chunks_events _ _ _ _ _ (random_source w)) in Hrun
    as [_ Hadds]; [exact Hadds | exact Hfair | exact Hr | reflexivity].
Qed.

Lemma humanScroll_frame_witness :
  exists (w' : World) (evs : list Event),
    humanScroll (steady_page (BoundingBox.mk 0 0 100 50)) Direction.up 300
      (mkConfig true None None None) (initial_world (fun _ => 0.7))
    = (Resolved tt, w') /\
    lastMousePosition w' = Point.mk 100 100 /\
    events w' = [] ++ evs /\
    Forall (scroll_event DEFAULTS.scrollDelay) evs.
Proof.
  destruct (humanScroll_completes (steady_page (BoundingBox.mk 0 0 100 50))
              Direction.up 300 (mkConfig true None None None)
              (initial_world (fun _ => 0.7))
              (steady_page_accepting _)) as [w' Hrun].
  destruct (humanScroll_frame (steady_page (BoundingBox.mk 0 0 100 50))
              Direction.up 300 (mkConfig true None None None)
              (initial_world (fun _ => 0.7)) w' (Resolved tt))
    as (Hpos & evs & Hevs & Hkind).
  - intros n. cbn [initial_world random_source]. lra.
  - cbn [or_default scrollDelay DEFAULTS.scrollDelay Range.min Range.max]. lra.
  - exact Hrun.
  - exists w', evs. exact (conj Hrun (conj Hpos (conj Hevs Hkind))).
Defined.

(** X15: a scroll by nothing, or by a negative amount, does nothing: no
    wheel event, no wait, and it completes whatever the page would answer;
    only the chunk size is drawn. *)
Theorem humanScroll_nothing :
  forall (page : Page) (direction : Direction.t) (amount : R)
         (config : HumanEmulationConfig) (w : World),
    fair (random_source w) ->
    amount <= 0 ->
    humanScroll page direction amount config w = (Resolved tt, tick w).
Proof.
  intros page direction amount config w Hfair Ha. unfold humanScroll.
  rewrite (bind_run _ _ _ _ _ (randomBetween_run _ _ _)).
  pose proof (Hfair (draws w)) as Hu.
  set (chunkSize := random_source w (draws w) * (150 - 50) + 50).
  assert (Hc : 0 < chunkSize) by (unfold chunkSize; lra).
  assert (Hq : amount / chunkSize <= 0).
  { unfold Rdiv. assert (0 < / chunkSize) by now apply Rinv_0_lt_compat. nra. }
  assert (Hn : (Math_ceil (amount / chunkSize) <= 0)%Z).
  { unfold Math_ceil. pose proof (Zceil_bound (amount / chunkSize)) as Hb.
    apply Z.lt_succ_r. apply lt_IZR. rewrite succ_IZR. lra. }
  replace (Z.to_nat (Math_ceil (amount / chunkSize))) with 0%nat by lia.
  reflexivity.
Qed.

Lemma humanScroll_nothing_witness :
  humanScroll empty_page Direction.down 0 (mkConfig true None None None)
    (initial_world (fun _ => 0.7))
  = (Resolved tt, tick (initial_world (fun _ => 0.7))).
Proof.
  apply (humanScroll_nothing empty_page Direction.down 0
           (mkConfig true None None None) (initial_world (fun _ => 0.7))).
  - intros n. cbn [initial_world random_source]. lra.
  - lra.
Defined.

(** X16: no chunk turns the wheel backwards or by more than the chunk
    size: in a scroll that runs to its end every delta is [c] (for
    ['down']) or [-c] (for ['up']) with [0 <= c <= chunkSize], and
    [chunkSize] lies between 50 and 150; a scroll by at least one unit
    turns the wheel at least once. *)
Theorem humanScroll_chunk_sizes :
  forall (page : Page) (direction : Direction.t) (amount : R)
         (config : HumanEmulationConfig) (w w' : World),
    fair (random_source w) ->
    humanScroll page direction amount config w = (Resolved tt, w') ->
    let chunkSize := random_source w (draws w) * (150 - 50) + 50 in
    let sign :=
      match direction with Direction.down => 1 | Direction.up => -1 end in
    exists evs : list Event,
      events w' = events w ++ evs /\
      (1 <= amount -> wheel_deltas evs <> []) /\
      50 <= chunkSize <= 150 /\
      Forall (fun delta => exists c : R,
                  delta = c * sign /\ 0 <= c <= chunkSize)
        (wheel_deltas evs).
Proof.
  intros page direction amount config w w' Hfair Hrun chunkSize sign.
  unfold humanScroll in Hrun.
  rewrite (bind_run _ _ _ _ _ (randomBetween_run _ _ _)) in Hrun.
  fold chunkSize sign in Hrun.
  pose proof (Hfair (draws w)) as Hu.
  assert (Hc : 50 <= chunkSize <= 150) by (unfold chunkSize; lra).
  pose proof (Zceil_bound (amount / chunkSize)) as Hceil.
  unfold Math_ceil in Hrun.
  set (chunks := Zceil (amount / chunkSize)) in *.
  assert (Heq : amount = amount / chunkSize * chunkSize) by (field; lra).
  apply (scroll_chunks_resolved _ _ _ _ _ _ 0%nat) in Hrun
    as (evs & Hevs & Hdeltas).
  cbn [tick events] in Hevs. cbn [Nat.add] in Hdeltas.
  exists evs. split; [exact Hevs |]. rewrite Hdeltas.
  split.
  { intros Ha.
    assert (Hq : 0 < amount / chunkSize).
    { unfold Rdiv. apply Rmult_lt_0_compat; [lra |].
      apply Rinv_0_lt_compat. lra. }
    assert (Hchunks : (1 <= chunks)%Z).
    { apply Z.lt_pred_le. apply lt_IZR. cbn. lra. }
    destruct (Z.to_nat chunks) eqn:Hn; [lia | discriminate]. }
  split; [exact Hc |].
  apply Forall_forall. intros delta Hin.
  apply in_map_iff in Hin as (k & <- & Hk). apply in_seq in Hk.
  exists (chunk amount chunkSize k). split; [reflexivity |].
  unfold chunk. split.
  - apply Rmin_glb; [lra |].
    assert (Hk' : INR k <= IZR chunks - 1).
    { rewrite INR_IZR_INZ, <- minus_IZR. apply IZR_le. lia. }
    nra.
  - apply Rmin_l.
Qed.

Lemma humanScroll_chunk_sizes_witness :
  exists (w' : World) (evs : list Event),
    humanScroll (steady_page (BoundingBox.mk 0 0 100 50)) Direction.up 300
      (mkConfig true None None None) (initial_world (fun _ => 0.7))
    = (Resolved tt, w') /\
    events w' = [] ++ evs /\
    wheel_deltas evs <> [] /\
    Forall (fun delta => exists c : R,
                delta = c * -1 /\ 0 <= c <= 0.7 * (150 - 50) + 50)
      (wheel_deltas evs).
Proof.
  destruct (humanScroll_completes (steady_page (BoundingBox.mk 0 0 100 50))
              Direction.up 300 (mkConfig true None None None)
              (initial_world (fun _ => 0.7))
              (steady_page_accepting _)) as [w' Hrun].
  destruct (humanScroll_chunk_sizes (steady_page (BoundingBox.mk 0 0 100 50))
              Direction.up 300 (mkConfig true None None None)
              (initial_world (fun _ => 0.7)) w')
    as (evs & Hevs & Hne & _ & Hall).
  - intros n. cbn [initial_world random_source]. lra.
  - exact Hrun.
  - exists w', evs.
    refine (conj Hrun (conj Hevs (conj (Hne _) Hall))). lra.
Defined.

(** ** Rejected calls *)

Lemma unchanged_trace (l pre post : list Event) (e : Event) :
  l = l ++ pre ++ e :: post -> False.
Proof.
  intros H. apply (f_equal (@List.length Event)) in H.
  rewrite !List.length_app in H. cbn [List.length] in H. lia.
Qed.

Lemma one_more_event (l pre post : list Event) (e e0 : Event) :
  l ++ [e0] = l ++ pre ++ e :: post -> pre = [] /\ e = e0 /\ post = [].
Proof.
  intros H. apply app_inv_head in H.
  destruct pre as [| x pre].
  - injection H as -> <-. now repeat split.
  - injection H as _ H. destruct pre; discriminate H.
Qed.

Lemma orderly_bind {A B : Type} (page : Page) (m : Async A)
    (k : A -> Async B) :
  orderly page m -> (forall a, orderly page (k a)) -> orderly page (bind m k).
Proof.
  intros (Hm & Nm & Sm) Hk. split; [| split].
  - apply steps_in_bind; [apply adds_trans | exact Hm |].
    intros a. apply Hk.
  - intros w w' o pre e post reason Hrun Hevs Hrej.
    unfold bind in Hrun. destruct (m w) as [[a | r] w1] eqn:Hfirst.
    + destruct (Hm _ _ _ Hfirst) as (evs1 & Hevs1 & _).
      destruct (Hk a) as (Ak & Nk & _).
      destruct (Ak _ _ _ Hrun) as (evs2 & Hevs2 & _).
      rewrite Hevs2, Hevs1, <- app_assoc in Hevs. apply app_inv_head in Hevs.
      apply app_eq_app in Hevs as (l & [[H1 H2] | [H1 H2]]).
      * destruct l as [| x l].
        -- cbn [app] in H2. rewrite app_nil_r in H1. subst pre.
           apply (Nk w1 w' o [] e post reason Hrun).
           ++ now rewrite Hevs2, <- H2.
           ++ now rewrite app_nil_r, Hevs1.
        -- injection H2 as <- _.
           destruct (Nm w w1 (Resolved a) pre e l reason Hfirst) as [_ Habs].
           ++ now rewrite Hevs1, H1.
           ++ exact Hrej.
           ++ discriminate Habs.
      * apply (Nk w1 w' o l e post reason Hrun).
        -- now rewrite Hevs2, H2.
        -- now rewrite Hevs1, <- app_assoc, <- H1.
    + injection Hrun as <- <-.
      destruct (Nm w w1 (Rejected r) pre e post reason Hfirst Hevs Hrej)
        as [Hpost Hr].
      split; [exact Hpost |]. injection Hr as ->. reflexivity.
  - intros w w' reason Hrun.
    apply bind_rejected in Hrun as [Hrun | (a & w1 & Hfirst & Hrun)].
    + now apply Sm.
    + destruct (Hm _ _ _ Hfirst) as (evs1 & Hevs1 & _).
      apply (proj2 (proj2 (Hk a))) in Hrun as (evs & e & Hevs & Hrej).
      exists (evs1 ++ evs), e. rewrite Hevs, Hevs1, <- !app_assoc.
      split; [reflexivity |]. now rewrite app_assoc, <- Hevs1.
Qed.

Lemma orderly_silent {A : Type} (page : Page) (m : Async A) :
  (forall w, exists a w', m w = (Resolved a, w') /\ events w' = events w) ->
  orderly page m.
Proof.
  intros H. split; [| split].
  - intros w w' o Hrun. destruct (H w) as (a & w1 & Hm & He).
    rewrite Hm in Hrun. injection Hrun as _ <-. now apply adds_silent.
  - intros w w' o pre e post reason Hrun Hevs _.
    destruct (H w) as (a & w1 & Hm & He).
    rewrite Hm in Hrun. injection Hrun as _ <-. rewrite He in Hevs.
    now apply unchanged_trace in Hevs.
  - intros w w' reason Hrun. destruct (H w) as (a & w1 & Hm & _).
    rewrite Hm in Hrun. discriminate Hrun.
Qed.

Lemma orderly_ret {A : Type} (page : Page) (a : A) : orderly page (ret a).
Proof. apply orderly_silent. intros w. now exists a, w. Qed.

Lemma orderly_throw {A : Type} (page : Page) (message : string) :
  orderly page (@throw A (Error message)).
Proof.
  split; [| split].
  - apply steps_in_throw, adds_refl.
  - intros w w' o pre e post reason Hrun Hevs _.
    injection Hrun as _ <-. now apply unchanged_trace in Hevs.
  - intros w w' reason H. discriminate H.
Qed.

Lemma orderly_randomBetween (page : Page) (min max : R) :
  orderly page (randomBetween min max).
Proof.
  apply orderly_silent. intros w. eexists. eexists.
  split; [apply randomBetween_run | reflexivity].
Qed.

Lemma orderly_sleep (page : Page) (ms : R) : orderly page (sleep ms).
Proof.
  split; [| split].
  - now apply sleep_adds.
  - intros w w' o pre e post reason Hrun Hevs Hrej.
    injection Hrun as _ <-. cbn [log events] in Hevs.
    apply one_more_event in Hevs as (-> & -> & _). contradiction Hrej.
  - intros w w' reason H. discriminate H.
Qed.

Lemma orderly_randomSleep (page : Page) (min max : R) :
  orderly page (randomSleep min max).
Proof.
  unfold randomSleep. apply orderly_bind; [apply orderly_randomBetween |].
  intros ms. apply orderly_sleep.
Qed.

Lemma orderly_perform (page : Page) (e : Event) :
  match e with
  | page_dollar _ | element_boundingBox _ | setTimeout _ => False
  | _ => True
  end ->
  orderly page (perform page e).
Proof.
  intros He. split; [| split].
  - now apply perform_adds.
  - intros w w' o pre e0 post reason Hrun Hevs Hrej. unfold perform in Hrun.
    injection Hrun as <- <-. cbn [log events] in Hevs.
    apply one_more_event in Hevs as (-> & -> & ->).
    rewrite app_nil_r in Hrej. split; [reflexivity |].
    destruct e; cbn [rejected_by] in Hrej; try contradiction;
      now rewrite Hrej.
  - intros w w' reason H. unfold perform in H.
    injection H as Hans <-. exists [], e. rewrite app_nil_r.
    split; [reflexivity |].
    destruct (void_call (actor_of page) (events w) e) as [[] | r] eqn:Hv;
      [discriminate Hans |].
    cbn [await] in Hans. injection Hans as ->.
    destruct e; cbn [rejected_by]; try exact Hv; contradiction.
Qed.

Lemma orderly_page_query (page : Page) (selector : string) :
  orderly page (page_query page selector).
Proof.
  split; [| split].
  - intros w w' o H. injection H as _ <-. now apply adds_log.
  - intros w w' o pre e post reason Hrun Hevs Hrej. unfold page_query in Hrun.
    injection Hrun as <- <-. cbn [log events] in Hevs.
    apply one_more_event in Hevs as (-> & -> & ->).
    rewrite app_nil_r in Hrej. cbn [rejected_by] in Hrej.
    now rewrite Hrej.
  - intros w w' reason H. unfold page_query in H.
    injection H as Hans <-. exists [], (page_dollar selector).
    rewrite app_nil_r. split; [reflexivity |]. cbn [rejected_by].
    destruct (dollar (actor_of page) (events w) selector) as [v | r];
      [discriminate Hans |].
    cbn [await] in Hans. now injection Hans as ->.
Qed.

Lemma orderly_element_box (page : Page) (element : ElementHandle) :
  orderly page (element_box page element).
Proof.
  split; [| split].
  - intros w w' o H. injection H as _ <-. now apply adds_log.
  - intros w w' o pre e post reason Hrun Hevs Hrej. unfold element_box in Hrun.
    injection Hrun as <- <-. cbn [log events] in Hevs.
    apply one_more_event in Hevs as (-> & -> & ->).
    rewrite app_nil_r in Hrej. cbn [rejected_by] in Hrej.
    now rewrite Hrej.
  - intros w w' reason H. unfold element_box in H.
    injection H as Hans <-. exists [], (element_boundingBox element).
    rewrite app_nil_r. split; [reflexivity |]. cbn [rejected_by].
    destruct (boundingBox (actor_of page) (events w) element) as [v | r];
      [discriminate Hans |].
    cbn [await] in Hans. now injection Hans as ->.
Qed.

Lemma orderly_generateMousePath (page : Page) (start end_ : Point.t)
    (steps : Z) :
  orderly page (generateMousePath start end_ steps).
Proof.
  apply orderly_silent. intros w.
  destruct (generateMousePath_run start end_ steps w) as (cp1 & cp2 & _ & Hrun).
  eexists. eexists. split; [exact Hrun | reflexivity].
Qed.

Lemma orderly_move_points (page : Page) (speed : Range.t)
    (rest : list Point.t) :
  forall prev : option Point.t, orderly page (move_points page speed prev rest).
Proof.
  induction rest as [| point rest IH]; intros prev; cbn [move_points].
  - apply orderly_ret.
  - apply orderly_bind.
    + destruct prev as [prev |]; [| apply orderly_ret].
      apply orderly_bind; [apply orderly_randomBetween |].
      intros s. apply orderly_sleep.
    + intros _. apply orderly_bind; [now apply orderly_perform |].
      intros _. apply IH.
Qed.

Lemma orderly_moveMouseAlongPath (page : Page) (path : list Point.t)
    (config : HumanEmulationConfig) :
  orderly page (moveMouseAlongPath page path config).
Proof.
  unfold moveMouseAlongPath. apply orderly_bind; [apply orderly_move_points |].
  intros _. destruct path; [apply orderly_ret |].
  apply orderly_silent. intros w. eexists. eexists.
  split; reflexivity.
Qed.

Lemma orderly_humanClick (page : Page) (selector : string)
    (config : HumanEmulationConfig) (options : option ClickOptions) :
  orderly page (humanClick page selector config options).
Proof.
  unfold humanClick. apply orderly_bind; [apply orderly_page_query |].
  intros [element |]; [| apply orderly_throw].
  apply orderly_bind.
  { unfold getRandomPointInElement.
    apply orderly_bind; [apply orderly_element_box |].
    intros [box |]; [| apply orderly_throw].
    apply orderly_bind; [apply orderly_randomBetween | intros rx].
    apply orderly_bind; [apply orderly_randomBetween | intros ry].
    apply orderly_ret. }
  intros targetPoint.
  apply orderly_bind.
  { apply orderly_silent. intros w. eexists. eexists. split; reflexivity. }
  intros start.
  apply orderly_bind; [apply orderly_generateMousePath | intros path].
  apply orderly_bind; [apply orderly_moveMouseAlongPath | intros _].
  apply orderly_bind; [apply orderly_randomSleep | intros _].
  apply orderly_bind; [now apply orderly_perform | intros _].
  apply orderly_randomSleep.
Qed.

Lemma orderly_type_chars (page : Page) (r : Range.t) (text : Text) :
  orderly page (type_chars page r text).
Proof.
  induction text as [| char text IH]; cbn [type_chars].
  - apply orderly_ret.
  - apply orderly_bind; [now apply orderly_perform | intros _].
    apply orderly_bind; [apply orderly_randomBetween | intros base].
    apply orderly_bind.
    + destruct (is_pause_char char); [| apply orderly_ret].
      apply orderly_bind; [apply orderly_randomBetween | intros f].
      apply orderly_ret.
    + intros delay. apply orderly_bind; [apply orderly_sleep | intros _].
      exact IH.
Qed.

Lemma orderly_scroll_chunks (page : Page) (r : Range.t)
    (sign amount chunkSize : R) (n : nat) :
  forall i : Z, orderly page (scroll_chunks page r sign amount chunkSize n i).
Proof.
  induction n as [| n IH]; intros i; cbn [scroll_chunks].
  - apply orderly_ret.
  - apply orderly_bind; [now apply orderly_perform | intros _].
    apply orderly_bind; [apply orderly_randomSleep | intros _].
    apply IH.
Qed.

(** X17: when a call on the page rejects, the primitive stops there and
    rejects with the very reason the page gave.  For [humanClick],
    [humanType], [humanFill] and [humanScroll], in every run: a call of the
    trace that the page rejected is the last event of the trace and the run
    rejects with the page's reason, so nothing is done after it, nothing is
    retried and nothing is swallowed; and the other way round, a rejection
    that is not one of the module's own errors comes from the last call of
    the trace. *)
Theorem rejection_stops_the_primitive :
  forall (page : Page) (selector : string) (text : Text)
         (config : HumanEmulationConfig) (options : option ClickOptions)
         (type_options : option TypeOptions) (direction : Direction.t)
         (amount : R),
    stops_at_rejection page (humanClick page selector config options) /\
    stops_at_rejection page
      (humanType page selector text config type_options) /\
    stops_at_rejection page (humanFill page selector text config) /\
    stops_at_rejection page (humanScroll page direction amount config).
Proof.
  intros page selector text config options type_options direction amount.
  split; [apply orderly_humanClick |].
  split.
  { unfold humanType.
    apply orderly_bind; [apply orderly_humanClick | intros _].
    apply orderly_bind; [apply orderly_randomSleep | intros _].
    apply orderly_type_chars. }
  split.
  { unfold humanFill.
    apply orderly_bind; [apply orderly_humanClick | intros _].
    apply orderly_bind; [now apply orderly_perform | intros _].
    apply orderly_bind; [apply orderly_randomSleep | intros _].
    apply orderly_bind; [now apply orderly_perform | intros _].
    apply orderly_bind; [apply orderly_randomSleep | intros _].
    apply orderly_type_chars. }
  unfold humanScroll.
  apply orderly_bind; [apply orderly_randomBetween | intros chunkSize].
  apply orderly_scroll_chunks.
Qed.

Lemma rejection_stops_the_primitive_witness :
  exists (w' : World) (evs : list Event) (e : Event),
    humanScroll stuck_wheel_page Direction.down 300
      (mkConfig true None None None) (initial_world (fun _ => 0.7))
    = (Rejected (ActorPrimitiveFailure "wheel stuck"), w') /\
    events w' = [] ++ evs ++ [e] /\
    rejected_by stuck_wheel_page ([] ++ evs) e "wheel stuck" /\
    (@nil Event = [] /\
     @Rejected unit (ActorPrimitiveFailure "wheel stuck")
     = Rejected (ActorPrimitiveFailure "wheel stuck")).
Proof.
  assert (Hrun : exists w',
            humanScroll stuck_wheel_page Direction.down 300
              (mkConfig true None None None) (initial_world (fun _ => 0.7))
            = (Rejected (ActorPrimitiveFailure "wheel stuck"), w')).
  { unfold humanScroll.
    rewrite (bind_run _ _ _ _ _ (randomBetween_run _ _ _)).
    cbn [initial_world random_source draws].
    replace (Math_ceil (300 / (0.7 * (150 - 50) + 50))) with 3%Z
      by (symmetry; apply Zceil_eq; lra).
    change (Z.to_nat 3) with 3%nat. cbn [scroll_chunks].
    eexists. apply bind_stop. reflexivity. }
  destruct Hrun as [w' Hrun].
  destruct (proj2 (proj2 (proj2 (rejection_stops_the_primitive
              stuck_wheel_page "#name" (text_of "Ada")
              (mkConfig true None None None)
              None None Direction.down 300))))
    as [Hsurvived Hlast].
  destruct (Hlast (initial_world (fun _ => 0.7)) w' "wheel stuck"%string Hrun)
    as (evs & e & Hevs & Hrej).
  exists w', evs, e.
  refine (conj Hrun (conj Hevs (conj Hrej _))).
  exact (Hsurvived (initial_world (fun _ => 0.7)) w' _ evs e []
           "wheel stuck"%string Hrun Hevs Hrej).
Defined.

(** * Properties of execute.ts *)

(** ** formatUserCodeError *)

Example formatUserCodeError_third_line :
  formatUserCodeError
    (mkUserError "x is not defined"
       (Some ("ReferenceError: x is not defined" ++ nl
              ++ "    at eval (user-code.js:3:9)" ++ nl
              ++ "    at <anonymous>:1:1")%string))
    ("const a = 1;" ++ nl ++ "const b = 2;" ++ nl ++ "return x;" ++ nl
     ++ "// done")%string
  = mkFormattedError "x is not defined" (Some 3%nat)
      (Some ("    2: const b = 2;" ++ nl ++ ">>> 3: return x;" ++ nl
             ++ "    4: // done")%string).
Proof. reflexivity. Qed.

(** ** The snippet *)

Lemma split_lines_cons (s : string) :
  exists line lines, split_lines s = line :: lines.
Proof.
  destruct s as [| c s]; [now exists EmptyString, [] |].
  cbn [split_lines]. destruct (Ascii.eqb c "010"); [eauto |].
  destruct (split_lines s); eauto.
Qed.

Lemma split_lines_one_line (s : string) : Forall one_line (split_lines s).
Proof.
  induction s as [| c s IH]; cbn [split_lines].
  - repeat constructor. intros [].
  - destruct (Ascii.eqb_spec c "010") as [-> | Hc].
    + constructor; [intros [] | exact IH].
    + destruct (split_lines s) as [| line lines]; [contradiction
        (proj1 (Forall_nil_iff _) I) || idtac |].
      * repeat constructor. intros [H | []]. congruence.
      * inversion_clear IH as [| ? ? Hline Hlines].
        constructor; [| exact Hlines].
        intros [H | H]; [congruence | exact (Hline H)].
Qed.

Lemma one_line_app (a b : string) :
  one_line a -> one_line b -> one_line (a ++ b).
Proof.
  unfold one_line. induction a as [| c a IH]; intros Ha Hb; [exact Hb |].
  cbn in *. intros [H | H]; [apply Ha; now left |].
  apply IH; [| exact Hb | exact H]. intros H'. apply Ha. now right.
Qed.

Lemma decimal_one_line (n : nat) : one_line (decimal n).
Proof.
  unfold decimal, one_line. generalize (Nat.to_uint n). intros d.
  induction d; cbn; intros H; try (destruct H as [H | H];
    [discriminate H | now apply IHd]); contradiction.
Qed.

Lemma split_one_line (s : string) : one_line s -> split_lines s = [s].
Proof.
  unfold one_line. induction s as [| c s IH]; intros H; [reflexivity |].
  cbn [split_lines]. destruct (Ascii.eqb_spec c "010") as [-> | Hc].
  - exfalso. apply H. now left.
  - rewrite IH; [reflexivity |]. intros H'. apply H. now right.
Qed.

Lemma split_lines_app (a b : string) :
  one_line a ->
  split_lines (a ++ String "010" b) = a :: split_lines b.
Proof.
  unfold one_line. induction a as [| c a IH]; intros H; [reflexivity |].
  cbn [String.append split_lines].
  destruct (Ascii.eqb_spec c "010") as [-> | Hc].
  - exfalso. apply H. now left.
  - rewrite IH; [reflexivity |]. intros H'. apply H. now right.
Qed.

(** Joining rows that hold no line break and splitting again gives the
    rows back. *)
Lemma split_join (rows : list string) :
  rows <> [] -> Forall one_line rows -> split_lines (join_lines rows) = rows.
Proof.
  induction rows as [| r rows IH]; intros Hne Hall; [congruence |].
  inversion_clear Hall as [| ? ? Hr Hrows].
  destruct rows as [| r' rows'].
  - cbn [join_lines]. now apply split_one_line.
  - change (join_lines (r :: r' :: rows'))
      with (r ++ String "010" (join_lines (r' :: rows')))%string.
    rewrite split_lines_app by exact Hr.
    rewrite IH; [reflexivity | discriminate | exact Hrows].
Qed.

Lemma skipn_cons_nth {A : Type} (k : nat) (l : list A) (d : A) :
  (k < List.length l)%nat -> skipn k l = nth k l d :: skipn (S k) l.
Proof.
  revert l. induction k as [| k IH]; intros [| a l] H; cbn in *; try lia.
  - reflexivity.
  - apply IH. lia.
Qed.

Lemma row_marked (lines : list string) (n : nat) :
  ((if (n =? n)%nat then ">>> " else "    ")
   ++ decimal n ++ ": " ++ nth (n - 1) lines EmptyString)%string
  = row ">>> " n lines.
Proof. now rewrite Nat.eqb_refl. Qed.

Lemma row_plain (lines : list string) (n m : nat) :
  n <> m ->
  ((if (n =? m)%nat then ">>> " else "    ")
   ++ decimal n ++ ": " ++ nth (n - 1) lines EmptyString)%string
  = row "    " n lines.
Proof. intros H. apply Nat.eqb_neq in H. now rewrite H. Qed.

(** The rows around a line that exists. *)
Lemma snippet_rows_inside (lines : list string) (L : nat) :
  (1 <= L <= List.length lines)%nat ->
  snippet_rows lines L
  = (if (L =? 1)%nat then [] else [row "    " (L - 1) lines])
    ++ [row ">>> " L lines]
    ++ (if (L =? List.length lines)%nat then []
        else [row "    " (L + 1) lines]).
Proof.
  intros HL. unfold snippet_rows, slice. cbn [Nat.max].
  destruct L as [| [| m]]; [lia | |].
  - (* the first line *)
    cbn [Nat.sub skipn Nat.eqb app]. rewrite Nat.sub_0_r.
    destruct lines as [| a [| b rest]]; [cbn in HL; lia | |].
    + reflexivity.
    + cbn [List.length Nat.min firstn map_indexed Nat.add Nat.eqb app].
      rewrite Nat.min_0_r. reflexivity.
  - (* a later line *)
    replace (S (S m) - 2)%nat with m by lia.
    rewrite (skipn_cons_nth m lines EmptyString) by lia.
    rewrite (skipn_cons_nth (S m) lines EmptyString) by lia.
    change (S (S m) =? 1)%nat with false.
    assert (Hbefore :
              ((if (m + 0 + 1 =? S (S m))%nat then ">>> " else "    ")
               ++ decimal (m + 0 + 1) ++ ": " ++ nth m lines EmptyString)%string
              = row "    " (S (S m) - 1) lines).
    { replace (m + 0 + 1)%nat with (S m) by lia.
      replace (S (S m) - 1)%nat with (S m) by lia.
      rewrite <- (row_plain lines (S m) (S (S m))) by lia.
      now replace (S m - 1)%nat with m by lia. }
    assert (Hmarked :
              ((if (m + 1 + 1 =? S (S m))%nat then ">>> " else "    ")
               ++ decimal (m + 1 + 1) ++ ": "
               ++ nth (S m) lines EmptyString)%string
              = row ">>> " (S (S m)) lines).
    { replace (m + 1 + 1)%nat with (S (S m)) by lia.
      rewrite <- (row_marked lines (S (S m))).
      now replace (S (S m) - 1)%nat with (S m) by lia. }
    destruct (Nat.eqb_spec (S (S m)) (List.length lines)) as [Hlast | Hmore'].
    + replace (Nat.min (List.length lines) (S (S m) + 1) - m)%nat
          with 2%nat by lia.
        cbn [firstn map_indexed app]. now rewrite Hbefore, Hmarked.
    + rewrite (skipn_cons_nth (S (S m)) lines EmptyString) by lia.
        replace (Nat.min (List.length lines) (S (S m) + 1) - m)%nat
          with 3%nat by lia.
        cbn [firstn map_indexed app]. rewrite Hbefore, Hmarked.
        do 2 f_equal. f_equal.
        rewrite <- (row_plain lines (S (S m) + 1) (S (S m))) by lia.
        replace (m + 2 + 1)%nat with (S (S m) + 1)%nat by lia.
        now replace (S (S m) + 1 - 1)%nat with (S (S m)) by lia.
Qed.

Lemma nth_one_line (lines : list string) (k : nat) :
  Forall one_line lines -> one_line (nth k lines EmptyString).
Proof.
  intros H. revert k. induction H as [| l lines Hl _ IH]; intros [| k]; cbn;
    try (intros []); [exact Hl | apply IH].
Qed.

Lemma row_one_line (marker : string) (n : nat) (lines : list string) :
  one_line marker -> Forall one_line lines -> one_line (row marker n lines).
Proof.
  intros Hm Hl. unfold row.
  apply one_line_app; [exact Hm |].
  apply one_line_app; [apply decimal_one_line |].
  apply one_line_app; [| now apply nth_one_line].
  unfold one_line. cbn. intros [H | [H | []]]; discriminate H.
Qed.

Lemma formatUserCodeError_snippet (error : UserError) (userCode : string)
    (L : nat) :
  lineNumber (formatUserCodeError error userCode) = Some L ->
  codeSnippet (formatUserCodeError error userCode)
  = Some (join_lines (snippet_rows (split_lines userCode) L)).
Proof.
  unfold formatUserCodeError.
  destruct (match match_line "user-code.js:" _ with
            | Some m => Some m
            | None => match_line "<anonymous>:" _
            end) as [digits |]; cbn [lineNumber codeSnippet]; intros H.
  - now injection H as <-.
  - discriminate H.
Qed.

(** X18: when the line the stack names exists in the user's code, the
    snippet shows it marked with [>>> ], with the line before it and the
    line after it (when there is one) under four spaces, each row carrying
    its line number counted from 1; the snippet has two or three lines, one
    when the code has a single line. *)
Theorem snippet_shows_the_line :
  forall (error : UserError) (userCode : string) (L : nat),
    lineNumber (formatUserCodeError error userCode) = Some L ->
    (1 <= L <= List.length (split_lines userCode))%nat ->
    let lines := split_lines userCode in
    let rows :=
      (if (L =? 1)%nat then [] else [row "    " (L - 1) lines])
      ++ [row ">>> " L lines]
      ++ (if (L =? List.length lines)%nat then []
          else [row "    " (L + 1) lines]) in
    codeSnippet (formatUserCodeError error userCode) = Some (join_lines rows) /\
    split_lines (join_lines rows) = rows.
Proof.
  intros error userCode L Hline HL lines rows. split.
  - rewrite (formatUserCodeError_snippet _ _ _ Hline).
    fold lines. now rewrite snippet_rows_inside.
  - pose proof (split_lines_one_line userCode) as Hlines. fold lines in Hlines.
    assert (Hplain : one_line "    ").
    { unfold one_line. cbn. intros [H | [H | [H | [H | []]]]]; discriminate H. }
    assert (Hmark : one_line ">>> ").
    { unfold one_line. cbn. intros [H | [H | [H | [H | []]]]]; discriminate H. }
    apply split_join.
    + unfold rows. destruct (L =? 1)%nat; discriminate.
    + unfold rows. apply Forall_app. split; [| apply Forall_app; split].
      * destruct (L =? 1)%nat; [apply Forall_nil |].
        apply Forall_cons; [now apply row_one_line | apply Forall_nil].
      * apply Forall_cons; [now apply row_one_line | apply Forall_nil].
      * destruct (L =? List.length lines)%nat; [apply Forall_nil |].
        apply Forall_cons; [now apply row_one_line | apply Forall_nil].
Qed.

Lemma snippet_shows_the_line_witness :
  codeSnippet
    (formatUserCodeError
       (mkUserError "x is not defined" (Some "at eval (user-code.js:2:9)"%string))
       ("const a = 1;" ++ nl ++ "return x;")%string)
  = Some ("    1: const a = 1;" ++ nl ++ ">>> 2: return x;")%string.
Proof.
  apply (snippet_shows_the_line
           (mkUserError "x is not defined" (Some "at eval (user-code.js:2:9)"%string))
           ("const a = 1;" ++ nl ++ "return x;")%string 2).
  - reflexivity.
  - cbn. lia.
Defined.

Lemma Forall_map_indexed {A B : Type} (P : B -> Prop) (f : A -> nat -> B)
    (l : list A) :
  forall i : nat,
    (forall a idx, (i <= idx < i + List.length l)%nat -> P (f a idx)) ->
    Forall P (map_indexed f i l).
Proof.
  induction l as [| a l IH]; intros i H; cbn [map_indexed]; constructor.
  - apply H. cbn. lia.
  - apply IH. intros b idx Hidx. apply H. cbn. lia.
Qed.

(** X19: when the stack names a line that the user's code does not have
    (line 0, or a line past the end), no row of the snippet is marked, and
    from two lines past the end on the snippet is empty. *)
Theorem snippet_marks_nothing_outside :
  forall (error : UserError) (userCode : string) (L : nat),
    lineNumber (formatUserCodeError error userCode) = Some L ->
    (L = 0 \/ List.length (split_lines userCode) < L)%nat ->
    exists rows : list string,
      codeSnippet (formatUserCodeError error userCode)
      = Some (join_lines rows) /\
      Forall (fun r => exists rest, r = ("    " ++ rest)%string) rows /\
      (List.length (split_lines userCode) + 2 <= L -> rows = [])%nat.
Proof.
  intros error userCode L Hline HL.
  exists (snippet_rows (split_lines userCode) L).
  split; [now apply formatUserCodeError_snippet |].
  set (lines := split_lines userCode) in *.
  unfold snippet_rows, slice. cbn [Nat.max]. split.
  - apply Forall_map_indexed. intros line idx Hidx.
    rewrite List.length_firstn, List.length_skipn in Hidx.
    assert (Hne : ((L - 2 + idx + 1 =? L) = false)%nat).
    { apply Nat.eqb_neq. lia. }
    rewrite Hne. eexists. reflexivity.
  - intros Hfar.
    replace (Nat.min (List.length lines) (L + 1) - (L - 2))%nat with 0%nat
      by lia.
    reflexivity.
Qed.

Lemma snippet_marks_nothing_outside_witness :
  codeSnippet
    (formatUserCodeError
       (mkUserError "x is not defined" (Some "at eval (user-code.js:9:1)"%string))
       ("const a = 1;" ++ nl ++ "return x;")%string)
  = Some EmptyString.
Proof.
  destruct (snippet_marks_nothing_outside
              (mkUserError "x is not defined"
                 (Some "at eval (user-code.js:9:1)"%string))
              ("const a = 1;" ++ nl ++ "return x;")%string 9)
    as (rows & Hsnippet & _ & Hempty).
  - reflexivity.
  - right. cbn. lia.
  - rewrite Hsnippet, Hempty; [reflexivity | cbn; lia].
Defined.

(** ** The line number *)

Lemma take_digits_spec (s : string) :
  forall digits rest : string,
    take_digits s = (digits, rest) ->
    s = (digits ++ rest)%string /\ all_digits digits.
Proof.
  induction s as [| c s IH]; intros digits rest H; cbn [take_digits] in H.
  - injection H as <- <-. split; [reflexivity | constructor].
  - destruct (is_digit c) eqn:Hc.
    + destruct (take_digits s) as [d r]. injection H as <- <-.
      destruct (IH d r eq_refl) as [-> Hd]. split; [reflexivity |].
      constructor; assumption.
    + injection H as <- <-. split; [reflexivity | constructor].
Qed.

Lemma take_digits_run (digits rest : string) :
  all_digits digits ->
  match rest with
  | String c _ => is_digit c = false
  | EmptyString => True
  end ->
  take_digits (digits ++ rest) = (digits, rest).
Proof.
  unfold all_digits. induction digits as [| c digits IH]; intros Hd Hr.
  - cbn [String.append]. destruct rest as [| c rest]; [reflexivity |].
    cbn [take_digits]. now rewrite Hr.
  - cbn in Hd. inversion_clear Hd as [| ? ? Hc Hd'].
    cbn [String.append take_digits]. rewrite Hc, IH; auto.
Qed.

Lemma after_prefix_spec (head s rest : string) :
  after_prefix head s = Some rest <-> s = (head ++ rest)%string.
Proof.
  revert s. induction head as [| a head IH]; intros s; cbn [after_prefix].
  - cbn. split; [now intros [= ->] | now intros ->].
  - destruct s as [| b s]; [split; discriminate |].
    destruct (Ascii.eqb_spec a b) as [-> | Hab].
    + rewrite IH. cbn. split; [now intros -> | now intros [= ->]].
    + split; [discriminate | intros [= H _]; congruence].
Qed.

Lemma match_here_sound (tag s digits : string) :
  match_here tag s = Some digits ->
  exists (c : ascii) (post : string),
    s = (tag ++ digits ++ String ":" (String c post))%string /\
    digits <> EmptyString /\ all_digits digits /\ is_digit c = true.
Proof.
  unfold match_here. destruct (after_prefix tag s) as [s1 |] eqn:Htag;
    [| discriminate].
  apply after_prefix_spec in Htag. subst s.
  destruct (take_digits s1) as [d r] eqn:Hd.
  apply take_digits_spec in Hd as [-> Hall].
  destruct d as [| d0 d]; [discriminate |].
  destruct r as [| colon [| c post]]; try discriminate.
  - destruct (Ascii.eqb_spec colon ":") as [-> | Hne].
    + discriminate.
    + intros H. exfalso. revert H.
      destruct colon as [[] [] [] [] [] [] [] []]; discriminate.
  - destruct (Ascii.eqb_spec colon ":") as [-> | Hne].
    + destruct (is_digit c) eqn:Hc; [| discriminate].
      intros [= <-]. exists c, post. repeat split; try assumption.
      discriminate.
    + intros H. exfalso. revert H.
      destruct colon as [[] [] [] [] [] [] [] []]; try discriminate.
      congruence.
Qed.

Lemma match_here_complete (tag digits : string) (c : ascii) (post : string) :
  digits <> EmptyString -> all_digits digits -> is_digit c = true ->
  match_here tag (tag ++ digits ++ String ":" (String c post)) = Some digits.
Proof.
  intros Hne Hall Hc. unfold match_here.
  rewrite (proj2 (after_prefix_spec tag _ _) eq_refl).
  rewrite take_digits_run; [| exact Hall | reflexivity].
  destruct digits; [congruence |]. now rewrite Hc.
Qed.

Lemma match_line_sound (tag s digits : string) :
  match_line tag s = Some digits -> names_line tag s (parseInt digits).
Proof.
  induction s as [| c0 s IH]; cbn [match_line].
  - destruct (match_here tag EmptyString) as [d |] eqn:Hm; [| discriminate].
    intros [= ->]. apply match_here_sound in Hm as (c & post & Hs & Hrest).
    exists EmptyString, digits, c, post. now repeat split.
  - destruct (match_here tag (String c0 s)) as [d |] eqn:Hm.
    + intros [= ->]. apply match_here_sound in Hm as (c & post & Hs & Hrest).
      exists EmptyString, digits, c, post. now repeat split.
    + intros H. apply IH in H as (pre & ds & c & post & -> & Hrest).
      exists (String c0 pre), ds, c, post. now repeat split.
Qed.

Lemma match_line_complete (tag s : string) (n : nat) :
  names_line tag s n -> match_line tag s <> None.
Proof.
  intros (pre & ds & c & post & -> & Hne & Hall & Hc & _).
  induction pre as [| c0 pre IH].
  - cbn [String.append]. destruct (tag ++ ds ++ String ":" (String c post))%string
      eqn:Hs; cbn [match_line]; rewrite <- Hs;
      now rewrite match_here_complete.
  - cbn [String.append match_line].
    destruct (match_here tag _); [discriminate | exact IH].
Qed.

(** X20: [formatUserCodeError] reports a line number exactly when the stack
    holds [user-code.js:<digits>:<digit>] or [<anonymous>:<digits>:<digit>];
    the number is read from a [user-code.js] frame whenever the stack has
    one, and from an [<anonymous>] frame only otherwise. *)
Theorem line_number_from_stack :
  forall (error : UserError) (userCode : string),
    let s := match stack error with Some s => s | None => EmptyString end in
    (forall n : nat,
       lineNumber (formatUserCodeError error userCode) = Some n ->
       names_line "user-code.js:" s n \/
       ((forall m, ~ names_line "user-code.js:" s m) /\
        names_line "<anonymous>:" s n)) /\
    (forall n : nat,
       names_line "user-code.js:" s n \/ names_line "<anonymous>:" s n ->
       lineNumber (formatUserCodeError error userCode) <> None).
Proof.
  intros error userCode s. unfold formatUserCodeError. fold s. split.
  - intros n.
    destruct (match_line "user-code.js:" s) as [d |] eqn:Huser.
    + cbn [lineNumber]. intros [= <-]. left. now apply match_line_sound.
    + destruct (match_line "<anonymous>:" s) as [d |] eqn:Hanon;
        cbn [lineNumber]; [| discriminate].
      intros [= <-]. right. split; [| now apply match_line_sound].
      intros m Hm. now apply match_line_complete in Hm.
  - intros n [Hn | Hn]; apply match_line_complete in Hn.
    + destruct (match_line "user-code.js:" s); [discriminate | congruence].
    + destruct (match_line "user-code.js:" s); [discriminate |].
      destruct (match_line "<anonymous>:" s); [discriminate | congruence].
Qed.

Lemma line_number_from_stack_witness :
  names_line "user-code.js:"
    ("at <anonymous>:7:1" ++ nl ++ "at eval (user-code.js:12:9)") 12 \/
  ((forall m, ~ names_line "user-code.js:"
                  ("at <anonymous>:7:1" ++ nl ++ "at eval (user-code.js:12:9)")
                  m) /\
   names_line "<anonymous>:"
     ("at <anonymous>:7:1" ++ nl ++ "at eval (user-code.js:12:9)") 12).
Proof.
  apply (proj1 (line_number_from_stack
                  (mkUserError "boom"
                     (Some ("at <anonymous>:7:1" ++ nl
                            ++ "at eval (user-code.js:12:9)")%string))
                  "return 1;") 12%nat).
  reflexivity.
Defined.

(** ** executeUserCode *)

Example executeUserCode_times_out :
  executeUserCode (fun _ => None) "await new Promise(() => {});" None pending
    60000
  = Some (inl (thrown_error
                 (mkUserError "Execution timeout exceeded (60000ms)" None))).
Proof. reflexivity. Qed.










(** ** normalizeResult *)

Lemma normalizeResult_alone (result : JsValue) :
  match result with
  | js_undefined | js_null | js_array _ => False
  | _ => True
  end ->
  normalizeResult result = [normalize_item result].
Proof.
  intros H. destruct result; try contradiction; try reflexivity.
  cbn [normalizeResult]. unfold normalize_item.
  now destruct (is_object (js_object props) && _)%bool.
Qed.

(** X23: a result that is not an array, [null] or [undefined] is treated as
    the array holding it alone. *)
Theorem normalizeResult_single :
  forall result : JsValue,
    match result with
    | js_undefined | js_null | js_array _ => False
    | _ => True
    end ->
    normalizeResult result = normalizeResult (js_array [result]).
Proof.
  intros result H. now rewrite (normalizeResult_alone result H).
Qed.

Lemma normalizeResult_single_witness :
  normalizeResult
    (js_object [("binary"%string, js_object [("data"%string, js_string "QQ==")])])
  = normalizeResult
      (js_array
         [js_object
            [("binary"%string, js_object [("data"%string, js_string "QQ==")])]]).
Proof.
  apply (normalizeResult_single
           (js_object
              [("binary"%string,
                js_object [("data"%string, js_string "QQ==")])])).
  exact I.
Defined.

(** X24: every item that comes out with a [binary] key has a [json] that is
    not falsy (an empty object stands in for a missing or falsy one); an
    array gives as many items as it has, and anything else exactly one. *)
Theorem normalizeResult_items :
  forall result : JsValue,
    Forall (fun item =>
              match binary item with
              | Some _ => truthy (json item) = true
              | None => True
              end) (normalizeResult result) /\
    List.length (normalizeResult result)
    = match result with
      | js_array items => List.length items
      | _ => 1%nat
      end.
Proof.
  intros result.
  assert (Hitem : forall item,
            match binary (normalize_item item) with
            | Some _ => truthy (json (normalize_item item)) = true
            | None => True
            end).
  { intros item. unfold normalize_item.
    destruct (is_object item && _)%bool; cbn [binary json]; [| exact I].
    destruct (truthy (get_key "json" item)) eqn:Ht; [exact Ht | reflexivity]. }
  assert (Hone : forall item,
            Forall (fun item =>
                      match binary item with
                      | Some _ => truthy (json item) = true
                      | None => True
                      end) [normalize_item item]).
  { intros item. apply Forall_cons; [apply Hitem | apply Forall_nil]. }
  destruct result;
    try (rewrite normalizeResult_alone by exact I; split;
         [apply Hone | reflexivity]).
  - split; [apply Forall_cons; [exact I | apply Forall_nil] | reflexivity].
  - split; [apply Forall_cons; [exact I | apply Forall_nil] | reflexivity].
  - cbn [normalizeResult]. split; [| apply List.length_map].
    apply Forall_forall. intros out Hout.
    apply in_map_iff in Hout as (item & <- & _). apply Hitem.
Qed.
